(** * rocksdb-cloud: the cloud storage provider layer

    A shallow embedding of [cloud/cloud_storage_provider.cc] and of the S3
    backend in [cloud/aws/aws_s3.cc]:

    - [Status], the outcome value every operation returns;
    - the local filesystem the provider stages files on, and the log of
      the calls made to the outside world;
    - [CloudStorageReadableFile] and its S3 implementation of [DoCloudRead];
    - [CloudStorageWritableFile] with the manifest protocol of [Sync];
    - [CloudStorageProvider::GetObject], [PutObject] and
      [S3StorageProvider::ListObjects].

    Unsigned 64-bit quantities are [Z] with the wrap-around written out
    ([wrap64]).  The [assert]s of the source are compiled out, as in a release
    build ([NDEBUG]); where one guards a branch, the branch is modelled. *)

From Stdlib Require Import ZArith String Ascii Init.Byte List Sorting.Sorted Lia.
From stdpp Require Import gmap strings list fin_maps pretty.

Open Scope string_scope.
Open Scope list_scope.
Open Scope Z_scope.

(** ** Status *)

(** The failure codes of [rocksdb::Status::Code] ([kOk] is the constructor
    [OK] of [Status] below). *)
Inductive Code :=
| kNotFound | kCorruption | kNotSupported | kInvalidArgument | kIOError
| kMergeInProgress | kIncomplete | kShutdownInProgress | kTimedOut
| kAborted | kBusy | kExpired | kTryAgain.

(** A [rocksdb::Status]: success, or a code with its message. *)
Inductive Status :=
| OK
| Err (c : Code) (state : string).

Definition ok (s : Status) : bool :=
  match s with OK => true | Err _ _ => false end.

Definition IsNotFound (s : Status) : bool :=
  match s with Err kNotFound _ => true | _ => false end.

Definition IsIOError (s : Status) : bool :=
  match s with Err kIOError _ => true | _ => false end.

Definition string_empty (s : string) : bool :=
  match s with EmptyString => true | String _ _ => false end.

(** The message a [Status] keeps for [(msg, msg2)]: the two joined by a
    colon, or [msg] alone when [msg2] is empty. *)
Definition join_msg (msg msg2 : string) : string :=
  if string_empty msg2 then msg else msg +:+ ": " +:+ msg2.

(** [Status::IOError(msg)], [Status::IOError(msg, msg2)] and the same for
    [Status::NotFound]. *)
Definition IOError (msg : string) : Status := Err kIOError msg.
Definition IOError2 (msg msg2 : string) : Status :=
  Err kIOError (join_msg msg msg2).
Definition NotFound (msg : string) : Status := Err kNotFound msg.
Definition NotFound2 (msg msg2 : string) : Status :=
  Err kNotFound (join_msg msg msg2).

(** ** 64-bit arithmetic *)

Definition wrap64 (z : Z) : Z := z mod 2 ^ 64.

(** ** The S3 client's requests and outcomes *)

(** [Aws::S3::S3Errors], the members the code tests and a few of the rest. *)
Inductive S3Errors :=
| NO_SUCH_BUCKET | NO_SUCH_KEY | RESOURCE_NOT_FOUND
| BUCKET_ALREADY_EXISTS | BUCKET_ALREADY_OWNED_BY_YOU
| ACCESS_DENIED | INTERNAL_FAILURE | NETWORK_CONNECTION | SLOW_DOWN | UNKNOWN.

Record AWSError := mkAWSError { GetErrorType : S3Errors; GetMessage : string }.

(** The header [Range: bytes=first-last]; both ends are inclusive. *)
Record ByteRange := mkRange { range_first : Z; range_last : Z }.

Record GetObjectRequest := mkGetReq {
  get_Bucket : string;
  get_Key : string;
  get_Range : ByteRange }.

Inductive GetObjectOutcome :=
| GetSuccess (body : list byte)
| GetFailure (error : AWSError).

Record ListObjectsRequest := mkListReq {
  list_Bucket : string;
  list_MaxKeys : Z;
  list_Prefix : string;
  list_Marker : string }.

(** A [ListObjectsResult]: the keys of the page, whether the listing was
    truncated, and the next marker (empty when the store sent none). *)
Record ListObjectsResult := mkListRes {
  GetContents : list string;
  GetIsTruncated : bool;
  GetNextMarker : string }.

Inductive ListObjectsOutcome :=
| ListSuccess (res : ListObjectsResult)
| ListFailure (error : AWSError).

(** [AwsS3ClientWrapper], for the two calls modelled in full: the remote
    store answers each request. *)
Record AwsS3ClientWrapper := mkClient {
  s3_GetObject : GetObjectRequest -> GetObjectOutcome;
  s3_ListObjects : ListObjectsRequest -> ListObjectsOutcome }.

(** [IsNotFound(const Aws::S3::S3Errors&)] *)
Definition S3IsNotFound (s3err : S3Errors) : bool :=
  match s3err with
  | NO_SUCH_BUCKET | NO_SUCH_KEY | RESOURCE_NOT_FOUND => true
  | _ => false
  end.

(** ** Uploads *)

Inductive ServerSideEncryption := AES256 | aws_kms.

(** A [PutObjectRequest] without its body: [PutObjectMetadata] sets none,
    and the file that [DoPutObject] streams is recorded beside the
    request. *)
Record PutObjectRequest := mkPutReq {
  put_Bucket : string;
  put_Key : string;
  put_Metadata : gmap string string;
  put_ServerSideEncryption : option ServerSideEncryption;
  put_SSEKMSKeyId : option string }.

(** The encryption options of [CloudEnvOptions]. *)
Record EncryptionOptions := mkEncryption {
  server_side_encryption : bool;
  encryption_key_id : string }.

(** [SetEncryptionParameters]: what it sets on a put request, the
    encryption and the KMS key id. *)
Definition SetEncryptionParameters (cloud_env_options : EncryptionOptions)
  : option ServerSideEncryption * option string :=
  if server_side_encryption cloud_env_options then
    if string_empty (encryption_key_id cloud_env_options) then
      (Some AES256, None)
    else
      (Some aws_kms, Some (encryption_key_id cloud_env_options))
  else (None, None).

(** ** Calls to the outside world *)

Inductive InfoLogLevel := DEBUG_LEVEL | INFO_LEVEL | ERROR_LEVEL.

(** Every call that leaves the provider is recorded, in order. *)
Inductive Event :=
| EvFileExists (fname : string)
| EvNewWritableFile (fname : string)
| EvAppend (handle : nat) (data : list byte)
| EvLocalSync (handle : nat)
| EvLocalClose (handle : nat)
| EvRenameFile (src dst : string)
| EvDeleteFile (fname : string)
| EvGetFileSize (fname : string)
| EvCopyLocalFileToDest (local_name dest_name : string)
| EvDoGetObject (bucket path destination : string)
| EvUploadFile (fileName bucketName keyName : string)
| EvS3PutObject (request : PutObjectRequest) (body : string)
| EvS3GetObject (request : GetObjectRequest)
| EvS3ListObjects (request : ListObjectsRequest)
| EvLog (level : InfoLogLevel).

(** The calls that reach the remote store. *)
Definition is_remote (e : Event) : bool :=
  match e with
  | EvCopyLocalFileToDest _ _ | EvDoGetObject _ _ _ | EvUploadFile _ _ _
  | EvS3PutObject _ _ | EvS3GetObject _ | EvS3ListObjects _ => true
  | _ => false
  end.

(** ** The local filesystem and the effect monad *)

(** Paths name inodes and inodes hold bytes, so that an open file handle
    (an inode number) keeps denoting the same file when a path is renamed
    over or away from it. *)
Record LocalFS := mkFS {
  dir : gmap string nat;
  inodes : gmap nat (list byte) }.

(** What a reader that opens [fname] observes. *)
Definition read_file (lfs : LocalFS) (fname : string) : option (list byte) :=
  match dir lfs !! fname with
  | Some i => inodes lfs !! i
  | None => None
  end.

(** Whether a path names a file. *)
Definition file_present (lfs : LocalFS) (fname : string) : bool :=
  match dir lfs !! fname with Some _ => true | None => false end.

(** The local filesystem and the calls made so far. *)
Record World := mkWorld { fs : LocalFS; trace : list Event }.

(** Code that changes the local filesystem and calls out: a state monad
    over [World]. *)
Definition Eff (A : Type) : Type := World -> A * World.

Definition ret {A} (a : A) : Eff A := fun w => (a, w).

Definition bind {A B} (m : Eff A) (k : A -> Eff B) : Eff B :=
  fun w => let (a, w') := m w in k a w'.

Notation "x <- m ;; k" := (bind m (fun x => k))
  (at level 100, m at next level, right associativity).
Notation "m ;;; k" := (bind m (fun _ => k))
  (at level 100, right associativity).

Definition emit (e : Event) : Eff unit :=
  fun w => (tt, mkWorld (fs w) (trace w ++ [e])).

Definition get_fs : Eff LocalFS := fun w => (fs w, w).

Definition put_fs (lfs : LocalFS) : Eff unit :=
  fun w => (tt, mkWorld lfs (trace w)).

(** [Log(level, ...)]: the message text is not modelled. *)
Definition Log (level : InfoLogLevel) : Eff unit := emit (EvLog level).

(** *** The base [Env]

    The local filesystem abstraction (exists, open, append, sync, close,
    rename, delete, size) is an external collaborator whose code is not part
    of these sources.  Each call takes the failure the environment injects
    into it ([OK] for none); an injected failure leaves the filesystem as it
    was. *)

(** Modelled from the spec: [Env::FileExists], success when the path is
    there and not-found when it is not. *)
Definition FileExists (inj : Status) (fname : string) : Eff Status :=
  emit (EvFileExists fname) ;;;
  lfs <- get_fs ;;
  match inj with
  | OK => ret (if file_present lfs fname then OK else NotFound fname)
  | e => ret e
  end.

(** An inode number no path and no open file uses. *)
Definition fresh_inode (lfs : LocalFS) : nat :=
  fresh ((map_img (dir lfs) : gset nat) ∪ dom (inodes lfs)).

(** Modelled from the spec: [Env::NewWritableFile], "open" of a local file
    for writing: the file is created, or truncated when it is there. *)
Definition NewWritableFile (inj : Status) (fname : string)
  : Eff (Status * option nat) :=
  emit (EvNewWritableFile fname) ;;;
  lfs <- get_fs ;;
  match inj with
  | OK =>
      match dir lfs !! fname with
      | Some i =>
          put_fs (mkFS (dir lfs) (<[i := []]> (inodes lfs))) ;;;
          ret (OK, Some i)
      | None =>
          let i := fresh_inode lfs in
          put_fs (mkFS (<[fname := i]> (dir lfs)) (<[i := []]> (inodes lfs))) ;;;
          ret (OK, Some i)
      end
  | e => ret (e, None)
  end.

(** Modelled from the spec: [WritableFile::Append] on a local file. *)
Definition LocalAppend (inj : Status) (handle : nat) (data : list byte)
  : Eff Status :=
  emit (EvAppend handle data) ;;;
  lfs <- get_fs ;;
  match inj with
  | OK =>
      put_fs (mkFS (dir lfs) (alter (fun c => c ++ data) handle (inodes lfs))) ;;;
      ret OK
  | e => ret e
  end.

(** Modelled from the spec: [WritableFile::Sync], "sync" of a local file;
    the bytes a reader sees do not change. *)
Definition LocalSync (inj : Status) (handle : nat) : Eff Status :=
  emit (EvLocalSync handle) ;;; ret inj.

(** Modelled from the spec: [WritableFile::Close] on a local file. *)
Definition LocalClose (inj : Status) (handle : nat) : Eff Status :=
  emit (EvLocalClose handle) ;;; ret inj.

(** Modelled from the spec: [Env::RenameFile], a single atomic rename that
    replaces the target. *)
Definition RenameFile (inj : Status) (src dst : string) : Eff Status :=
  emit (EvRenameFile src dst) ;;;
  lfs <- get_fs ;;
  match inj with
  | OK =>
      match dir lfs !! src with
      | Some i =>
          put_fs (mkFS (<[dst := i]> (delete src (dir lfs))) (inodes lfs)) ;;;
          ret OK
      | None => ret (IOError2 src "No such file or directory")
      end
  | e => ret e
  end.

(** Modelled from the spec: [Env::DeleteFile]. *)
Definition DeleteFile (inj : Status) (fname : string) : Eff Status :=
  emit (EvDeleteFile fname) ;;;
  lfs <- get_fs ;;
  match inj with
  | OK =>
      match dir lfs !! fname with
      | Some _ =>
          put_fs (mkFS (delete fname (dir lfs)) (inodes lfs)) ;;;
          ret OK
      | None => ret (IOError2 fname "No such file or directory")
      end
  | e => ret e
  end.

(** Modelled from the spec: [Env::GetFileSize], the length of the file and
    0 with the failure. *)
Definition GetFileSize (inj : Status) (fname : string) : Eff (Status * Z) :=
  emit (EvGetFileSize fname) ;;;
  lfs <- get_fs ;;
  match inj with
  | OK =>
      match read_file lfs fname with
      | Some c => ret (OK, Z.of_nat (length c))
      | None => ret (IOError2 fname "No such file or directory", 0)
      end
  | e => ret (e, 0)
  end.

(** The failures the environment injects into the local calls one operation
    makes, and into [CloudEnvImpl::CopyLocalFileToDest]. *)
Record Faults := mkFaults {
  inj_exists : Status;
  inj_open : Status;
  inj_append : Status;
  inj_sync : Status;
  inj_close : Status;
  inj_rename : Status;
  inj_delete : Status;
  inj_size : Status;
  inj_copy : Status }.

(** The environment in which nothing fails. *)
Definition no_faults : Faults := mkFaults OK OK OK OK OK OK OK OK OK.

(** Modelled from the spec: [CloudEnvImpl::CopyLocalFileToDest] is not part of
    these sources; it pushes the local file as a whole object to the
    destination bucket and reports the outcome, leaving the local file alone. *)
Definition CopyLocalFileToDest (inj : Status) (local_name dest_name : string)
  : Eff Status :=
  emit (EvCopyLocalFileToDest local_name dest_name) ;;; ret inj.

(** ** CloudStorageProvider *)

(** The two virtual methods a backend supplies. *)
Class CloudStorageProvider := {
  DoGetObject : string -> string -> string -> Eff (Status * Z);
  DoPutObject : string -> string -> string -> Z -> Eff Status }.

(** [CloudStorageProvider::GetObject] *)
Definition GetObject `{CloudStorageProvider} (inj : Faults)
    (bucket_name object_path local_destination : string) : Eff Status :=
  let tmp_destination := local_destination +:+ ".tmp" in
  r <- DoGetObject bucket_name object_path tmp_destination ;;
  let '(s, remote_size) := r in
  if negb (ok s) then
    DeleteFile (inj_delete inj) tmp_destination ;;;
    ret s
  else
    (* Check if our local file is the same as promised *)
    r <- GetFileSize (inj_size inj) tmp_destination ;;
    let '(s, local_size) := r in
    if negb (ok s) then
      ret s
    else
      s <- (if negb (local_size =? remote_size) then
              DeleteFile (inj_delete inj) tmp_destination ;;;
              Log ERROR_LEVEL ;;;
              ret (IOError ("Partial download of a file " +:+ local_destination))
            else ret s) ;;
      s <- (if ok s then RenameFile (inj_rename inj) tmp_destination local_destination
            else ret s) ;;
      Log INFO_LEVEL ;;;
      ret s.

(** [CloudStorageProvider::PutObject] *)
Definition PutObject `{CloudStorageProvider} (inj : Faults)
    (local_file bucket_name object_path : string) : Eff Status :=
  (* debugging paranoia. Files uploaded to S3 can never be zero size. *)
  r <- GetFileSize (inj_size inj) local_file ;;
  let '(st, fsize) := r in
  if negb (ok st) then
    Log ERROR_LEVEL ;;;
    ret st
  else if fsize =? 0 then
    Log ERROR_LEVEL ;;;
    ret (IOError (local_file +:+ " Zero size."))
  else
    DoPutObject local_file bucket_name object_path fsize.

(** *** The S3 backend's transfers *)

(** What the AWS transfer did on one download: the error it ended with, if
    any, the bytes it left in the destination file ([None]: it created no
    file), and the content length it reported. *)
Record Download := mkDownload {
  dl_error : option AWSError;
  dl_written : option (list byte);
  dl_size : Z }.

(** The destination file as the transfer leaves it: created or truncated,
    then filled. *)
Definition write_file (fname : string) (content : list byte) (lfs : LocalFS)
  : LocalFS :=
  match dir lfs !! fname with
  | Some i => mkFS (dir lfs) (<[i := content]> (inodes lfs))
  | None =>
      let i := fresh_inode lfs in
      mkFS (<[fname := i]> (dir lfs)) (<[i := content]> (inodes lfs))
  end.

(** [S3StorageProvider::DoGetObject]; with and without the transfer manager
    the code maps the outcome the same way.  On failure [*remote_size] is left
    as it was, here [dl_size]. *)
Definition S3DoGetObject (dl : Download)
    (bucket_name object_path destination : string) : Eff (Status * Z) :=
  emit (EvDoGetObject bucket_name object_path destination) ;;;
  lfs <- get_fs ;;
  (match dl_written dl with
   | Some content => put_fs (write_file destination content lfs)
   | None => ret tt
   end) ;;;
  match dl_error dl with
  | None => ret (OK, dl_size dl)
  | Some error =>
      Log ERROR_LEVEL ;;;
      if S3IsNotFound (GetErrorType error)
      then ret (NotFound (GetMessage error), dl_size dl)
      else ret (IOError (GetMessage error), dl_size dl)
  end.

(** What [DoPutObject] uses of the provider: whether the client wrapper
    has a transfer manager, the encryption options of the environment, and
    the two uploads of the AWS SDK, each with the error it ends with, if
    any: [TransferManager::UploadFile], whose parameters are the file name,
    the bucket and the key in this order, and [S3Client::PutObject] with the
    file its body streams. *)
Record AwsS3Uploader := mkUploader {
  HasTransferManager : bool;
  GetCloudEnvOptions : EncryptionOptions;
  transfer_manager_UploadFile : string -> string -> string -> option AWSError;
  client_PutObject : PutObjectRequest -> string -> option AWSError }.

(** [AwsS3ClientWrapper::UploadFile].  Its parameters are [bucket_name],
    [object_path] and [destination] in this order, and it calls the transfer
    manager with [destination] for the file name, [bucket_name] for the
    bucket and [object_path] for the key.  [file_size] goes to the request
    callback only. *)
Definition UploadFile (s3client_ : AwsS3Uploader)
    (bucket_name object_path destination : string) (file_size : Z)
  : Eff (option AWSError) :=
  emit (EvUploadFile destination bucket_name object_path) ;;;
  ret (transfer_manager_UploadFile s3client_ destination bucket_name
                                   object_path).

(** [AwsS3ClientWrapper::PutObject]; [size_hint] goes to the request
    callback only. *)
Definition ClientPutObject (s3client_ : AwsS3Uploader)
    (request : PutObjectRequest) (body : string) (size_hint : Z)
  : Eff (option AWSError) :=
  emit (EvS3PutObject request body) ;;;
  ret (client_PutObject s3client_ request body).

(** [S3StorageProvider::DoPutObject].  With the transfer manager it calls
    the wrapper's [UploadFile] with [local_file], [bucket_name] and
    [object_path] in this order. *)
Definition S3DoPutObject (s3client_ : AwsS3Uploader)
    (local_file bucket_name object_path : string) (file_size : Z) : Eff Status :=
  if HasTransferManager s3client_ then
    handle <- UploadFile s3client_ local_file bucket_name object_path
                         file_size ;;
    match handle with
    | Some error =>
        Log ERROR_LEVEL ;;;
        ret (IOError2 local_file (GetMessage error))
    | None =>
        Log INFO_LEVEL ;;;
        ret OK
    end
  else
    let inputData := local_file in
    let enc := SetEncryptionParameters (GetCloudEnvOptions s3client_) in
    let putRequest :=
      mkPutReq bucket_name object_path ∅ (fst enc) (snd enc) in
    outcome <- ClientPutObject s3client_ putRequest inputData file_size ;;
    match outcome with
    | Some error =>
        Log ERROR_LEVEL ;;;
        ret (IOError2 local_file (GetMessage error))
    | None =>
        Log INFO_LEVEL ;;;
        ret OK
    end.

(** The S3 backend, for one download outcome and one uploader. *)
Definition S3StorageProvider (dl : Download) (up : AwsS3Uploader)
  : CloudStorageProvider :=
  {| DoGetObject := S3DoGetObject dl; DoPutObject := S3DoPutObject up |}.

(** ** CloudStorageReadableFile and S3ReadableFile *)

(** The fields of [CloudStorageReadableFile] and the client that
    [S3ReadableFile] adds. *)
Record S3ReadableFile := mkReadable {
  r_bucket_ : string;
  r_fname_ : string;
  offset_ : Z;
  file_size_ : Z;
  s3client_ : AwsS3ClientWrapper }.

(** The text [snprintf] produces for ["bytes=%" PRIu64 "-%" PRIu64]. *)
Definition range_header (r : ByteRange) : string :=
  "bytes=" +:+ pretty (Z.to_N (range_first r)) +:+ "-"
           +:+ pretty (Z.to_N (range_last r)).

(** [errmsg.find(needle) != std::string::npos] *)
Definition contains (needle errmsg : string) : bool :=
  match String.index 0 needle errmsg with Some _ => true | None => false end.

(** A [size_t] count as [body.read] takes it: its parameter is a
    [std::streamsize], which is signed, so a count of 2^63 and more arrives
    below 0. *)
Definition streamsize (n : Z) : Z := if n <? 2 ^ 63 then n else n - 2 ^ 64.

Arguments streamsize : simpl never.

(** [S3ReadableFile::DoCloudRead]: the status and the bytes left in
    [scratch] ([*bytes_read] is their number, the [gcount] of the read).  A
    read with a count below 0 extracts nothing. *)
Definition DoCloudRead (this : S3ReadableFile) (offset n : Z)
  : Eff (Status * list byte) :=
  (* Ranges are inclusive, so we can't read 0 bytes; read 1 instead and
     drop it later. *)
  let rangeLen := if negb (n =? 0) then n else 1 in
  let range := mkRange offset (wrap64 (offset + rangeLen - 1)) in
  let ret_ := Z.of_nat (String.length (range_header range)) in
  if ret_ <? 0 then
    Log ERROR_LEVEL ;;;
    ret (IOError2 "S3ReadableFile vsnprintf " (r_fname_ this), [])
  else
    let request := mkGetReq (r_bucket_ this) (r_fname_ this) range in
    emit (EvS3GetObject request) ;;;
    match s3_GetObject (s3client_ this) request with
    | GetFailure error =>
        let errmsg := GetMessage error in
        if S3IsNotFound (GetErrorType error)
           || contains "Response code: 404" errmsg
        then
          Log ERROR_LEVEL ;;;
          ret (NotFound2 (r_fname_ this) errmsg, [])
        else
          Log ERROR_LEVEL ;;;
          ret (IOError2 (r_fname_ this) errmsg, [])
    | GetSuccess body =>
        (* extract data payload *)
        let scratch :=
          if negb (n =? 0) then take (Z.to_nat (streamsize n)) body else [] in
        Log DEBUG_LEVEL ;;;
        ret (OK, scratch)
    end.

(** [CloudStorageReadableFile::Read(offset, n, result, scratch)], random
    access: the status and [*result]. *)
Definition Read (this : S3ReadableFile) (offset n : Z)
  : Eff (Status * list byte) :=
  Log DEBUG_LEVEL ;;;
  if file_size_ this <=? offset then
    Log DEBUG_LEVEL ;;;
    ret (OK, [])
  else
    (* trim size if needed *)
    let trim := file_size_ this <? wrap64 (offset + n) in
    let n := if trim then wrap64 (file_size_ this - offset) else n in
    (if trim then Log DEBUG_LEVEL else ret tt) ;;;
    r <- DoCloudRead this offset n ;;
    let '(st, scratch) := r in
    if ok st then
      Log DEBUG_LEVEL ;;;
      ret (st, scratch)
    else
      ret (st, []).

(** [CloudStorageReadableFile::Read(n, result, scratch)], sequential. *)
Definition ReadSeq (this : S3ReadableFile) (n : Z)
  : Eff (Status * list byte * S3ReadableFile) :=
  Log DEBUG_LEVEL ;;;
  r <- Read this (offset_ this) n ;;
  let '(s, result) := r in
  let offset' :=
    if ok s then wrap64 (offset_ this + Z.of_nat (length result))
    else offset_ this in
  ret (s, result,
       mkReadable (r_bucket_ this) (r_fname_ this) offset' (file_size_ this)
                  (s3client_ this)).

(** [CloudStorageReadableFile::Skip] *)
Definition Skip (this : S3ReadableFile) (n : Z) : Eff (Status * S3ReadableFile) :=
  Log DEBUG_LEVEL ;;;
  let offset' := wrap64 (offset_ this + n) in
  let offset' := if file_size_ this <? offset' then file_size_ this else offset' in
  ret (OK, mkReadable (r_bucket_ this) (r_fname_ this) offset' (file_size_ this)
                      (s3client_ this)).

(** A remote object with content [data], as the store serves ranged GETs on
    it: the bytes from [first] to [last] inclusive, cut at the end of the
    object; a range that starts at or past the end is refused. *)
Definition serve_range (data : list byte) (r : ByteRange) : GetObjectOutcome :=
  if (range_first r <? Z.of_nat (length data)) && (range_first r <=? range_last r)
  then GetSuccess (take (Z.to_nat (range_last r - range_first r + 1))
                        (drop (Z.to_nat (range_first r)) data))
  else GetFailure (mkAWSError UNKNOWN "InvalidRange").

(** A client of a store that serves ranged GETs on that one object. *)
Definition object_client (data : list byte) : AwsS3ClientWrapper :=
  mkClient (fun request => serve_range data (get_Range request))
           (fun _ => ListFailure (mkAWSError UNKNOWN "not a listing")).

(** ** S3StorageProvider::ListObjects *)

(** [keystr.find(prefix)]: the position of the first occurrence. *)
Definition find (keystr prefix : string) : option nat :=
  String.index 0 prefix keystr.

(** [keystr.substr(pos)] for [pos] within the string. *)
Definition substr (keystr : string) (pos : nat) : string :=
  String.substring pos (String.length keystr - pos) keystr.

(** How one call of the listing loop ended.  [UndefinedBack] is
    [objs.back()] on an empty page, which C++ leaves undefined; [OutOfFuel]
    is the bound on the number of iterations running out. *)
Inductive ListRun :=
| Finished (s : Status) (result : list string)
| UndefinedBack
| OutOfFuel.

(** The body of [for (auto o : objs)]: each key is checked against the
    prefix and its suffix pushed onto [result]. *)
Fixpoint push_keys (prefix : string) (objs : list string) (result : list string)
  : Status * list string :=
  match objs with
  | [] => (OK, result)
  | keystr :: objs' =>
      (* Our path should be a prefix of the fetched value *)
      match find keystr prefix with
      | Some O =>
          let fname := substr keystr (String.length prefix) in
          push_keys prefix objs' (result ++ [fname])
      | _ => (IOError ("Unexpected result from AWS S3: " +:+ keystr), result)
      end
  end.

(** The [while (loop)] of [ListObjects], at most [fuel] iterations. *)
Fixpoint ListObjects_loop (fuel : nat) (s3client : AwsS3ClientWrapper)
    (bucket_name object_path prefix : string) (marker : string)
    (result : list string) : Eff ListRun :=
  match fuel with
  | O => ret OutOfFuel
  | S fuel' =>
      let request := mkListReq bucket_name 50 prefix marker in
      emit (EvS3ListObjects request) ;;;
      match s3_ListObjects s3client request with
      | ListFailure error =>
          let errmsg := GetMessage error in
          if S3IsNotFound (GetErrorType error) then
            Log ERROR_LEVEL ;;;
            ret (Finished (NotFound2 object_path errmsg) result)
          else
            ret (Finished (IOError2 object_path errmsg) result)
      | ListSuccess res =>
          let objs := GetContents res in
          match push_keys prefix objs result with
          | (Err c m, result) => ret (Finished (Err c m) result)
          | (OK, result) =>
              (* If there are no more entries, then we are done. *)
              if negb (GetIsTruncated res) then
                ret (Finished OK result)
              else
                (* The new starting point *)
                let marker := GetNextMarker res in
                if string_empty marker then
                  match last objs with
                  | Some key =>
                      ListObjects_loop fuel' s3client bucket_name object_path
                                       prefix key result
                  | None => ret UndefinedBack
                  end
                else
                  ListObjects_loop fuel' s3client bucket_name object_path
                                   prefix marker result
          end
      end
  end.

Section ListObjects.

(** [ltrim_if] and [ensure_ends_with_pathsep] come from
    [cloud/filename.h], which is not part of these sources. *)
Variable ltrim_if : string -> ascii -> string.
Variable ensure_ends_with_pathsep : string -> string.

Definition normalized_prefix (object_path : string) : string :=
  (* S3 paths don't start with '/' *)
  let prefix := ltrim_if object_path "/"%char in
  (* S3 paths better end with '/', otherwise we might also get a list of
     files in a directory for which our path is a prefix *)
  ensure_ends_with_pathsep prefix.

(** [S3StorageProvider::ListObjects]; [result] is appended to. *)
Definition ListObjects (fuel : nat) (s3client : AwsS3ClientWrapper)
    (bucket_name object_path : string) (result : list string) : Eff ListRun :=
  let prefix := normalized_prefix object_path in
  (* the starting object marker *)
  let marker := "" in
  ListObjects_loop fuel s3client bucket_name object_path prefix marker result.

End ListObjects.

(** Modelled from the spec: [ltrim_if] of [cloud/filename.h], absent from
    these sources: "strip leading separator". *)
Definition spec_ltrim_if (s : string) (c : ascii) : string :=
  match s with
  | String a s' => if Ascii.eqb a c then s' else s
  | EmptyString => s
  end.

(** Whether the last character is the separator. *)
Fixpoint ends_with_pathsep (s : string) : bool :=
  match s with
  | EmptyString => false
  | String a EmptyString => Ascii.eqb a "/"%char
  | String _ s' => ends_with_pathsep s'
  end.

(** Modelled from the spec: [ensure_ends_with_pathsep] of
    [cloud/filename.h], absent from these sources: "ensure trailing
    separator". *)
Definition spec_ensure_ends_with_pathsep (s : string) : string :=
  if ends_with_pathsep s then s else s +:+ "/".

(** *** A bucket that pages its listing *)

(** Byte-wise lexicographic order, the order of S3 keys. *)
Definition key_lt (a b : string) : Prop := String.ltb a b = true.

(** The keys that follow [marker]; an empty marker starts from the first. *)
Definition keys_after (marker : string) (keys : list string) : list string :=
  if string_empty marker then keys
  else List.filter (fun k => String.ltb marker k) keys.

(** A store that holds [keys] (in order) and answers a listing request with
    the next page of the keys under the requested prefix: at most
    [MaxKeys] of them and at most [page_size marker], where the store is free
    to cut a page short; a truncated page carries a next marker only when
    [sends_marker marker] says so. *)
Definition paged_listing (keys : list string) (page_size : string -> nat)
    (sends_marker : string -> bool) (request : ListObjectsRequest)
  : ListObjectsOutcome :=
  let marker := list_Marker request in
  let under := List.filter (String.prefix (list_Prefix request)) keys in
  let rest := keys_after marker under in
  let k := Nat.min (page_size marker) (Z.to_nat (list_MaxKeys request)) in
  let page := take k rest in
  let truncated := (k <? length rest)%nat in
  ListSuccess (mkListRes page truncated
    (if truncated && sends_marker marker
     then match last page with Some key => key | None => "" end
     else "")).

(** A client of a store that answers listings that way. *)
Definition paged_client (keys : list string) (page_size : string -> nat)
    (sends_marker : string -> bool) : AwsS3ClientWrapper :=
  mkClient (fun _ => GetFailure (mkAWSError UNKNOWN "not an object"))
           (paged_listing keys page_size sends_marker).

(** ** CloudStorageWritableFile *)

(** The part of [CloudEnv] the writer consults. *)
Record CloudEnv := mkCloudEnv { keep_local_sst_files : bool }.

(** [local_file_] is the open handle (the inode it writes to) or null. *)
Record CloudStorageWritableFile := mkWritable {
  env_ : CloudEnv;
  fname_ : string;
  tmp_file_ : string;
  status_ : Status;
  local_file_ : option nat;
  bucket_ : string;
  cloud_fname_ : string;
  is_manifest_ : bool }.

Definition set_status (s : Status) (this : CloudStorageWritableFile) :=
  mkWritable (env_ this) (fname_ this) (tmp_file_ this) s (local_file_ this)
             (bucket_ this) (cloud_fname_ this) (is_manifest_ this).

Definition set_tmp_file (t : string) (this : CloudStorageWritableFile) :=
  mkWritable (env_ this) (fname_ this) t (status_ this) (local_file_ this)
             (bucket_ this) (cloud_fname_ this) (is_manifest_ this).

Definition set_local_file (h : option nat) (this : CloudStorageWritableFile) :=
  mkWritable (env_ this) (fname_ this) (tmp_file_ this) (status_ this) h
             (bucket_ this) (cloud_fname_ this) (is_manifest_ this).

Section Writable.

(** [RemoveEpoch] and [IsManifestFile] come from [cloud/filename.h], which
    is not part of these sources. *)
Variable RemoveEpoch : string -> string.
Variable IsManifestFile : string -> bool.

(** The tail of the constructor: open [file_to_open]. *)
Definition open_local_file (inj : Faults) (file_to_open : string)
    (this : CloudStorageWritableFile) : Eff CloudStorageWritableFile :=
  r <- NewWritableFile (inj_open inj) file_to_open ;;
  let '(s, handle) := r in
  if negb (ok s) then
    Log ERROR_LEVEL ;;;
    ret (set_status s this)
  else
    ret (set_local_file handle this).

(** [CloudStorageWritableFile::CloudStorageWritableFile] *)
Definition new_CloudStorageWritableFile (inj : Faults) (env : CloudEnv)
    (local_fname bucket cloud_fname : string) : Eff CloudStorageWritableFile :=
  let fname_no_epoch := RemoveEpoch local_fname in
  (* Is this a manifest file? *)
  let this := mkWritable env local_fname "" OK None bucket cloud_fname
                         (IsManifestFile fname_no_epoch) in
  Log DEBUG_LEVEL ;;;
  if is_manifest_ this then
    s <- FileExists (inj_exists inj) (fname_ this) ;;
    if negb (ok s) && negb (IsNotFound s) then
      ret (set_status s this)
    else if ok s then
      (* Manifest exists. Instead of overwriting the MANIFEST (which could
         be bad if we crash mid-write), write to the temporary file and do
         an atomic rename on Sync() *)
      let this := set_tmp_file (fname_ this +:+ ".tmp") this in
      open_local_file inj (tmp_file_ this) this
    else
      open_local_file inj (fname_ this) this
  else
    open_local_file inj (fname_ this) this.

End Writable.

(** Modelled from the spec: [CloudStorageWritableFile::Append] is declared in
    the header, which is not part of these sources: "writes go to a local
    staging file", that is to the open local handle.  On a writer without a
    handle nothing is written and an error is returned. *)
Definition Append (inj : Faults) (data : list byte)
    (this : CloudStorageWritableFile) : Eff Status :=
  match local_file_ this with
  | Some handle => LocalAppend (inj_append inj) handle data
  | None => ret (IOError "no local file")
  end.

(** [CloudStorageWritableFile::Close] *)
Definition Close (inj : Faults) (this : CloudStorageWritableFile)
  : Eff (Status * CloudStorageWritableFile) :=
  match local_file_ this with
  | None => (* already closed *)
      ret (status_ this, this)
  | Some handle =>
      Log DEBUG_LEVEL ;;;
      (* close local file *)
      st <- LocalClose (inj_close inj) handle ;;
      if negb (ok st) then
        Log ERROR_LEVEL ;;;
        ret (st, this)
      else
        let this := set_local_file None this in
        if negb (is_manifest_ this) then
          s <- CopyLocalFileToDest (inj_copy inj) (fname_ this) (cloud_fname_ this) ;;
          let this := set_status s this in
          if negb (ok (status_ this)) then
            Log ERROR_LEVEL ;;;
            ret (status_ this, this)
          else if negb (keep_local_sst_files (env_ this)) then
            (* delete local file *)
            s <- DeleteFile (inj_delete inj) (fname_ this) ;;
            let this := set_status s this in
            if negb (ok (status_ this)) then
              Log ERROR_LEVEL ;;;
              ret (status_ this, this)
            else
              Log DEBUG_LEVEL ;;;
              ret (OK, this)
          else
            Log DEBUG_LEVEL ;;;
            ret (OK, this)
        else
          ret (OK, this)
  end.

(** [CloudStorageWritableFile::~CloudStorageWritableFile] *)
Definition destroy (inj : Faults) (this : CloudStorageWritableFile)
  : Eff CloudStorageWritableFile :=
  match local_file_ this with
  | Some _ =>
      r <- Close inj this ;;
      ret (snd r)
  | None => ret this
  end.

(** [CloudStorageWritableFile::Sync] *)
Definition Sync (inj : Faults) (this : CloudStorageWritableFile)
  : Eff (Status * CloudStorageWritableFile) :=
  match local_file_ this with
  | None => ret (status_ this, this)
  | Some handle =>
      (* sync local file *)
      stat <- LocalSync (inj_sync inj) handle ;;
      r <- (if ok stat && negb (string_empty (tmp_file_ this)) then
              (* We are writing to the temporary file. On a first sync we
                 need to rename the file to the real filename. *)
              stat <- RenameFile (inj_rename inj) (tmp_file_ this) (fname_ this) ;;
              ret (stat, set_tmp_file "" this)
            else
              ret (stat, this)) ;;
      let '(stat, this) := r in
      (* We copy MANIFEST to S3 on every Sync() *)
      if is_manifest_ this && ok stat then
        stat <- CopyLocalFileToDest (inj_copy inj) (fname_ this) (cloud_fname_ this) ;;
        (if ok stat then Log DEBUG_LEVEL else Log ERROR_LEVEL) ;;;
        ret (stat, this)
      else
        ret (stat, this)
  end.

(** *** The life of a writer *)

(** What the owner of a writer does with it after construction. *)
Inductive WriterOp :=
| OpAppend (inj : Faults) (data : list byte)
| OpSync (inj : Faults)
| OpClose (inj : Faults).

Definition is_append (op : WriterOp) : bool :=
  match op with OpAppend _ _ => true | _ => false end.

(** One operation on the writer; what it returns to the caller is dropped. *)
Definition apply_op (op : WriterOp) (this : CloudStorageWritableFile)
  : Eff CloudStorageWritableFile :=
  match op with
  | OpAppend inj data => Append inj data this ;;; ret this
  | OpSync inj => r <- Sync inj this ;; ret (snd r)
  | OpClose inj => r <- Close inj this ;; ret (snd r)
  end.

(** The writer and the world after each operation, in order.  Each operation
    changes the local filesystem at most once (one append, or the one rename
    of [Sync]), so these are all the states a process killed at any point
    can leave behind. *)
Fixpoint lifecycle (ops : list WriterOp) (this : CloudStorageWritableFile)
    (w : World) : list (CloudStorageWritableFile * World) :=
  match ops with
  | [] => []
  | op :: ops' =>
      let (this', w') := apply_op op this w in
      (this', w') :: lifecycle ops' this' w'
  end.

(** The writer and the world once all of [ops] have run. *)
Fixpoint run_ops (ops : list WriterOp) (this : CloudStorageWritableFile)
    (w : World) : CloudStorageWritableFile * World :=
  match ops with
  | [] => (this, w)
  | op :: ops' =>
      let (this', w') := apply_op op this w in
      run_ops ops' this' w'
  end.

(** The calls that rename a local file. *)
Definition is_rename (e : Event) : bool :=
  match e with EvRenameFile _ _ => true | _ => false end.

(** The renames among the calls recorded. *)
Definition renames (t : list Event) : list Event := List.filter is_rename t.

(** ** Vocabulary of the statements *)

(** [keystr.find(prefix) == 0] *)
Definition starts_with (prefix keystr : string) : bool :=
  match find keystr prefix with Some O => true | _ => false end.

(** [keystr.substr(prefix.size())] *)
Definition strip (prefix keystr : string) : string :=
  substr keystr (String.length prefix).

(** The keys of the pages the listing requests among [evs] brought back, in
    order. *)
Definition fetched_keys (s3client : AwsS3ClientWrapper) (evs : list Event)
  : list string :=
  concat (map (fun e =>
                 match e with
                 | EvS3ListObjects request =>
                     match s3_ListObjects s3client request with
                     | ListSuccess res => GetContents res
                     | ListFailure _ => []
                     end
                 | _ => []
                 end) evs).

(** *** States of a manifest rewrite

    The live manifest [fname] held [A] when the writer was opened and [t0]
    was the record of calls then. *)

(** While content is being written: the live manifest holds [A], nothing has
    been renamed, and a writer that has its handle writes to the side file,
    which holds [acc]. *)
Definition staged (fname : string) (A acc : list byte) (t0 : list Event)
    (this : CloudStorageWritableFile) (w : World) : Prop :=
  exists iA,
    dir (fs w) !! fname = Some iA /\
    inodes (fs w) !! iA = Some A /\
    renames (trace w) = renames t0 /\
    match local_file_ this with
    | Some h =>
        h <> iA /\
        tmp_file_ this = fname +:+ ".tmp" /\
        dir (fs w) !! (fname +:+ ".tmp") = Some h /\
        inodes (fs w) !! h = Some acc
    | None => tmp_file_ this = "" \/ tmp_file_ this = fname +:+ ".tmp"
    end.

(** After the writes: the live manifest still holds [A]; either the rename is
    still to come and the side file holds [B], or the one rename was tried
    and failed, or the writer never opened. *)
Definition kept (fname : string) (A B : list byte) (t0 : list Event)
    (this : CloudStorageWritableFile) (w : World) : Prop :=
  read_file (fs w) fname = Some A /\
  exists rs,
    renames (trace w) = renames t0 ++ rs /\
    ((tmp_file_ this = fname +:+ ".tmp" /\ rs = [] /\
      forall h, local_file_ this = Some h ->
                dir (fs w) !! (fname +:+ ".tmp") = Some h /\
                inodes (fs w) !! h = Some B) \/
     (tmp_file_ this = "" /\
      (rs = [] \/ rs = [EvRenameFile (fname +:+ ".tmp") fname]))).

(** After the rename: the live manifest holds [B]. *)
Definition swapped (fname : string) (B : list byte) (t0 : list Event)
    (this : CloudStorageWritableFile) (w : World) : Prop :=
  read_file (fs w) fname = Some B /\
  tmp_file_ this = "" /\
  renames (trace w) = renames t0 ++ [EvRenameFile (fname +:+ ".tmp") fname].

(** What a reader of the live manifest may find in world [w]: the old
    content [A], or the new content [B] once the one rename of the side file
    over [fname] is on record. *)
Definition old_or_new (fname : string) (A B : list byte) (t0 : list Event)
    (w : World) : Prop :=
  exists rs,
    renames (trace w) = renames t0 ++ rs /\
    ((read_file (fs w) fname = Some A /\
      (rs = [] \/ rs = [EvRenameFile (fname +:+ ".tmp") fname])) \/
     (read_file (fs w) fname = Some B /\
      rs = [EvRenameFile (fname +:+ ".tmp") fname])).

(** ** Inputs of the examples *)

(** A client wrapper without a transfer manager and without encryption,
    whose uploads all go through. *)
Definition plain_uploader : AwsS3Uploader :=
  mkUploader false (mkEncryption false "") (fun _ _ _ => None)
             (fun _ _ => None).

(** A client wrapper with a transfer manager, in front of a store that has
    the one bucket "bucket": an upload to any other bucket fails. *)
Definition transfer_uploader : AwsS3Uploader :=
  mkUploader true (mkEncryption false "")
    (fun fileName bucketName keyName =>
       if String.eqb bucketName "bucket" then None
       else Some (mkAWSError NO_SUCH_BUCKET
                             "The specified bucket does not exist"))
    (fun _ _ => None).

(** A local directory with one manifest, of two bytes. *)
Definition example_world : World :=
  mkWorld (mkFS {["MANIFEST-000001" := 0%nat]} {[0%nat := [x41; x41]]}) [].

(** The writer opened on it; [RemoveEpoch] is the identity and every name
    counts as a manifest. *)
Definition example_writer : CloudStorageWritableFile * World :=
  new_CloudStorageWritableFile (fun s => s) (fun _ => true) no_faults
    (mkCloudEnv false) "MANIFEST-000001" "bucket" "db/MANIFEST-000001"
    example_world.

(** The environment in which only the push to the bucket fails. *)
Definition upload_fails : Faults :=
  mkFaults OK OK OK OK OK OK OK OK (IOError "upload failed").

(** The environment in which only the size query fails, with [Err c m]. *)
Definition size_fails (c : Code) (m : string) : Faults :=
  mkFaults OK OK OK OK OK OK OK (Err c m) OK.

(** An object of five bytes behind a reader that knows its size. *)
Definition example_reader : S3ReadableFile :=
  mkReadable "bucket" "db/000007.sst" 0 5
             (object_client [x41; x42; x43; x44; x45]).

(** No local files and no calls on record. *)
Definition empty_world : World := mkWorld (mkFS ∅ ∅) [].

(** A store whose first page is truncated and whose second query finds
    nothing. *)
Definition second_page_missing : AwsS3ClientWrapper :=
  mkClient
    (fun _ => GetFailure (mkAWSError UNKNOWN "not an object"))
    (fun request =>
       if string_empty (list_Marker request)
       then ListSuccess (mkListRes ["db/000007.sst"] true "")
       else ListFailure (mkAWSError NO_SUCH_KEY "The specified key does not exist.")).

(** A store that answers with a key from outside the queried prefix. *)
Definition stray_key_client : AwsS3ClientWrapper :=
  mkClient
    (fun _ => GetFailure (mkAWSError UNKNOWN "not an object"))
    (fun _ => ListSuccess
                (mkListRes ["db/000007.sst"; "other/000008.sst"; "db/000009.sst"]
                           false "")).

(** A bucket of six keys, five of them under [db/], listed two to a page. *)
Definition example_keys : list string :=
  ["db/000001.sst"; "db/000002.sst"; "db/000003.sst"; "db/000004.sst";
   "db/MANIFEST-000001"; "dc/000001.sst"].

(** The second page comes with a next marker, the first without. *)
Definition example_bucket : AwsS3ClientWrapper :=
  paged_client example_keys (fun _ => 2%nat)
               (fun marker => String.eqb marker "db/000002.sst").

(** ** The rest of the S3 backend *)

(** The requests and outcomes of the wrapper's other calls. *)
Record HeadObjectRequest := mkHeadReq {
  head_Bucket : string;
  head_Key : string }.

(** What the code reads of a [HeadObjectResult]; the last-modified time is
    kept as its [Millis()]. *)
Record HeadObjectResult := mkHeadRes {
  GetMetadata : gmap string string;
  GetContentLength : Z;
  GetLastModifiedMillis : Z }.

Inductive HeadObjectOutcome :=
| HeadSuccess (res : HeadObjectResult)
| HeadFailure (error : AWSError).

(** The outcome of a call whose result the code does not read. *)
Inductive S3Outcome :=
| S3Success
| S3Failure (error : AWSError).

Record DeleteObjectRequest := mkDelReq {
  del_Bucket : string;
  del_Key : string }.

Record HeadBucketRequest := mkHeadBucketReq { hb_Bucket : string }.

(** [Aws::S3::Model::BucketLocationConstraint]: not set, or a region. *)
Inductive BucketLocationConstraint :=
| NOT_SET
| Location (region : string).

(** [create_Configuration] is the location constraint of the request's
    [CreateBucketConfiguration], when one was set. *)
Record CreateBucketRequest := mkCreateReq {
  create_Bucket : string;
  create_Configuration : option BucketLocationConstraint }.

Record CopyObjectRequest := mkCopyReq {
  copy_CopySource : string;
  copy_Bucket : string;
  copy_Key : string }.

(** Every call of the wrapper that the first part does not record. *)
Inductive S3Call :=
| CallHeadObject (request : HeadObjectRequest)
| CallDeleteObject (request : DeleteObjectRequest)
| CallHeadBucket (request : HeadBucketRequest)
| CallCreateBucket (request : CreateBucketRequest)
| CallCopyObject (request : CopyObjectRequest)
| CallPutObject (request : PutObjectRequest).

(** [AwsS3ClientWrapper], the other calls: the remote store answers each
    request. *)
Record AwsS3Service := mkService {
  s3_HeadObject : HeadObjectRequest -> HeadObjectOutcome;
  s3_DeleteObject : DeleteObjectRequest -> S3Outcome;
  s3_HeadBucket : HeadBucketRequest -> S3Outcome;
  s3_CreateBucket : CreateBucketRequest -> S3Outcome;
  s3_CopyObject : CopyObjectRequest -> S3Outcome;
  s3_PutObject : PutObjectRequest -> S3Outcome }.

(** The local filesystem and, in one sequence, the calls of both kinds. *)
Record Site := mkSite {
  site_fs : LocalFS;
  journal : list (Event + S3Call) }.

(** Code that makes calls of both kinds: a state monad over [Site]. *)
Definition Act (A : Type) : Type := Site -> A * Site.

Definition act_ret {A} (a : A) : Act A := fun s => (a, s).

Definition act_bind {A B} (m : Act A) (k : A -> Act B) : Act B :=
  fun s => let (a, s') := m s in k a s'.

Notation "x <~ m ;; k" := (act_bind m (fun x => k))
  (at level 100, m at next level, right associativity).
Notation "m ;;> k" := (act_bind m (fun _ => k))
  (at level 100, right associativity).

(** Code of the first part run here: what it appends to its record is
    appended to the journal. *)
Definition lift {A} (m : Eff A) : Act A :=
  fun s =>
    let (a, w) := m (mkWorld (site_fs s) []) in
    (a, mkSite (fs w) (journal s ++ map inl (trace w))).

Definition call (c : S3Call) : Act unit :=
  fun s => (tt, mkSite (site_fs s) (journal s ++ [inr c])).

(** [S3StorageProvider::CreateBucket] *)
Definition CreateBucket (service : AwsS3Service)
    (bucket_location_ : BucketLocationConstraint) (bucket : string)
  : Act Status :=
  (* specify region for the bucket *)
  let conf := match bucket_location_ with
              | NOT_SET => None
              | _ => Some bucket_location_
              end in
  (* create bucket *)
  let request := mkCreateReq bucket conf in
  call (CallCreateBucket request) ;;>
  match s3_CreateBucket service request with
  | S3Failure error =>
      match GetErrorType error with
      | BUCKET_ALREADY_EXISTS | BUCKET_ALREADY_OWNED_BY_YOU => act_ret OK
      | _ => act_ret (IOError2 bucket (GetMessage error))
      end
  | S3Success => act_ret OK
  end.

(** [S3StorageProvider::ExistsBucket] *)
Definition ExistsBucket (service : AwsS3Service) (bucket : string)
  : Act Status :=
  let request := mkHeadBucketReq bucket in
  call (CallHeadBucket request) ;;>
  match s3_HeadBucket service request with
  | S3Success => act_ret OK
  | S3Failure _ => act_ret (NotFound "")
  end.

(** The status [DeleteObject] makes of the store's answer. *)
Definition delete_status (service : AwsS3Service)
    (bucket_name object_path : string) : Status :=
  match s3_DeleteObject service (mkDelReq bucket_name object_path) with
  | S3Success => OK
  | S3Failure error =>
      if S3IsNotFound (GetErrorType error)
      then NotFound2 object_path (GetMessage error)
      else IOError2 object_path (GetMessage error)
  end.

(** [S3StorageProvider::DeleteObject] *)
Definition DeleteObject (service : AwsS3Service)
    (bucket_name object_path : string) : Act Status :=
  (* create request *)
  let request := mkDelReq bucket_name object_path in
  call (CallDeleteObject request) ;;>
  let st := delete_status service bucket_name object_path in
  lift (Log INFO_LEVEL) ;;>
  act_ret st.

(** The [for (auto path : results)] of [EmptyBucket]; [st] is the status so
    far. *)
Fixpoint delete_each (service : AwsS3Service) (bucket_name : string)
    (results : list string) (st : Status) : Act Status :=
  match results with
  | [] => act_ret st
  | path :: results' =>
      st <~ DeleteObject service bucket_name path ;;
      (if negb (ok st) then lift (Log ERROR_LEVEL) else act_ret tt) ;;>
      delete_each service bucket_name results' st
  end.

Section EmptyBucket.

Variable ltrim_if : string -> ascii -> string.
Variable ensure_ends_with_pathsep : string -> string.

(** [S3StorageProvider::EmptyBucket]; [None] when the listing did not
    return. *)
Definition EmptyBucket (fuel : nat) (s3client : AwsS3ClientWrapper)
    (service : AwsS3Service) (bucket_name object_path : string)
  : Act (option Status) :=
  (* Get all the objects in the  bucket *)
  run <~ lift (ListObjects ltrim_if ensure_ends_with_pathsep fuel s3client
                           bucket_name object_path []) ;;
  match run with
  | Finished st results =>
      if negb (ok st) then
        lift (Log ERROR_LEVEL) ;;>
        act_ret (Some st)
      else
        lift (Log DEBUG_LEVEL) ;;>
        (* Delete all objects from bucket *)
        st <~ delete_each service bucket_name results st ;;
        act_ret (Some st)
  | _ => act_ret None
  end.

End EmptyBucket.

(** [S3StorageProvider::HeadObject]: [metadata], [size] and [modtime] are
    the three out-parameters, [None] for a null pointer and else what the
    pointer points to; they come back as the call leaves them. *)
Definition HeadObject (service : AwsS3Service) (bucket_name object_path : string)
    (metadata : option (gmap string string)) (size modtime : option Z)
  : Act (Status * option (gmap string string) * option Z * option Z) :=
  let request := mkHeadReq bucket_name object_path in
  call (CallHeadObject request) ;;>
  match s3_HeadObject service request with
  | HeadFailure error =>
      if S3IsNotFound (GetErrorType error)
      then act_ret (NotFound2 object_path (GetMessage error),
                    metadata, size, modtime)
      else act_ret (IOError2 object_path (GetMessage error),
                    metadata, size, modtime)
  | HeadSuccess res =>
      act_ret (OK,
               match metadata with
               | Some _ => Some (GetMetadata res) | None => None end,
               match size with
               | Some _ => Some (wrap64 (GetContentLength res)) | None => None end,
               match modtime with
               | Some _ => Some (wrap64 (GetLastModifiedMillis res))
               | None => None end)
  end.

(** [S3StorageProvider::ExistsObject] *)
Definition ExistsObject (service : AwsS3Service)
    (bucket_name object_path : string) : Act Status :=
  r <~ HeadObject service bucket_name object_path None None None ;;
  act_ret (fst (fst (fst r))).

(** [S3StorageProvider::GetObjectSize]; [filesize] is what [*filesize] held
    before, and the second component what it holds after. *)
Definition GetObjectSize (service : AwsS3Service)
    (bucket_name object_path : string) (filesize : Z) : Act (Status * Z) :=
  r <~ HeadObject service bucket_name object_path None (Some filesize) None ;;
  act_ret (fst (fst (fst r)),
           match snd (fst r) with Some size => size | None => filesize end).

(** [S3StorageProvider::GetObjectModificationTime] *)
Definition GetObjectModificationTime (service : AwsS3Service)
    (bucket_name object_path : string) (time : Z) : Act (Status * Z) :=
  r <~ HeadObject service bucket_name object_path None None (Some time) ;;
  act_ret (fst (fst (fst r)),
           match snd r with Some t => t | None => time end).

(** [S3StorageProvider::GetObjectMetadata]: each entry fetched is stored
    into [result], over an entry of the same key. *)
Definition GetObjectMetadata (service : AwsS3Service)
    (bucket_name object_path : string) (result : gmap string string)
  : Act (Status * gmap string string) :=
  r <~ HeadObject service bucket_name object_path (Some ∅) None None ;;
  let st := fst (fst (fst r)) in
  let metadata := match snd (fst (fst r)) with Some m => m | None => ∅ end in
  if ok st then act_ret (st, metadata ∪ result)
  else act_ret (st, result).

(** [S3StorageProvider::PutObjectMetadata] *)
Definition PutObjectMetadata (service : AwsS3Service)
    (cloud_env_options : EncryptionOptions)
    (bucket_name object_path : string) (metadata : gmap string string)
  : Act Status :=
  let enc := SetEncryptionParameters cloud_env_options in
  let request := mkPutReq bucket_name object_path metadata (fst enc) (snd enc) in
  call (CallPutObject request) ;;>
  match s3_PutObject service request with
  | S3Failure error =>
      lift (Log ERROR_LEVEL) ;;>
      act_ret (IOError2 object_path (GetMessage error))
  | S3Success => act_ret OK
  end.

(** [S3StorageProvider::CopyObject]; the copy source is the source bucket
    with the source path right behind it, and both outcomes are logged at
    error level. *)
Definition CopyObject (service : AwsS3Service)
    (bucket_name_src object_path_src bucket_name_dest object_path_dest : string)
  : Act Status :=
  let src_url := bucket_name_src +:+ object_path_src in
  (* create copy request *)
  let request := mkCopyReq src_url bucket_name_dest object_path_dest in
  (* execute request *)
  call (CallCopyObject request) ;;>
  match s3_CopyObject service request with
  | S3Failure error =>
      lift (Log ERROR_LEVEL) ;;>
      act_ret (IOError2 object_path_dest (GetMessage error))
  | S3Success =>
      lift (Log ERROR_LEVEL) ;;>
      act_ret OK
  end.

(** [S3StorageProvider::DoNewCloudReadableFile]; the reader's constructor
    logs the opening. *)
Definition DoNewCloudReadableFile (s3client : AwsS3ClientWrapper)
    (bucket fname : string) (fsize : Z) : Act (Status * S3ReadableFile) :=
  lift (Log DEBUG_LEVEL) ;;>
  act_ret (OK, mkReadable bucket fname 0 fsize s3client).

(** [CloudStorageProvider::NewCloudReadableFile]; [size] is what the local
    variable of that name holds before it is set. *)
Definition NewCloudReadableFile (s3client : AwsS3ClientWrapper)
    (service : AwsS3Service) (bucket fname : string) (size : Z)
  : Act (Status * option S3ReadableFile) :=
  (* First, check if the file exists and also find its size. *)
  r <~ GetObjectSize service bucket fname size ;;
  let '(st, size) := r in
  if negb (ok st) then
    act_ret (st, None)
  else
    r <~ DoNewCloudReadableFile s3client bucket fname size ;;
    act_ret (fst r, Some (snd r)).

(** What [SanitizeOptions] reads of the [CloudEnv] and its options; the
    methods of [CloudEnv] are not part of these sources and enter as their
    values. *)
Record CloudEnvConfig := mkConfig {
  HasSrcBucket : bool;
  HasDestBucket : bool;
  SrcMatchesDest : bool;
  src_region : string;
  dest_region : string;
  GetDestBucketName : string;
  create_bucket_if_missing : bool }.

(** [CloudStorageProvider::SanitizeOptions]: [status_] before, and after;
    the call returns the status it leaves in [status_]. *)
Definition SanitizeOptions (service : AwsS3Service)
    (bucket_location_ : BucketLocationConstraint) (env : CloudEnvConfig)
    (status_ : Status) : Act Status :=
  if negb (ok status_) then
    act_ret status_
  else if HasDestBucket env then
    (* create dest bucket if specified *)
    st <~ ExistsBucket service (GetDestBucketName env) ;;
    status_ <~ (if ok st then
                  lift (Log INFO_LEVEL) ;;>
                  act_ret status_
                else if create_bucket_if_missing env then
                  lift (Log INFO_LEVEL) ;;>
                  CreateBucket service bucket_location_ (GetDestBucketName env)
                else
                  act_ret (NotFound
                    "Bucket not found and create_bucket_if_missing is false")) ;;
    if negb (ok status_) then
      lift (Log ERROR_LEVEL) ;;>
      act_ret status_
    else
      act_ret status_
  else
    act_ret status_.

(** [S3StorageProvider::SanitizeOptions].  [AwsCloudOptions::
    GetClientConfiguration], the credentials provider and the SDK's mapper
    from a region name to a location constraint are not part of these
    sources: their outcomes enter as [config_status], [config_region],
    [creds_status] and [location_for]. *)
Definition S3SanitizeOptions (service : AwsS3Service)
    (location_for : string -> BucketLocationConstraint)
    (config_status : Status) (config_region : string) (creds_status : Status)
    (env : CloudEnvConfig) (bucket_location_ : BucketLocationConstraint)
    (status_ : Status) : Act Status :=
  if negb (ok status_) then
    act_ret status_
  else if negb (SrcMatchesDest env) && HasSrcBucket env && HasDestBucket env
          && negb (String.eqb (src_region env) (dest_region env)) then
    lift (Log ERROR_LEVEL) ;;>
    act_ret (Err kInvalidArgument "Two different regions not supported")
  else
    let status_ := config_status in
    r <~ (if ok status_ then
            let status_ := creds_status in
            if negb (ok status_) then
              lift (Log INFO_LEVEL) ;;>
              act_ret (status_, bucket_location_)
            else
              (* Header(...), the log's header line, is not recorded *)
              act_ret (status_, location_for config_region)
          else act_ret (status_, bucket_location_)) ;;
    SanitizeOptions service (snd r) env (fst r).

(** A call a listing of [prefix] in [bucket_name] may make: a query for
    at most 50 keys of that bucket under that prefix, or an error log. *)
Definition listing_call (bucket_name prefix : string) (e : Event) : Prop :=
  match e with
  | EvS3ListObjects request =>
      list_Bucket request = bucket_name /\
      list_MaxKeys request = 50 /\
      list_Prefix request = prefix
  | EvLog ERROR_LEVEL => True
  | _ => False
  end.

(** ** A reader's sequential use *)

(** What the owner of a reader does with its cursor. *)
Inductive ReaderOp :=
| RdRead (n : Z)
| RdSkip (n : Z).

(** One sequential operation; the bytes and the status are dropped. *)
Definition apply_reader_op (op : ReaderOp) (this : S3ReadableFile)
  : Eff S3ReadableFile :=
  match op with
  | RdRead n => r <- ReadSeq this n ;; ret (snd r)
  | RdSkip n => r <- Skip this n ;; ret (snd r)
  end.

(** The reader and the world once all of [ops] have run. *)
Fixpoint run_reader (ops : list ReaderOp) (this : S3ReadableFile) (w : World)
  : S3ReadableFile * World :=
  match ops with
  | [] => (this, w)
  | op :: ops' =>
      let (this', w') := apply_reader_op op this w in
      run_reader ops' this' w'
  end.

(** The lengths with which the 64-bit addition on the cursor does not wrap:
    for a read any [size_t], since what it adds is the number of bytes
    returned; for a skip, which adds [n] itself, what is left from the known
    size up to 2^64 - 1. *)
Definition in_range (file_size : Z) (op : ReaderOp) : Prop :=
  match op with
  | RdRead n => 0 <= n < 2 ^ 64
  | RdSkip n => 0 <= n <= 2 ^ 64 - 1 - file_size
  end.

(** The cursor is within the file and the file's size is a content length. *)
Definition cursor_ok (this : S3ReadableFile) : Prop :=
  0 <= offset_ this <= file_size_ this /\ file_size_ this <= 2 ^ 63 - 1.

(** The status [DoCloudRead] makes of a failed GET. *)
Definition read_failure (fname : string) (error : AWSError) : Status :=
  if S3IsNotFound (GetErrorType error)
     || contains "Response code: 404" (GetMessage error)
  then NotFound2 fname (GetMessage error)
  else IOError2 fname (GetMessage error).

(** A store that has lost the object: every GET ends in a generic error
    whose text shows the HTTP status. *)
Definition gone_client : AwsS3ClientWrapper :=
  mkClient
    (fun _ => GetFailure
                (mkAWSError UNKNOWN "Unable to parse. Response code: 404"))
    (fun _ => ListFailure (mkAWSError UNKNOWN "not a listing")).

(** A store that answers every GET with eight bytes, whatever was asked. *)
Definition chatty_client : AwsS3ClientWrapper :=
  mkClient
    (fun _ => GetSuccess [x41; x42; x43; x44; x45; x46; x47; x48])
    (fun _ => ListFailure (mkAWSError UNKNOWN "not a listing")).

(** ** More states of a writer *)

(** What the [assert(status_.ok())] of [Close] and [Sync] expect: a writer
    that has its handle has had no failure. *)
Definition open_means_ok (this : CloudStorageWritableFile) : Prop :=
  forall h, local_file_ this = Some h -> status_ this = OK.

(** A writer that writes straight to its file [fname], which holds [acc]. *)
Definition direct (fname : string) (acc : list byte)
    (this : CloudStorageWritableFile) (w : World) : Prop :=
  tmp_file_ this = "" /\
  fname_ this = fname /\
  exists h,
    local_file_ this = Some h /\
    dir (fs w) !! fname = Some h /\
    inodes (fs w) !! h = Some acc.

(** A table file of three bytes with a writer about to close it. *)
Definition example_table_world : World :=
  mkWorld (mkFS {["000007.sst" := 0%nat]} {[0%nat := [x41; x42; x43]]}) [].

Definition example_table_writer (keep : bool) : CloudStorageWritableFile :=
  mkWritable (mkCloudEnv keep) "000007.sst" "" OK (Some 0%nat)
             "bucket" "db/000007.sst" false.

(** The environment in which only the close of the local file fails. *)
Definition close_fails : Faults :=
  mkFaults OK OK OK OK (IOError "close failed") OK OK OK OK.

(** A directory that already holds an older copy of a table file. *)
Definition example_download_world : World :=
  mkWorld (mkFS {["000009.sst" := 0%nat]} {[0%nat := [x4f; x4c; x44]]}) [].

(** A transfer that ends without error after writing two of three bytes. *)
Definition short_download : Download :=
  mkDownload None (Some [x41; x42]) 3.

(** A transfer that writes all three bytes. *)
Definition full_download : Download :=
  mkDownload None (Some [x41; x42; x43]) 3.

(** The calls of the second kind on a journal, in order. *)
Definition s3_calls (j : list (Event + S3Call)) : list S3Call :=
  omap (fun c => match c with inr x => Some x | inl _ => None end) j.

(** The answers of a store that refuses everything. *)
Definition no_service : AwsS3Service :=
  mkService (fun _ => HeadFailure (mkAWSError UNKNOWN "refused"))
            (fun _ => S3Failure (mkAWSError UNKNOWN "refused"))
            (fun _ => S3Failure (mkAWSError UNKNOWN "refused"))
            (fun _ => S3Failure (mkAWSError UNKNOWN "refused"))
            (fun _ => S3Failure (mkAWSError UNKNOWN "refused"))
            (fun _ => S3Failure (mkAWSError UNKNOWN "refused")).

(** A store in which the caller owns the buckets [owned]: probing one of
    them succeeds, and creating one of them again is answered with
    [BUCKET_ALREADY_OWNED_BY_YOU]. *)
Definition buckets_service (owned : gset string) : AwsS3Service :=
  mkService
    (s3_HeadObject no_service)
    (s3_DeleteObject no_service)
    (fun request =>
       if decide (hb_Bucket request ∈ owned) then S3Success
       else S3Failure (mkAWSError NO_SUCH_BUCKET "Not Found"))
    (fun request =>
       if decide (create_Bucket request ∈ owned)
       then S3Failure (mkAWSError BUCKET_ALREADY_OWNED_BY_YOU
                         "Your previous request to create the named bucket succeeded and you already own it.")
       else S3Success)
    (s3_CopyObject no_service)
    (s3_PutObject no_service).

(** A store that answers a HEAD on [bucket]/[key] with the size of [data],
    and no other. *)
Definition object_service (bucket key : string) (data : list byte)
  : AwsS3Service :=
  mkService
    (fun request =>
       if String.eqb (head_Bucket request) bucket
          && String.eqb (head_Key request) key
       then HeadSuccess (mkHeadRes ∅ (Z.of_nat (length data)) 0)
       else HeadFailure (mkAWSError NO_SUCH_KEY "Not Found"))
    (s3_DeleteObject no_service)
    (s3_HeadBucket no_service)
    (s3_CreateBucket no_service)
    (s3_CopyObject no_service)
    (s3_PutObject no_service).

(** A store in which the delete of [000002.sst] is denied and every other
    delete succeeds. *)
Definition one_delete_denied : AwsS3Service :=
  mkService
    (s3_HeadObject no_service)
    (fun request =>
       if String.eqb (del_Key request) "000002.sst"
       then S3Failure (mkAWSError ACCESS_DENIED "Access Denied")
       else S3Success)
    (s3_HeadBucket no_service)
    (s3_CreateBucket no_service)
    (s3_CopyObject no_service)
    (s3_PutObject no_service).

(** A store that has none of the objects asked about: every call on an
    object ends in [NO_SUCH_KEY]. *)
Definition missing_object_service : AwsS3Service :=
  mkService (fun _ => HeadFailure (mkAWSError NO_SUCH_KEY "Not Found"))
            (fun _ => S3Failure (mkAWSError NO_SUCH_KEY "Not Found"))
            (fun _ => S3Failure (mkAWSError NO_SUCH_BUCKET "Not Found"))
            (fun _ => S3Failure (mkAWSError UNKNOWN "refused"))
            (fun _ => S3Failure (mkAWSError NO_SUCH_KEY "Not Found"))
            (fun _ => S3Failure (mkAWSError NO_SUCH_KEY "Not Found")).

(** No local files and an empty journal. *)
Definition empty_site : Site := mkSite (mkFS ∅ ∅) [].

(** Two buckets in different regions, and one bucket to be created when
    missing. *)
Definition cross_region_env : CloudEnvConfig :=
  mkConfig true true false "us-west-2" "eu-west-1" "dest" true.

Definition create_if_missing_env : CloudEnvConfig :=
  mkConfig false true false "us-west-2" "us-west-2" "dest" true.

(** * Proofs *)

Ltac eff :=
  unfold bind, ret, emit, get_fs, put_fs, Log in *; simpl in *.

Ltac prims :=
  unfold FileExists, NewWritableFile, LocalAppend, LocalSync, LocalClose,
    RenameFile, DeleteFile, GetFileSize, CopyLocalFileToDest in *;
  eff.

(** ** PutObject *)

Section PutObjectProofs.

Context (provider : CloudStorageProvider).

(** C8. A local file whose measured size is 0 is rejected with an I/O
    error, and a failure to measure the size is returned as it is; in both
    cases the only calls made are the size query and a log line, whatever
    the backend, so nothing reaches the remote store.  The backend's upload
    [DoPutObject] runs exactly when the size was measured and is nonzero. *)
Theorem PutObject_rejects_zero_size
    (inj : Faults) (local_file bucket_name object_path : string) (w : World)
    (st : Status) (fsize : Z) (w1 : World)
    (Hsize : GetFileSize (inj_size inj) local_file w = ((st, fsize), w1)) :
  w1 = mkWorld (fs w) (trace w ++ [EvGetFileSize local_file]) /\
  (ok st = true -> fsize = 0 ->
     PutObject inj local_file bucket_name object_path w
     = (IOError (local_file +:+ " Zero size."),
        mkWorld (fs w)
          (trace w ++ [EvGetFileSize local_file; EvLog ERROR_LEVEL]))) /\
  (ok st = false ->
     PutObject inj local_file bucket_name object_path w
     = (st, mkWorld (fs w)
              (trace w ++ [EvGetFileSize local_file; EvLog ERROR_LEVEL]))) /\
  (ok st = true -> fsize <> 0 ->
     PutObject inj local_file bucket_name object_path w
     = DoPutObject local_file bucket_name object_path fsize w1).
Proof.
  assert (Hw1 : w1 = mkWorld (fs w) (trace w ++ [EvGetFileSize local_file])).
  { unfold GetFileSize in Hsize. eff.
    destruct (inj_size inj); [destruct (read_file _ _)|]; congruence. }
  split; [exact Hw1|].
  unfold PutObject, bind. rewrite Hsize. subst w1.
  repeat split; intros Hok.
  - intros ->. rewrite Hok. eff. by rewrite <- app_assoc.
  - rewrite Hok. eff. by rewrite <- app_assoc.
  - intros Hnz. rewrite Hok. simpl.
    destruct (Z.eqb_spec fsize 0); [contradiction | reflexivity].
Qed.

End PutObjectProofs.

(** An empty local file is offered for upload: the call fails on the size
    check and only the size query and the log line happen. *)
Lemma PutObject_rejects_zero_size_witness :
  let w := mkWorld (mkFS {["000007.sst" := 0%nat]} {[0%nat := []]}) [] in
  PutObject (H := S3StorageProvider (mkDownload None None 0) plain_uploader)
            no_faults "000007.sst" "bucket" "db/000007.sst" w
  = (IOError "000007.sst Zero size.",
     mkWorld (fs w) [EvGetFileSize "000007.sst"; EvLog ERROR_LEVEL]).
Proof.
  intros w.
  refine (proj1 (proj2 (PutObject_rejects_zero_size
            (S3StorageProvider (mkDownload None None 0) plain_uploader)
            no_faults "000007.sst" "bucket" "db/000007.sst" w OK 0
            (mkWorld (fs w) [EvGetFileSize "000007.sst"]) _)) _ _);
    reflexivity.
Defined.

(** ** Close and Sync of the writer *)

(** C10. On a writer whose local handle is gone, [Close] returns the stored
    status and does nothing else: the writer and the world (filesystem and
    the record of calls) are the same afterwards.  The destructor does not
    even call [Close] then. *)
Theorem Close_already_closed
    (inj : Faults) (this : CloudStorageWritableFile) (w : World)
    (Hclosed : local_file_ this = None) :
  Close inj this w = ((status_ this, this), w) /\
  destroy inj this w = (this, w).
Proof.
  unfold Close, destroy. rewrite Hclosed. split; reflexivity.
Qed.

(** The handle is released exactly when the local close succeeded, also when
    the push or the delete that follow fail. *)
Lemma Close_releases_handle inj this w handle :
  local_file_ this = Some handle ->
  local_file_ (snd (fst (Close inj this w)))
  = if ok (inj_close inj) then None else Some handle.
Proof.
  intros Hopen. unfold Close. rewrite Hopen. prims.
  destruct (inj_close inj); simpl; [|assumption].
  destruct (is_manifest_ this); simpl; [reflexivity|].
  destruct (inj_copy inj); simpl; [|reflexivity].
  destruct (keep_local_sst_files (env_ this)); simpl; [reflexivity|].
  destruct (inj_delete inj); simpl.
  - destruct (dir (fs w) !! fname_ this); reflexivity.
  - reflexivity.
Qed.

(** A table file is closed, the push to the bucket fails and [Close] reports
    it; a second [Close] reports the same status and leaves no trace. *)
Lemma Close_already_closed_witness :
  let inj := mkFaults OK OK OK OK OK OK OK OK (IOError "push failed") in
  let this := mkWritable (mkCloudEnv false) "000007.sst" "" OK (Some 0%nat)
                         "bucket" "db/000007.sst" false in
  let w := mkWorld (mkFS {["000007.sst" := 0%nat]} {[0%nat := [x41]]}) [] in
  let '((s1, this1), w1) := Close inj this w in
  s1 = IOError "push failed" /\
  Close no_faults this1 w1 = ((s1, this1), w1) /\
  destroy no_faults this1 w1 = (this1, w1).
Proof.
  intros inj this w.
  destruct (Close inj this w) as [[s1 this1] w1] eqn:E.
  assert (E' : s1 = IOError "push failed" /\ status_ this1 = s1 /\
               local_file_ this1 = None).
  { inversion E. subst. repeat split. }
  destruct E' as (Hs & Hst & Hnone).
  split; [exact Hs|].
  rewrite <- Hst.
  exact (Close_already_closed no_faults this1 w1 Hnone).
Defined.

(** When the local flush and, on the first [Sync], the rename succeed, the
    status [Sync] returns for a manifest is the status of the upload. *)
Lemma Sync_manifest_upload_status inj this w handle :
  is_manifest_ this = true ->
  local_file_ this = Some handle ->
  inj_sync inj = OK ->
  (string_empty (tmp_file_ this) = true \/
   (inj_rename inj = OK /\ file_present (fs w) (tmp_file_ this) = true)) ->
  exists w1,
    Sync inj this w = ((inj_copy inj, set_tmp_file "" this), w1) /\
    exists evs,
      trace w1 = trace w ++ evs ++
        [EvCopyLocalFileToDest (fname_ this) (cloud_fname_ this);
         EvLog (if ok (inj_copy inj) then DEBUG_LEVEL else ERROR_LEVEL)].
Proof.
  intros Hman Hopen Hsync Hren.
  unfold Sync. rewrite Hopen, Hsync. unfold LocalSync. eff.
  destruct (string_empty (tmp_file_ this)) eqn:Htmp; simpl.
  - rewrite Hman. simpl. unfold CopyLocalFileToDest. eff.
    assert (Hthis : set_tmp_file "" this = this).
    { destruct this as [? ? t ? ? ? ? ?]. simpl in *.
      destruct t; [reflexivity | discriminate]. }
    rewrite Hthis.
    destruct (inj_copy inj); simpl; eexists; (split; [reflexivity|]);
      exists [EvLocalSync handle]; simpl; by rewrite <- !app_assoc.
  - destruct Hren as [Hren | [Hren Hpres]]; [discriminate|].
    unfold RenameFile. eff. rewrite Hren.
    unfold file_present in Hpres.
    destruct (dir (fs w) !! tmp_file_ this) as [i|]; [|discriminate].
    simpl. rewrite Hman. simpl. unfold CopyLocalFileToDest. eff.
    destruct (inj_copy inj); simpl; eexists; (split; [reflexivity|]);
      exists [EvLocalSync handle; EvRenameFile (tmp_file_ this) (fname_ this)];
      simpl; by rewrite <- !app_assoc.
Qed.

(** C2, as the code has it.  For a manifest writer with an open handle, when
    the local flush succeeds and, on the first [Sync], the rename of the side
    file over the live manifest succeeds, [Sync] returns the status of the
    whole-object re-upload: success exactly when the upload succeeded.  A
    failed upload is logged at error level and its status is what [Sync]
    returns. *)
Theorem Sync_manifest_returns_upload_status
    (inj : Faults) (this : CloudStorageWritableFile) (w : World) (handle : nat)
    (Hman : is_manifest_ this = true)
    (Hopen : local_file_ this = Some handle)
    (Hflush : inj_sync inj = OK)
    (Hrename : string_empty (tmp_file_ this) = true \/
               (inj_rename inj = OK /\
                file_present (fs w) (tmp_file_ this) = true)) :
  fst (fst (Sync inj this w)) = inj_copy inj /\
  (ok (fst (fst (Sync inj this w))) = true <-> inj_copy inj = OK) /\
  last (trace (snd (Sync inj this w)))
  = Some (EvLog (if ok (inj_copy inj) then DEBUG_LEVEL else ERROR_LEVEL)).
Proof.
  destruct (Sync_manifest_upload_status inj this w handle Hman Hopen Hflush
              Hrename) as (w1 & HS & evs & Htr).
  rewrite HS. simpl. split; [reflexivity|]. split.
  - destruct (inj_copy inj); simpl; split; congruence.
  - rewrite Htr.
    change [EvCopyLocalFileToDest (fname_ this) (cloud_fname_ this);
            EvLog (if ok (inj_copy inj) then DEBUG_LEVEL else ERROR_LEVEL)]
      with ([EvCopyLocalFileToDest (fname_ this) (cloud_fname_ this)] ++
            [EvLog (if ok (inj_copy inj) then DEBUG_LEVEL else ERROR_LEVEL)]).
    rewrite !app_assoc. apply last_snoc.
Qed.

(** The first [Sync] of a rewritten manifest: flush and rename succeed, the
    upload fails, and [Sync] returns the upload's failure. *)
Lemma Sync_manifest_returns_upload_status_witness :
  let (this, w) := example_writer in
  fst (fst (Sync upload_fails this w)) = IOError "upload failed" /\
  last (trace (snd (Sync upload_fails this w))) = Some (EvLog ERROR_LEVEL).
Proof.
  destruct example_writer as [this w] eqn:E.
  assert (Hthis : this = fst example_writer) by (rewrite E; reflexivity).
  assert (Hw : w = snd example_writer) by (rewrite E; reflexivity).
  assert (H := Sync_manifest_returns_upload_status upload_fails this w
                 (fresh_inode (fs example_world))).
  destruct H as (H1 & _ & H3).
  - subst this. reflexivity.
  - subst this. reflexivity.
  - reflexivity.
  - right. split; [reflexivity|]. subst this w. vm_compute. reflexivity.
  - split; [exact H1 | exact H3].
Defined.

(** C2, counterexample.  The claim has [Sync] succeed whenever the local
    flush and the rename succeed.  Here both succeed (the live manifest now
    holds the new content) and the upload fails: [Sync] fails. *)
Lemma Sync_upload_failure_is_returned :
  let (this, w) := example_writer in
  let '((s, this'), w') :=
    (Append no_faults [x42] this ;;; Sync upload_fails this) w in
  inj_sync upload_fails = OK /\
  inj_rename upload_fails = OK /\
  read_file (fs w') "MANIFEST-000001" = Some [x42] /\
  ok s = false /\
  s = IOError "upload failed".
Proof. vm_compute. repeat split; reflexivity. Qed.

(** ** GetObject *)

Lemma dir_write_file fname content lfs :
  file_present (write_file fname content lfs) fname = true.
Proof.
  unfold file_present, write_file.
  destruct (dir lfs !! fname) eqn:E; simpl.
  - by rewrite E.
  - by rewrite lookup_insert_eq.
Qed.

Lemma read_file_write_file fname content lfs :
  read_file (write_file fname content lfs) fname = Some content.
Proof.
  unfold read_file, write_file.
  destruct (dir lfs !! fname) eqn:E; simpl.
  - rewrite E. by rewrite lookup_insert_eq.
  - rewrite lookup_insert_eq. by rewrite lookup_insert_eq.
Qed.

(** C3, the path that breaks it.  The download succeeds and leaves the
    staging file [local_destination.tmp]; measuring its size fails.
    [GetObject] returns that failure straight away: no delete is attempted
    and the staging file is still there. *)
Theorem GetObject_size_failure_keeps_staging_file
    (content : list byte) (remote_size : Z) (c : Code) (m : string)
    (up : AwsS3Uploader)
    (bucket_name object_path local_destination : string) (w : World) :
  let provider :=
    S3StorageProvider (mkDownload None (Some content) remote_size) up in
  let r := GetObject (H := provider) (size_fails c m)
                     bucket_name object_path local_destination w in
  fst r = Err c m /\
  file_present (fs (snd r)) (local_destination +:+ ".tmp") = true /\
  read_file (fs (snd r)) (local_destination +:+ ".tmp") = Some content /\
  trace (snd r)
  = trace w ++ [EvDoGetObject bucket_name object_path
                              (local_destination +:+ ".tmp");
                EvGetFileSize (local_destination +:+ ".tmp")].
Proof.
  unfold GetObject. simpl. unfold S3DoGetObject. prims.
  repeat split.
  - apply dir_write_file.
  - apply read_file_write_file.
  - by rewrite <- app_assoc.
Qed.

(** The two sibling failure paths do delete the staging file. *)
Lemma GetObject_download_failure_deletes
    (error : AWSError) (content : list byte) (remote_size : Z)
    (up : AwsS3Uploader)
    (bucket_name object_path local_destination : string) (w : World) :
  let provider :=
    S3StorageProvider (mkDownload (Some error) (Some content) remote_size) up in
  let r := GetObject (H := provider) no_faults
                     bucket_name object_path local_destination w in
  ok (fst r) = false /\
  file_present (fs (snd r)) (local_destination +:+ ".tmp") = false.
Proof.
  unfold GetObject. simpl. unfold S3DoGetObject. prims.
  assert (Hp := dir_write_file (local_destination +:+ ".tmp") content (fs w)).
  unfold file_present in *.
  destruct (S3IsNotFound (GetErrorType error)); simpl;
    destruct (dir (write_file _ content (fs w)) !! _) eqn:E;
    try discriminate; simpl; by rewrite lookup_delete_eq.
Qed.

Lemma GetObject_size_mismatch_deletes
    (content : list byte) (remote_size : Z) (up : AwsS3Uploader)
    (bucket_name object_path local_destination : string) (w : World) :
  Z.of_nat (length content) <> remote_size ->
  let provider :=
    S3StorageProvider (mkDownload None (Some content) remote_size) up in
  let r := GetObject (H := provider) no_faults
                     bucket_name object_path local_destination w in
  fst r = IOError ("Partial download of a file " +:+ local_destination) /\
  file_present (fs (snd r)) (local_destination +:+ ".tmp") = false.
Proof.
  intros Hne. unfold GetObject. simpl. unfold S3DoGetObject. prims.
  rewrite read_file_write_file. simpl.
  destruct (Z.eqb_spec (Z.of_nat (length content)) remote_size);
    [contradiction|]. simpl.
  assert (Hp := dir_write_file (local_destination +:+ ".tmp") content (fs w)).
  unfold file_present in *.
  destruct (dir (write_file _ content (fs w)) !! _) eqn:E;
    try discriminate; simpl. by rewrite lookup_delete_eq.
Qed.

(** When the sizes agree the staging file is renamed to its final name. *)
Lemma GetObject_size_match_renames
    (content : list byte) (up : AwsS3Uploader)
    (bucket_name object_path local_destination : string) (w : World) :
  let provider :=
    S3StorageProvider
      (mkDownload None (Some content) (Z.of_nat (length content))) up in
  let r := GetObject (H := provider) no_faults
                     bucket_name object_path local_destination w in
  fst r = OK /\
  read_file (fs (snd r)) local_destination = Some content.
Proof.
  unfold GetObject. simpl. unfold S3DoGetObject. prims.
  rewrite read_file_write_file. simpl. rewrite Z.eqb_refl. simpl.
  assert (Hr := read_file_write_file (local_destination +:+ ".tmp") content
                  (fs w)).
  unfold read_file in *.
  destruct (dir (write_file _ content (fs w)) !! _) eqn:E;
    try discriminate; simpl. split; [reflexivity|].
  by rewrite lookup_insert_eq.
Qed.

(** ** Reads *)

Lemma wrap64_small z : 0 <= z < 2 ^ 64 -> wrap64 z = z.
Proof. intros H. unfold wrap64. by apply Z.mod_small. Qed.

(** The length of a buffer is the count that [read] gets. *)
Lemma streamsize_small n : n <= 2 ^ 63 - 1 -> streamsize n = n.
Proof.
  intros H. unfold streamsize. destruct (Z.ltb_spec n (2 ^ 63)); lia.
Qed.

(** A count of 2^63 and more arrives below 0. *)
Lemma streamsize_large n : 2 ^ 63 <= n < 2 ^ 64 -> streamsize n < 0.
Proof.
  intros H. unfold streamsize. destruct (Z.ltb_spec n (2 ^ 63)); lia.
Qed.

Lemma snprintf_nonneg r : (Z.of_nat (String.length (range_header r)) <? 0) = false.
Proof. apply Z.ltb_ge. lia. Qed.

(** What [DoCloudRead] does for a request of [n] bytes: one GET, then the
    outcome is mapped. *)
Lemma DoCloudRead_unfold this offset n w :
  let rangeLen := if negb (n =? 0) then n else 1 in
  let request := mkGetReq (r_bucket_ this) (r_fname_ this)
                   (mkRange offset (wrap64 (offset + rangeLen - 1))) in
  exists lvl,
    snd (DoCloudRead this offset n w)
    = mkWorld (fs w) (trace w ++ [EvS3GetObject request; EvLog lvl]) /\
    forall body,
      s3_GetObject (s3client_ this) request = GetSuccess body ->
      fst (DoCloudRead this offset n w)
      = (OK, if negb (n =? 0) then take (Z.to_nat (streamsize n)) body
             else []).
Proof.
  intros rangeLen request. unfold DoCloudRead.
  rewrite snprintf_nonneg. fold rangeLen. fold request. eff.
  destruct (s3_GetObject (s3client_ this) request) as [body|error].
  - exists DEBUG_LEVEL. simpl. split; [by rewrite <- app_assoc|].
    intros body' [= <-]. reflexivity.
  - exists ERROR_LEVEL.
    destruct (S3IsNotFound (GetErrorType error)
              || contains "Response code: 404" (GetMessage error)); simpl;
      (split; [by rewrite <- app_assoc | intros body' [=]]).
Qed.

Lemma serve_range_tail data first :
  0 <= first < Z.of_nat (length data) ->
  serve_range data (mkRange first (Z.of_nat (length data) - 1))
  = GetSuccess (drop (Z.to_nat first) data).
Proof.
  intros H. unfold serve_range. simpl.
  destruct (Z.ltb_spec first (Z.of_nat (length data))); [|lia].
  destruct (Z.leb_spec first (Z.of_nat (length data) - 1)); [|lia].
  simpl. f_equal. apply take_ge. rewrite length_drop. lia.
Qed.

(** C6. With known size [S]: a read at [offset >= S] returns no bytes and
    success and makes no remote request.  A read at [offset < S] that asks
    for more than the [S - offset] bytes that remain issues a single GET for
    the range [offset .. S-1]; when the store serves that range of an object
    of [S] bytes, the read returns the [S - offset] bytes from [offset] on.
    The length is that of a buffer ([n <= PTRDIFF_MAX]) and the size a
    content length ([S <= INT64_MAX]), so [offset + n] does not wrap. *)
Theorem Read_trims_to_known_size
    (this : S3ReadableFile) (offset n : Z) (w : World)
    (Hoffset : 0 <= offset < 2 ^ 64)
    (Hn : 0 <= n <= 2 ^ 63 - 1)
    (Hsize : 0 <= file_size_ this <= 2 ^ 63 - 1) :
  (file_size_ this <= offset ->
     Read this offset n w
     = ((OK, []),
        mkWorld (fs w) (trace w ++ [EvLog DEBUG_LEVEL; EvLog DEBUG_LEVEL]))) /\
  (offset < file_size_ this -> file_size_ this < offset + n ->
     let request := mkGetReq (r_bucket_ this) (r_fname_ this)
                      (mkRange offset (file_size_ this - 1)) in
     List.filter is_remote (trace (snd (Read this offset n w)))
     = List.filter is_remote (trace w) ++ [EvS3GetObject request] /\
     forall data : list byte,
       Z.of_nat (length data) = file_size_ this ->
       s3_GetObject (s3client_ this) request
       = serve_range data (get_Range request) ->
       fst (Read this offset n w) = (OK, drop (Z.to_nat offset) data) /\
       Z.of_nat (length (drop (Z.to_nat offset) data))
       = file_size_ this - offset).
Proof.
  split.
  - intros Heof. unfold Read.
    destruct (Z.leb_spec (file_size_ this) offset); [|lia].
    eff. by rewrite <- app_assoc.
  - intros Hlt Hmore request.
    assert (Htrim : (file_size_ this <? wrap64 (offset + n)) = true).
    { rewrite wrap64_small by lia. apply Z.ltb_lt. lia. }
    assert (Hn' : wrap64 (file_size_ this - offset) = file_size_ this - offset)
      by (apply wrap64_small; lia).
    assert (Hnz : (file_size_ this - offset =? 0) = false)
      by (apply Z.eqb_neq; lia).
    assert (Hreq : mkGetReq (r_bucket_ this) (r_fname_ this)
              (mkRange offset
                 (wrap64 (offset + (file_size_ this - offset) - 1)))
              = request).
    { unfold request. do 2 f_equal. rewrite wrap64_small by lia. lia. }
    destruct (DoCloudRead_unfold this offset (file_size_ this - offset)
                (mkWorld (fs w)
                   (trace w ++ [EvLog DEBUG_LEVEL; EvLog DEBUG_LEVEL])))
      as (lvl & Hw & Hres).
    rewrite Hnz in Hw, Hres. simpl in Hw, Hres. rewrite Hreq in Hw, Hres.
    rewrite streamsize_small in Hres by lia.
    assert (HR : Read this offset n w
            = (let r := DoCloudRead this offset (file_size_ this - offset)
                          (mkWorld (fs w)
                             (trace w ++ [EvLog DEBUG_LEVEL; EvLog DEBUG_LEVEL]))
               in if ok (fst (fst r))
                  then (fst r, mkWorld (fs (snd r))
                                  (trace (snd r) ++ [EvLog DEBUG_LEVEL]))
                  else ((fst (fst r), []), snd r))).
    { unfold Read.
      destruct (Z.leb_spec (file_size_ this) offset); [lia|].
      rewrite Htrim, Hn'. eff. rewrite <- app_assoc. simpl.
      destruct (DoCloudRead _ _ _ _) as [[st scratch] w1]. simpl.
      destruct (ok st); reflexivity. }
    rewrite HR. clear HR. simpl.
    destruct (DoCloudRead _ _ _ _) as [[st scratch] w1]. simpl in *.
    subst w1. split.
    + destruct (ok st); simpl; rewrite ?List.filter_app; simpl;
        by rewrite ?app_nil_r.
    + intros data Hlen Hserve.
      assert (Htail : serve_range data (get_Range request)
                      = GetSuccess (drop (Z.to_nat offset) data)).
      { unfold request. simpl. rewrite <- Hlen.
        apply serve_range_tail. lia. }
      specialize (Hres _ (eq_trans Hserve Htail)).
      injection Hres as -> ->. simpl.
      split.
      * f_equal. f_equal. apply take_ge. rewrite length_drop. lia.
      * rewrite length_drop. lia.
Qed.

(** Past the end nothing is read; from offset 3 a request for 10 bytes
    returns the 2 that remain. *)
Lemma Read_trims_to_known_size_witness :
  fst (Read example_reader 7 10 empty_world) = (OK, []) /\
  fst (Read example_reader 3 10 empty_world) = (OK, [x44; x45]).
Proof.
  split.
  - destruct (Read_trims_to_known_size example_reader 7 10 empty_world)
      as [H _]; [lia | lia | simpl; lia |].
    rewrite H; [reflexivity | simpl; lia].
  - destruct (Read_trims_to_known_size example_reader 3 10 empty_world)
      as [_ H]; [lia | lia | simpl; lia |].
    destruct H as [_ H]; [simpl; lia | simpl; lia |].
    destruct (H [x41; x42; x43; x44; x45] eq_refl eq_refl) as [H' _].
    exact H'.
Defined.

(** C7. A read of length 0 at an offset below the known size issues exactly
    one GET, for the one-byte range [offset .. offset]; whatever body a
    successful GET carries is dropped, and the read returns no bytes and
    success. *)
Theorem Read_zero_length_asks_one_byte
    (this : S3ReadableFile) (offset : Z) (w : World)
    (Hoffset : 0 <= offset < file_size_ this)
    (Hsize : file_size_ this < 2 ^ 64) :
  let request := mkGetReq (r_bucket_ this) (r_fname_ this)
                   (mkRange offset offset) in
  List.filter is_remote (trace (snd (Read this offset 0 w)))
  = List.filter is_remote (trace w) ++ [EvS3GetObject request] /\
  range_last (get_Range request) - range_first (get_Range request) + 1 = 1 /\
  forall body : list byte,
    s3_GetObject (s3client_ this) request = GetSuccess body ->
    fst (Read this offset 0 w) = (OK, []).
Proof.
  intros request.
  assert (Hreq : mkGetReq (r_bucket_ this) (r_fname_ this)
            (mkRange offset (wrap64 (offset + 1 - 1))) = request).
  { unfold request. do 2 f_equal. rewrite wrap64_small by lia. lia. }
  destruct (DoCloudRead_unfold this offset 0
              (mkWorld (fs w) (trace w ++ [EvLog DEBUG_LEVEL])))
    as (lvl & Hw & Hres).
  simpl in Hw, Hres. rewrite Hreq in Hw, Hres.
  assert (HR : Read this offset 0 w
          = (let r := DoCloudRead this offset 0
                        (mkWorld (fs w) (trace w ++ [EvLog DEBUG_LEVEL]))
             in if ok (fst (fst r))
                then (fst r, mkWorld (fs (snd r))
                                (trace (snd r) ++ [EvLog DEBUG_LEVEL]))
                else ((fst (fst r), []), snd r))).
  { unfold Read.
    destruct (Z.leb_spec (file_size_ this) offset); [lia|].
    assert (Htrim : (file_size_ this <? wrap64 (offset + 0)) = false).
    { rewrite wrap64_small by lia. apply Z.ltb_ge. lia. }
    rewrite Htrim. eff.
    destruct (DoCloudRead _ _ _ _) as [[st scratch] w1]. simpl.
    destruct (ok st); reflexivity. }
  rewrite HR. clear HR. simpl.
  destruct (DoCloudRead _ _ _ _) as [[st scratch] w1]. simpl in *.
  subst w1. repeat split.
  - destruct (ok st); simpl; rewrite ?List.filter_app; simpl;
      by rewrite ?app_nil_r.
  - lia.
  - intros body Hget. specialize (Hres _ Hget). injection Hres as -> ->.
    reflexivity.
Qed.

(** A read of no bytes at offset 3 of the five-byte object. *)
Lemma Read_zero_length_asks_one_byte_witness :
  List.filter is_remote (trace (snd (Read example_reader 3 0 empty_world)))
  = [EvS3GetObject (mkGetReq "bucket" "db/000007.sst" (mkRange 3 3))] /\
  fst (Read example_reader 3 0 empty_world) = (OK, []).
Proof.
  destruct (Read_zero_length_asks_one_byte example_reader 3 empty_world)
    as (H1 & _ & H2); [simpl; lia | simpl; lia |].
  split; [exact H1 | exact (H2 [x44] eq_refl)].
Defined.

(** ** ListObjects *)

Lemma starts_with_prefix prefix keystr :
  starts_with prefix keystr = String.prefix prefix keystr.
Proof.
  unfold starts_with, find.
  destruct keystr as [|a keystr].
  - destruct prefix; reflexivity.
  - change (String.index 0 prefix (String a keystr))
      with (if String.prefix prefix (String a keystr) then Some 0%nat
            else match String.index 0 prefix keystr with
                 | Some n => Some (S n)
                 | None => None
                 end).
    destruct (String.prefix prefix (String a keystr)); [reflexivity|].
    destruct (String.index 0 prefix keystr); reflexivity.
Qed.

Lemma push_keys_app prefix objs1 objs2 result :
  push_keys prefix (objs1 ++ objs2) result
  = match push_keys prefix objs1 result with
    | (OK, result') => push_keys prefix objs2 result'
    | failed => failed
    end.
Proof.
  revert result. induction objs1 as [|k objs1 IH]; intros result; simpl.
  - reflexivity.
  - destruct (find k prefix) as [[|n]|]; [apply IH | reflexivity..].
Qed.

(** [push_keys] pushes the suffixes of the keys up to the first one that does
    not start with the prefix, and fails there. *)
Lemma push_keys_spec prefix objs result :
  (Forall (fun k => starts_with prefix k = true) objs /\
   push_keys prefix objs result = (OK, result ++ map (strip prefix) objs)) \/
  (exists good bad rest,
     objs = good ++ bad :: rest /\
     Forall (fun k => starts_with prefix k = true) good /\
     starts_with prefix bad = false /\
     push_keys prefix objs result
     = (IOError ("Unexpected result from AWS S3: " +:+ bad),
        result ++ map (strip prefix) good)).
Proof.
  revert result. induction objs as [|k objs IH]; intros result.
  - left. split; [constructor | simpl; by rewrite app_nil_r].
  - destruct (starts_with prefix k) eqn:Hk.
    + assert (Hstep : push_keys prefix (k :: objs) result
                = push_keys prefix objs (result ++ [strip prefix k])).
      { simpl. unfold starts_with in Hk.
        destruct (find k prefix) as [[|n]|]; [reflexivity | discriminate..]. }
      rewrite Hstep.
      destruct (IH (result ++ [strip prefix k]))
        as [[Hall Heq] | (good & bad & rest & -> & Hgood & Hbad & Heq)].
      * left. split; [by constructor|].
        rewrite Heq. simpl. by rewrite <- app_assoc.
      * right. exists (k :: good), bad, rest.
        repeat split; [by constructor | assumption |].
        rewrite Heq. simpl. by rewrite <- app_assoc.
    + right. exists [], k, objs. repeat split; [constructor | assumption |].
      simpl. unfold starts_with in Hk. rewrite app_nil_r.
      destruct (find k prefix) as [[|n]|]; [discriminate | reflexivity..].
Qed.

Lemma fetched_keys_app s3client evs1 evs2 :
  fetched_keys s3client (evs1 ++ evs2)
  = fetched_keys s3client evs1 ++ fetched_keys s3client evs2.
Proof. unfold fetched_keys. by rewrite map_app, concat_app. Qed.

(** The listing loop, whatever the store answers: the calls it makes are
    appended to the record; a query that fails ends it with the status built
    from that failure; and a key that fails the prefix check ends it with the
    status and the result [push_keys] gives on all the keys fetched. *)
Lemma ListObjects_loop_spec s3client bucket_name object_path prefix fuel :
  forall marker result w,
  exists evs,
    snd (ListObjects_loop fuel s3client bucket_name object_path prefix
                          marker result w)
    = mkWorld (fs w) (trace w ++ evs) /\
    (forall request error,
       EvS3ListObjects request ∈ evs ->
       s3_ListObjects s3client request = ListFailure error ->
       exists result',
         fst (ListObjects_loop fuel s3client bucket_name object_path prefix
                               marker result w)
         = Finished (if S3IsNotFound (GetErrorType error)
                     then NotFound2 object_path (GetMessage error)
                     else IOError2 object_path (GetMessage error)) result') /\
    (forall c m result',
       push_keys prefix (fetched_keys s3client evs) result = (Err c m, result') ->
       fst (ListObjects_loop fuel s3client bucket_name object_path prefix
                             marker result w)
       = Finished (Err c m) result').
Proof.
  induction fuel as [|fuel IH]; intros marker result w.
  - exists []. simpl. rewrite app_nil_r. split; [by destruct w|].
    split; [intros ? ? Hin; by apply elem_of_nil in Hin | intros ? ? ? [=]].
  - set (request := mkListReq bucket_name 50 prefix marker).
    set (w1 := mkWorld (fs w) (trace w ++ [EvS3ListObjects request])).
    simpl. fold request. eff. fold w1.
    destruct (s3_ListObjects s3client request) as [res|error] eqn:Hq.
    + destruct (push_keys prefix (GetContents res) result)
        as [[|c m] result1] eqn:Hpush.
      * destruct (GetIsTruncated res); simpl.
        -- assert (Hrec : forall marker',
              exists evs,
                snd (ListObjects_loop fuel s3client bucket_name object_path
                       prefix marker' result1 w1)
                = mkWorld (fs w) (trace w ++ evs) /\
                (forall request0 error,
                   EvS3ListObjects request0 ∈ evs ->
                   s3_ListObjects s3client request0 = ListFailure error ->
                   exists result',
                     fst (ListObjects_loop fuel s3client bucket_name
                            object_path prefix marker' result1 w1)
                     = Finished (if S3IsNotFound (GetErrorType error)
                                 then NotFound2 object_path (GetMessage error)
                                 else IOError2 object_path (GetMessage error))
                                result') /\
                (forall c m result',
                   push_keys prefix (fetched_keys s3client evs) result
                   = (Err c m, result') ->
                   fst (ListObjects_loop fuel s3client bucket_name
                          object_path prefix marker' result1 w1)
                   = Finished (Err c m) result')).
           { intros marker'.
             destruct (IH marker' result1 w1) as (evs & Hw & Hfail & Hkey).
             exists (EvS3ListObjects request :: evs).
             split; [rewrite Hw; unfold w1; simpl; by rewrite <- app_assoc|].
             split.
             - intros r e Hin Hr. apply elem_of_cons in Hin as [Heq | Hin].
               + injection Heq as ->. congruence.
               + exact (Hfail r e Hin Hr).
             - intros c m result' Hp. apply Hkey.
               change (EvS3ListObjects request :: evs)
                 with ([EvS3ListObjects request] ++ evs) in Hp.
               rewrite fetched_keys_app, push_keys_app in Hp.
               unfold fetched_keys in Hp at 1. simpl in Hp.
               rewrite Hq, app_nil_r, Hpush in Hp. exact Hp. }
           destruct (string_empty (GetNextMarker res)).
           ++ destruct (last (GetContents res)) as [key|].
              ** apply Hrec.
              ** exists [EvS3ListObjects request]. simpl.
                 split; [reflexivity|]. split.
                 --- intros r e Hin Hr.
                     apply list_elem_of_singleton in Hin.
                     injection Hin as ->. congruence.
                 --- intros c m result'. unfold fetched_keys. simpl.
                     rewrite Hq, app_nil_r, Hpush. intros [=].
           ++ apply Hrec.
        -- exists [EvS3ListObjects request]. simpl.
           split; [reflexivity|]. split.
           ++ intros r e Hin Hr. apply list_elem_of_singleton in Hin.
              injection Hin as ->. congruence.
           ++ intros c m result'. unfold fetched_keys. simpl.
              rewrite Hq, app_nil_r, Hpush. intros [=].
      * exists [EvS3ListObjects request]. simpl.
        split; [reflexivity|]. split.
        -- intros r e Hin Hr. apply list_elem_of_singleton in Hin.
           injection Hin as ->. congruence.
        -- intros c' m' result'. unfold fetched_keys. simpl.
           rewrite Hq, app_nil_r, Hpush. by intros [= -> -> ->].
    + destruct (S3IsNotFound (GetErrorType error)) eqn:Hnf; simpl.
      * exists [EvS3ListObjects request; EvLog ERROR_LEVEL]. simpl.
        split; [by rewrite <- app_assoc|]. split.
        -- intros r e Hin Hr. apply elem_of_cons in Hin as [Heq | Hin].
           ++ injection Heq as ->. rewrite Hq in Hr. injection Hr as <-.
              rewrite Hnf. by eexists.
           ++ apply list_elem_of_singleton in Hin. discriminate.
        -- intros c m result'. unfold fetched_keys. simpl.
           rewrite Hq. simpl. intros [=].
      * exists [EvS3ListObjects request]. simpl.
        split; [reflexivity|]. split.
        -- intros r e Hin Hr. apply list_elem_of_singleton in Hin.
           injection Hin as ->. rewrite Hq in Hr. injection Hr as <-.
           rewrite Hnf. by eexists.
        -- intros c m result'. unfold fetched_keys. simpl.
           rewrite Hq. simpl. intros [=].
Qed.

Section ListObjectsProofs.

Variable ltrim_if : string -> ascii -> string.
Variable ensure_ends_with_pathsep : string -> string.

(** C4, as the code has it.  Whichever page a query of the listing fails
    on, the first or a later one, [ListObjects] ends there: with a not-found
    status when the store's error is one of the not-found kinds, and with
    an I/O error otherwise. *)
Theorem ListObjects_query_failure_status
    (fuel : nat) (s3client : AwsS3ClientWrapper)
    (bucket_name object_path : string) (result : list string) (w : World) :
  let run := ListObjects ltrim_if ensure_ends_with_pathsep fuel s3client
                         bucket_name object_path result w in
  exists evs,
    snd run = mkWorld (fs w) (trace w ++ evs) /\
    forall request error,
      EvS3ListObjects request ∈ evs ->
      s3_ListObjects s3client request = ListFailure error ->
      exists result',
        fst run
        = Finished (if S3IsNotFound (GetErrorType error)
                    then NotFound2 object_path (GetMessage error)
                    else IOError2 object_path (GetMessage error)) result'.
Proof.
  intros run. unfold run, ListObjects.
  destruct (ListObjects_loop_spec s3client bucket_name object_path
              (normalized_prefix ltrim_if ensure_ends_with_pathsep object_path)
              fuel "" result w) as (evs & Hw & Hfail & _).
  exists evs. split; [exact Hw | exact Hfail].
Qed.

(** C9. If any key on any page the listing fetched does not start with the
    normalized prefix, [ListObjects] returns the I/O error that names the
    first such key; what it pushed onto the result are the suffixes of the
    keys before that one, which all start with the prefix. *)
Theorem ListObjects_stray_key_is_IOError
    (fuel : nat) (s3client : AwsS3ClientWrapper)
    (bucket_name object_path : string) (result : list string) (w : World) :
  let prefix := normalized_prefix ltrim_if ensure_ends_with_pathsep
                                  object_path in
  let run := ListObjects ltrim_if ensure_ends_with_pathsep fuel s3client
                         bucket_name object_path result w in
  exists evs,
    snd run = mkWorld (fs w) (trace w ++ evs) /\
    forall key,
      key ∈ fetched_keys s3client evs ->
      starts_with prefix key = false ->
      exists good bad rest,
        fetched_keys s3client evs = good ++ bad :: rest /\
        Forall (fun k => starts_with prefix k = true) good /\
        starts_with prefix bad = false /\
        fst run
        = Finished (IOError ("Unexpected result from AWS S3: " +:+ bad))
                   (result ++ map (strip prefix) good).
Proof.
  intros prefix run. unfold run, ListObjects. fold prefix.
  destruct (ListObjects_loop_spec s3client bucket_name object_path prefix
              fuel "" result w) as (evs & Hw & _ & Hkey).
  exists evs. split; [exact Hw|].
  intros key Hin Hstray.
  destruct (push_keys_spec prefix (fetched_keys s3client evs) result)
    as [[Hall _] | (good & bad & rest & Hsplit & Hgood & Hbad & Hpush)].
  - rewrite Forall_forall in Hall. specialize (Hall key Hin). congruence.
  - exists good, bad, rest. repeat split; try assumption.
    by apply Hkey.
Qed.

End ListObjectsProofs.

(** The second page of the listing of [/db] is not found. *)
Lemma ListObjects_query_failure_status_witness :
  exists result',
    fst (ListObjects spec_ltrim_if spec_ensure_ends_with_pathsep 5
           second_page_missing "bucket" "/db" [] empty_world)
    = Finished (NotFound2 "/db" "The specified key does not exist.") result'.
Proof.
  destruct (ListObjects_query_failure_status spec_ltrim_if
              spec_ensure_ends_with_pathsep 5 second_page_missing
              "bucket" "/db" [] empty_world) as (evs & Hw & H).
  apply (H (mkListReq "bucket" 50 "db/" "db/000007.sst")
           (mkAWSError NO_SUCH_KEY "The specified key does not exist.")).
  - assert (Hevs : evs = [EvS3ListObjects (mkListReq "bucket" 50 "db/" "");
                          EvS3ListObjects
                            (mkListReq "bucket" 50 "db/" "db/000007.sst");
                          EvLog ERROR_LEVEL]).
    { apply (f_equal trace) in Hw. vm_compute in Hw. exact (eq_sym Hw). }
    rewrite Hevs. apply list_elem_of_further, list_elem_of_here.
  - reflexivity.
Defined.

(** C4, counterexample.  The claim has every failure after the first page
    returned as a generic I/O failure.  Here the first page is served and
    truncated and the second query fails with [NO_SUCH_KEY]: the status is
    not-found, not an I/O error. *)
Lemma ListObjects_later_page_not_found :
  let run := ListObjects spec_ltrim_if spec_ensure_ends_with_pathsep 5
               second_page_missing "bucket" "/db" [] empty_world in
  List.filter is_remote (trace (snd run))
  = [EvS3ListObjects (mkListReq "bucket" 50 "db/" "");
     EvS3ListObjects (mkListReq "bucket" 50 "db/" "db/000007.sst")] /\
  fst run = Finished (NotFound2 "/db" "The specified key does not exist.")
                     ["000007.sst"] /\
  IsIOError (NotFound2 "/db" "The specified key does not exist.") = false.
Proof. vm_compute. repeat split; reflexivity. Qed.

(** A page carries a key from another directory: the listing fails on it
    after pushing the one key before it. *)
Lemma ListObjects_stray_key_is_IOError_witness :
  exists good bad,
    starts_with "db/" bad = false /\
    Forall (fun k => starts_with "db/" k = true) good /\
    fst (ListObjects spec_ltrim_if spec_ensure_ends_with_pathsep 5
           stray_key_client "bucket" "/db" [] empty_world)
    = Finished (IOError ("Unexpected result from AWS S3: " +:+ bad))
               (map (strip "db/") good).
Proof.
  destruct (ListObjects_stray_key_is_IOError spec_ltrim_if
              spec_ensure_ends_with_pathsep 5 stray_key_client
              "bucket" "/db" [] empty_world) as (evs & Hw & H).
  assert (Hevs : evs = [EvS3ListObjects (mkListReq "bucket" 50 "db/" "")]).
  { apply (f_equal trace) in Hw. vm_compute in Hw. exact (eq_sym Hw). }
  subst evs.
  destruct (H "other/000008.sst")
    as (good & bad & rest & Hsplit & Hgood & Hbad & Hrun).
  - vm_compute. apply list_elem_of_further, list_elem_of_here.
  - reflexivity.
  - exists good, bad. repeat split; assumption.
Defined.

(** *** Completeness of the listing over a paging store *)

Lemma compare_refl s : String.compare s s = Eq.
Proof.
  assert (H := String.compare_antisym s s).
  destruct (String.compare s s); simpl in H; congruence.
Qed.

Lemma ltb_irrefl s : String.ltb s s = false.
Proof. unfold String.ltb. by rewrite compare_refl. Qed.

Lemma ltb_asym a b : String.ltb a b = true -> String.ltb b a = false.
Proof.
  unfold String.ltb. rewrite (String.compare_antisym a b).
  destruct (String.compare b a); simpl; congruence.
Qed.

Lemma StronglySorted_filter {A} (R : A -> A -> Prop) f l :
  StronglySorted R l -> StronglySorted R (List.filter f l).
Proof.
  induction 1 as [|x l Hl IH Hx]; simpl; [constructor|].
  destruct (f x); [|assumption].
  constructor; [assumption|].
  rewrite List.Forall_forall in *. intros y Hy.
  apply Hx. by apply List.filter_In in Hy as [Hy _].
Qed.

Lemma StronglySorted_middle {A} (R : A -> A -> Prop) l1 m l2 :
  StronglySorted R (l1 ++ m :: l2) ->
  Forall (fun x => R x m) l1 /\ Forall (R m) l2.
Proof.
  induction l1 as [|x l1 IH]; simpl; intros H.
  - apply StronglySorted_inv in H as [_ H]. split; [constructor | assumption].
  - apply StronglySorted_inv in H as [Hs Hx].
    destruct (IH Hs) as [H1 H2]. split; [|assumption].
    constructor; [|assumption].
    rewrite Forall_forall in Hx. apply Hx.
    apply elem_of_app. right. apply list_elem_of_here.
Qed.

(** In a strictly increasing list, the keys greater than [m] are those that
    come after it. *)
Lemma filter_after_middle l1 m l2 :
  StronglySorted key_lt (l1 ++ m :: l2) ->
  List.filter (fun k => String.ltb m k) (l1 ++ m :: l2) = l2.
Proof.
  intros H. apply StronglySorted_middle in H as [H1 H2].
  rewrite List.filter_app. simpl. rewrite ltb_irrefl.
  assert (E1 : List.filter (fun k => String.ltb m k) l1 = []).
  { clear H2. induction H1 as [|x l1 Hx _ IH]; simpl; [reflexivity|].
    by rewrite (ltb_asym _ _ Hx). }
  assert (E2 : List.filter (fun k => String.ltb m k) l2 = l2).
  { clear H1 E1. induction H2 as [|x l2 Hx _ IH]; simpl; [reflexivity|].
    unfold key_lt in Hx. rewrite Hx. by rewrite IH. }
  by rewrite E1, E2.
Qed.

Lemma keys_after_last (done rest : list string) (k : nat) m :
  StronglySorted key_lt (done ++ rest) ->
  Forall (fun key => key <> "") (done ++ rest) ->
  last (take k rest) = Some m ->
  keys_after m (done ++ rest) = drop k rest.
Proof.
  intros Hs Hne Hlast.
  apply last_Some in Hlast as [init Hinit].
  assert (Hrest : rest = init ++ m :: drop k rest).
  { rewrite <- (take_drop k rest) at 1. rewrite Hinit.
    by rewrite <- app_assoc. }
  assert (Hm : m <> "").
  { rewrite Forall_forall in Hne. apply Hne. rewrite Hrest.
    apply elem_of_app. right. apply elem_of_app. right.
    apply list_elem_of_here. }
  unfold keys_after. destruct m as [|a m]; [done|]. simpl.
  rewrite Hrest, app_assoc in Hs |- *.
  rewrite filter_after_middle by assumption.
  rewrite <- Hrest. reflexivity.
Qed.

Section ListingCompleteness.

Variable keys : list string.
Variable page_size : string -> nat.
Variable sends_marker : string -> bool.
Variables bucket_name object_path prefix : string.

Hypothesis keys_sorted : StronglySorted key_lt keys.
Hypothesis keys_nonempty : Forall (fun key => key <> "") keys.
Hypothesis pages_nonempty : forall marker, (1 <= page_size marker)%nat.

Let under := List.filter (String.prefix prefix) keys.
Let s3client := paged_client keys page_size sends_marker.

Lemma under_sorted : StronglySorted key_lt under.
Proof. by apply StronglySorted_filter. Qed.

Lemma under_nonempty : Forall (fun key => key <> "") under.
Proof.
  rewrite Forall_forall in *. intros key Hin. apply keys_nonempty.
  apply list_elem_of_In in Hin. apply List.filter_In in Hin as [Hin _].
  by apply list_elem_of_In.
Qed.

Lemma under_start : Forall (fun key => starts_with prefix key = true) under.
Proof.
  rewrite Forall_forall. intros key Hin. rewrite starts_with_prefix.
  apply list_elem_of_In in Hin. by apply List.filter_In in Hin as [_ Hin].
Qed.

Lemma push_keys_under page result :
  page ⊆ under ->
  push_keys prefix page result = (OK, result ++ map (strip prefix) page).
Proof.
  intros Hsub.
  destruct (push_keys_spec prefix page result)
    as [[_ H] | (good & bad & rest & -> & _ & Hbad & _)]; [exact H|].
  assert (Hin : bad ∈ under).
  { apply Hsub. apply elem_of_app. right. apply list_elem_of_here. }
  assert (H := under_start). rewrite Forall_forall in H.
  specialize (H bad Hin). congruence.
Qed.

(** The loop from any point of the listing: [done] has been listed, the
    marker stands before [rest], and the fuel covers [rest]. *)
Lemma ListObjects_loop_paged fuel :
  forall done rest marker result w,
  under = done ++ rest ->
  keys_after marker under = rest ->
  (length rest < fuel)%nat ->
  fst (ListObjects_loop fuel s3client bucket_name object_path prefix
                        marker result w)
  = Finished OK (result ++ map (strip prefix) rest).
Proof.
  induction fuel as [|fuel IH]; intros done rest marker result w Hsplit
    Hafter Hfuel; [lia|].
  simpl. unfold paged_listing. simpl. fold under. rewrite Hafter. eff.
  change (Z.to_nat 50) with 50%nat.
  set (k := Nat.min (page_size marker) 50).
  assert (Hk : (1 <= k)%nat) by (specialize (pages_nonempty marker); lia).
  assert (Hpage : take k rest ⊆ under).
  { intros key Hin. rewrite Hsplit. apply elem_of_app. right.
    by apply elem_of_take in Hin as (i & Hin & _);
      apply list_elem_of_lookup_2 in Hin. }
  rewrite (push_keys_under _ _ Hpage).
  destruct (Nat.ltb_spec k (length rest)) as [Hlt | Hge]; simpl.
  - assert (Hlast : exists m, last (take k rest) = Some m).
    { destruct (last (take k rest)) as [m|] eqn:E; [by exists m|].
      apply last_None in E. apply (f_equal length) in E.
      rewrite length_take in E. simpl in E. lia. }
    destruct Hlast as [m Hlast].
    assert (Hnext :
      fst (ListObjects_loop fuel s3client bucket_name object_path prefix m
             (result ++ map (strip prefix) (take k rest))
             (mkWorld (fs w)
                (trace w ++
                 [EvS3ListObjects (mkListReq bucket_name 50 prefix marker)])))
      = Finished OK (result ++ map (strip prefix) rest)).
    { rewrite (IH (done ++ take k rest) (drop k rest)).
      - rewrite <- app_assoc, <- map_app, take_drop. reflexivity.
      - rewrite <- app_assoc, take_drop. exact Hsplit.
      - rewrite Hsplit. apply keys_after_last; rewrite <- ?Hsplit;
          auto using under_sorted, under_nonempty.
      - rewrite length_drop. lia. }
    rewrite Hlast.
    destruct (sends_marker marker); simpl.
    + destruct (string_empty m); exact Hnext.
    + exact Hnext.
  - rewrite take_ge by lia. reflexivity.
Qed.

End ListingCompleteness.

(** C5. A bucket holds [keys] in strictly increasing (lexicographic) order,
    none of them empty, and pages its listing: each page has at least one key
    and at most 50, the store choosing where to cut, and a truncated page may
    or may not carry a next marker.  Then [ListObjects] succeeds, given fuel
    for one iteration per key, and appends to the result exactly the keys
    under the normalized prefix, in order, each once, with the prefix
    stripped. *)
Theorem ListObjects_complete
    (ltrim_if : string -> ascii -> string)
    (ensure_ends_with_pathsep : string -> string)
    (keys : list string) (page_size : string -> nat)
    (sends_marker : string -> bool)
    (bucket_name object_path : string) (result : list string) (w : World)
    (fuel : nat)
    (keys_sorted : StronglySorted key_lt keys)
    (keys_nonempty : Forall (fun key => key <> "") keys)
    (pages_nonempty : forall marker, (1 <= page_size marker)%nat) :
  let prefix := normalized_prefix ltrim_if ensure_ends_with_pathsep
                                  object_path in
  let under := List.filter (String.prefix prefix) keys in
  (length under < fuel)%nat ->
  Forall (fun key => starts_with prefix key = true) under /\
  fst (ListObjects ltrim_if ensure_ends_with_pathsep fuel
         (paged_client keys page_size sends_marker)
         bucket_name object_path result w)
  = Finished OK (result ++ map (strip prefix) under).
Proof.
  intros prefix under Hfuel. split.
  - by apply under_start.
  - unfold ListObjects. fold prefix.
    apply (ListObjects_loop_paged keys page_size sends_marker bucket_name
             object_path prefix keys_sorted keys_nonempty pages_nonempty
             fuel [] under "" result w); [reflexivity | reflexivity | exact Hfuel].
Qed.

(** Five keys under [db/] arrive in three pages, the second of them with a
    next marker, and are listed once each. *)
Lemma ListObjects_complete_witness :
  fst (ListObjects spec_ltrim_if spec_ensure_ends_with_pathsep 6
         example_bucket "bucket" "/db" [] empty_world)
  = Finished OK ["000001.sst"; "000002.sst"; "000003.sst"; "000004.sst";
                 "MANIFEST-000001"].
Proof.
  assert (Hsorted : StronglySorted key_lt example_keys).
  { repeat (constructor; [|repeat constructor]). constructor. }
  assert (Hnonempty : Forall (fun key => key <> "") example_keys).
  { repeat constructor; discriminate. }
  assert (Hpages : forall marker : string, (1 <= (fun _ => 2%nat) marker)%nat).
  { intros _. simpl. lia. }
  destruct (ListObjects_complete spec_ltrim_if spec_ensure_ends_with_pathsep
              example_keys (fun _ => 2%nat)
              (fun marker => String.eqb marker "db/000002.sst")
              "bucket" "/db" [] empty_world 6 Hsorted Hnonempty Hpages)
    as [_ H].
  - simpl. lia.
  - exact H.
Defined.

(** ** The manifest protocol *)

Lemma renames_app t1 t2 : renames (t1 ++ t2) = renames t1 ++ renames t2.
Proof. apply List.filter_app. Qed.

Lemma string_length_app (a b : string) :
  String.length (a +:+ b) = (String.length a + String.length b)%nat.
Proof. induction a as [|c a IH]; simpl; [reflexivity | by rewrite IH]. Qed.

Lemma side_file_differs (fname : string) : fname +:+ ".tmp" <> fname.
Proof.
  intros H. apply (f_equal String.length) in H.
  rewrite string_length_app in H. simpl in H. lia.
Qed.

Lemma string_empty_false s : s <> "" -> string_empty s = false.
Proof. destruct s; [congruence | reflexivity]. Qed.

Lemma string_empty_true s : string_empty s = true -> s = "".
Proof. destruct s; [reflexivity | discriminate]. Qed.

(** What one [Append] does. *)
Lemma Append_effect inj data this w :
  inj_append inj = OK ->
  snd (Append inj data this w)
  = match local_file_ this with
    | Some h =>
        mkWorld (mkFS (dir (fs w))
                      (alter (fun c => c ++ data) h (inodes (fs w))))
                (trace w ++ [EvAppend h data])
    | None => w
    end.
Proof.
  intros Hinj. unfold Append. destruct (local_file_ this); [|reflexivity].
  prims. by rewrite Hinj.
Qed.

(** What one [Sync] does: either it leaves the writer and the filesystem as
    they were, or it is the first flush of a side file, which tries the one
    rename and forgets the side file's name. *)
Lemma Sync_effect inj this w :
  let r := Sync inj this w in
  exists evs,
    trace (snd r) = trace w ++ evs /\
    ((snd (fst r) = this /\ fs (snd r) = fs w /\ renames evs = []) \/
     (string_empty (tmp_file_ this) = false /\
      snd (fst r) = set_tmp_file "" this /\
      renames evs = [EvRenameFile (tmp_file_ this) (fname_ this)] /\
      (fs (snd r) = fs w \/
       exists i,
         dir (fs w) !! tmp_file_ this = Some i /\
         fs (snd r)
         = mkFS (<[fname_ this := i]> (delete (tmp_file_ this) (dir (fs w))))
                (inodes (fs w))))).
Proof.
  unfold Sync. destruct (local_file_ this) as [h|].
  2:{ exists []. simpl. rewrite app_nil_r. split; [reflexivity|]. by left. }
  prims.
  destruct (inj_sync inj) as [|c0 m0]; simpl.
  - destruct (string_empty (tmp_file_ this)) eqn:Htmp; simpl.
    + destruct (is_manifest_ this); simpl;
        [destruct (inj_copy inj); simpl|];
        eexists; (split; [rewrite <- ?app_assoc; reflexivity|]);
        left; repeat split.
    + destruct (inj_rename inj) as [|c m]; simpl;
        [destruct (dir (fs w) !! tmp_file_ this) as [i|] eqn:Hdir; simpl|].
      * destruct (is_manifest_ this); simpl;
          [destruct (inj_copy inj); simpl|];
          eexists; (split; [rewrite <- ?app_assoc; reflexivity|]);
          right; (split; [reflexivity|]); (split; [reflexivity|]);
          (split; [reflexivity|]); right; by exists i.
      * destruct (is_manifest_ this); simpl;
          eexists; (split; [rewrite <- ?app_assoc; reflexivity|]);
          right; (split; [reflexivity|]); (split; [reflexivity|]);
          (split; [reflexivity|]); by left.
      * destruct (is_manifest_ this); simpl;
          eexists; (split; [rewrite <- ?app_assoc; reflexivity|]);
          right; (split; [reflexivity|]); (split; [reflexivity|]);
          (split; [reflexivity|]); by left.
  - destruct (is_manifest_ this); simpl;
      eexists; (split; [reflexivity|]); left; repeat split.
Qed.

(** What one [Close] of a manifest writer does: nothing to the filesystem. *)
Lemma Close_manifest_effect inj this w :
  is_manifest_ this = true ->
  let r := Close inj this w in
  exists evs,
    trace (snd r) = trace w ++ evs /\
    renames evs = [] /\
    fs (snd r) = fs w /\
    (snd (fst r) = this \/ snd (fst r) = set_local_file None this).
Proof.
  intros Hman. unfold Close. destruct (local_file_ this) as [h|].
  2:{ exists []. simpl. rewrite app_nil_r. repeat split. by left. }
  prims. rewrite Hman.
  destruct (ok (inj_close inj)); simpl; eexists;
    (split; [rewrite <- !app_assoc; reflexivity|]);
    (repeat split; auto).
Qed.

Lemma staged_old_or_new fname A acc B t0 this w :
  staged fname A acc t0 this w -> old_or_new fname A B t0 w.
Proof.
  intros (iA & Hdir & HA & Hren & _). exists []. rewrite app_nil_r.
  split; [exact Hren|]. left. split; [|by left].
  unfold read_file. by rewrite Hdir.
Qed.

Lemma kept_old_or_new fname A B t0 this w :
  kept fname A B t0 this w -> old_or_new fname A B t0 w.
Proof.
  intros (HA & rs & Hren & Hcase). exists rs.
  split; [exact Hren|]. left. split; [exact HA|].
  destruct Hcase as [(_ & -> & _) | (_ & Hrs)]; [by left | exact Hrs].
Qed.

Lemma swapped_old_or_new fname A B t0 this w :
  swapped fname B t0 this w -> old_or_new fname A B t0 w.
Proof.
  intros (HB & _ & Hren). eexists. split; [exact Hren|]. by right.
Qed.

Lemma staged_kept fname A B t0 this w :
  staged fname A B t0 this w -> kept fname A B t0 this w.
Proof.
  intros (iA & Hdir & HA & Hren & Hh).
  split; [unfold read_file; by rewrite Hdir|].
  exists []. rewrite app_nil_r. split; [exact Hren|].
  destruct (local_file_ this) as [h|].
  - destruct Hh as (_ & Htmp & Hside & Hacc). left.
    split; [exact Htmp|]. split; [reflexivity|].
    intros h' [= <-]. by split.
  - destruct Hh as [Htmp | Htmp]; [right | left].
    + split; [exact Htmp | by left].
    + split; [exact Htmp|]. split; [reflexivity|]. intros h' [=].
Qed.

Section Opening.

Variable RemoveEpoch : string -> string.
Variable IsManifestFile : string -> bool.

(** Opening a writer on a manifest that exists leaves it alone: the writer
    is handed the side file, empty. *)
Lemma open_existing_manifest inj env fname bucket cloud_fname w0 A :
  IsManifestFile (RemoveEpoch fname) = true ->
  read_file (fs w0) fname = Some A ->
  dir (fs w0) !! (fname +:+ ".tmp") <> dir (fs w0) !! fname ->
  IsNotFound (inj_exists inj) = false ->
  let opened := new_CloudStorageWritableFile RemoveEpoch IsManifestFile inj
                  env fname bucket cloud_fname w0 in
  fname_ (fst opened) = fname /\
  is_manifest_ (fst opened) = true /\
  staged fname A [] (trace w0) (fst opened) (snd opened).
Proof.
  intros Hman Hlive Hside Hnf.
  unfold read_file in Hlive.
  destruct (dir (fs w0) !! fname) as [iA|] eqn:HiA; [|discriminate].
  unfold new_CloudStorageWritableFile. simpl. rewrite Hman.
  unfold open_local_file. prims. unfold file_present. rewrite HiA.
  destruct (inj_exists inj) as [|c m] eqn:Hex; simpl.
  - destruct (inj_open inj) as [|c m] eqn:Hop; simpl.
    + destruct (dir (fs w0) !! (fname +:+ ".tmp")) as [j|] eqn:Hj; simpl.
      * repeat split. exists iA. simpl.
        assert (j <> iA) by congruence.
        repeat split; try assumption.
        -- by rewrite lookup_insert_ne.
        -- unfold renames. by rewrite !List.filter_app, !app_nil_r.
        -- by rewrite lookup_insert_eq.
      * repeat split. exists iA. simpl.
        assert (Hfresh : fresh_inode (fs w0) <> iA).
        { intros Heq. unfold fresh_inode in Heq.
          assert (Hin : iA ∈ (map_img (dir (fs w0)) : gset nat)
                             ∪ dom (inodes (fs w0))).
          { apply elem_of_union. right. apply elem_of_dom. by eexists. }
          rewrite <- Heq in Hin. by apply is_fresh in Hin. }
        repeat split; try assumption.
        -- rewrite lookup_insert_ne; [exact HiA | apply side_file_differs].
        -- by rewrite lookup_insert_ne.
        -- unfold renames. by rewrite !List.filter_app, !app_nil_r.
        -- by rewrite lookup_insert_eq.
        -- by rewrite lookup_insert_eq.
    + repeat split. exists iA. simpl. repeat split; try assumption.
      * unfold renames. by rewrite !List.filter_app, !app_nil_r.
      * by right.
  - destruct c; simpl in Hnf |- *; try discriminate;
      (repeat split; exists iA; simpl; repeat split; try assumption;
       [unfold renames; by rewrite !List.filter_app, !app_nil_r | by left]).
Qed.

(** When neither the existence check nor the opening fails, the writer
    comes out with a handle and without a failure, and the one file it
    opened is the side file. *)
Lemma open_side_file inj env fname bucket cloud_fname w0 A :
  IsManifestFile (RemoveEpoch fname) = true ->
  read_file (fs w0) fname = Some A ->
  inj_exists inj = OK ->
  inj_open inj = OK ->
  let opened := new_CloudStorageWritableFile RemoveEpoch IsManifestFile inj
                  env fname bucket cloud_fname w0 in
  (exists h, local_file_ (fst opened) = Some h) /\
  status_ (fst opened) = OK /\
  trace (snd opened)
  = trace w0 ++ [EvLog DEBUG_LEVEL; EvFileExists fname;
                 EvNewWritableFile (fname +:+ ".tmp")].
Proof.
  intros Hman Hlive Hex Hop. unfold read_file in Hlive.
  destruct (dir (fs w0) !! fname) as [iA|] eqn:HiA; [|discriminate].
  unfold new_CloudStorageWritableFile. simpl. rewrite Hman.
  unfold open_local_file. prims. unfold file_present.
  rewrite HiA, Hex, Hop. simpl.
  destruct (dir (fs w0) !! (fname +:+ ".tmp")); simpl;
    (split; [by eexists|]); (split; [reflexivity|]);
    by rewrite <- !app_assoc.
Qed.

End Opening.

(** A write goes to the side file and leaves the live manifest alone. *)
Lemma Append_staged fname A acc t0 inj data this w :
  inj_append inj = OK ->
  staged fname A acc t0 this w ->
  staged fname A (acc ++ data) t0 this (snd (Append inj data this w)).
Proof.
  intros Hinj (iA & Hdir & HA & Hren & Hh).
  rewrite Append_effect by assumption.
  destruct (local_file_ this) as [h|] eqn:Hopen.
  - destruct Hh as (Hne & Htmp & Hside & Hacc).
    exists iA. simpl. rewrite Hopen.
    repeat split; try assumption.
    + by rewrite lookup_alter_ne.
    + rewrite renames_app. simpl. by rewrite app_nil_r.
    + rewrite lookup_alter_eq, Hacc. reflexivity.
  - exists iA. rewrite Hopen. by repeat split.
Qed.

(** [Sync] keeps the live manifest whole: from the old content it moves to
    the new one only by the rename, and from then on nothing changes. *)
Lemma Sync_settled fname A B t0 inj this w :
  fname_ this = fname ->
  kept fname A B t0 this w \/ swapped fname B t0 this w ->
  let r := Sync inj this w in
  fname_ (snd (fst r)) = fname /\
  is_manifest_ (snd (fst r)) = is_manifest_ this /\
  (kept fname A B t0 (snd (fst r)) (snd r) \/
   swapped fname B t0 (snd (fst r)) (snd r)).
Proof.
  intros Hname Hinv r.
  destruct (Sync_effect inj this w) as (evs & Htr & Heff). fold r in Htr, Heff.
  destruct Heff as [(Hthis & Hfs & Hevs) |
                    (Htmp & Hthis & Hevs & Hfs)].
  - rewrite Hthis. repeat split; [assumption|].
    destruct Hinv as [(HA & rs & Hren & Hcase) | (HB & Htmp & Hren)].
    + left. split; [by rewrite Hfs|]. exists rs.
      split; [by rewrite Htr, renames_app, Hevs, app_nil_r|].
      by rewrite Hfs.
    + right. split; [by rewrite Hfs|]. split; [assumption|].
      by rewrite Htr, renames_app, Hevs, app_nil_r.
  - rewrite Hthis. repeat split; [assumption|].
    destruct Hinv as [(HA & rs & Hren & Hcase) | (HB & Htmp' & Hren)].
    2:{ rewrite Htmp' in Htmp. discriminate. }
    destruct Hcase as [(Htmp' & -> & Hside) | (Htmp' & _)].
    2:{ rewrite Htmp' in Htmp. discriminate. }
    rewrite Htmp', Hname in Hevs, Hfs. rewrite app_nil_r in Hren.
    assert (Hren' : renames (trace (snd r))
                    = renames t0 ++ [EvRenameFile (fname +:+ ".tmp") fname])
      by (by rewrite Htr, renames_app, Hevs, Hren).
    destruct Hfs as [Hfs | (i & Hdir & Hfs)].
    + left. split; [by rewrite Hfs|]. eexists. split; [exact Hren'|].
      right. split; [reflexivity | by right].
    + right. split; [|split; [reflexivity | exact Hren']].
      assert (Hopen : exists h, local_file_ this = Some h).
      { unfold r, Sync in Hthis.
        destruct (local_file_ this) as [h|]; [by exists h|].
        simpl in Hthis. rewrite Hthis in Htmp'. simpl in Htmp'.
        destruct fname; discriminate. }
      destruct Hopen as [h Hopen].
      destruct (Hside h Hopen) as [Hh Hacc].
      assert (i = h) by congruence. subst i.
      rewrite Hfs. unfold read_file. simpl.
      by rewrite lookup_insert_eq.
Qed.

(** [Close] of a manifest writer changes nothing on disk. *)
Lemma Close_settled fname A B t0 inj this w :
  fname_ this = fname ->
  is_manifest_ this = true ->
  kept fname A B t0 this w \/ swapped fname B t0 this w ->
  let r := Close inj this w in
  fname_ (snd (fst r)) = fname /\
  is_manifest_ (snd (fst r)) = true /\
  (kept fname A B t0 (snd (fst r)) (snd r) \/
   swapped fname B t0 (snd (fst r)) (snd r)).
Proof.
  intros Hname Hman Hinv r.
  destruct (Close_manifest_effect inj this w Hman)
    as (evs & Htr & Hevs & Hfs & Hthis). fold r in Htr, Hfs, Hthis.
  assert (Hren : renames (trace (snd r)) = renames (trace w))
    by (by rewrite Htr, renames_app, Hevs, app_nil_r).
  destruct Hthis as [Hthis | Hthis]; rewrite Hthis; simpl;
    (repeat split; [assumption | assumption |]);
    (destruct Hinv as [(HA & rs & Hren0 & Hcase) | (HB & Htmp & Hren0)];
     [left; split; [by rewrite Hfs|]; exists rs;
      split; [by rewrite Hren|]
     |right; split; [by rewrite Hfs|]; split; [assumption | by rewrite Hren]]).
  - by rewrite Hfs.
  - destruct Hcase as [(Htmp & Hrs & _) | Hcase]; [left | by right].
    split; [assumption|]. split; [assumption|]. intros h [=].
Qed.

Lemma lifecycle_app ops1 ops2 :
  forall this w,
  lifecycle (ops1 ++ ops2) this w
  = lifecycle ops1 this w
    ++ lifecycle ops2 (fst (run_ops ops1 this w)) (snd (run_ops ops1 this w)).
Proof.
  induction ops1 as [|op ops1 IH]; intros this w; simpl; [reflexivity|].
  destruct (apply_op op this w) as [this' w']. simpl. by rewrite IH.
Qed.

Lemma apply_append inj data this w :
  apply_op (OpAppend inj data) this w = (this, snd (Append inj data this w)).
Proof. simpl. unfold bind, ret. by destruct (Append inj data this w). Qed.

(** The writes: every state on the way is [staged], and at the end the side
    file holds all that was written. *)
Lemma writes_staged fname A t0 chunks :
  forall acc this w,
  staged fname A acc t0 this w ->
  let writes := map (OpAppend no_faults) chunks in
  (forall s, s ∈ lifecycle writes this w ->
             exists acc', staged fname A acc' t0 (fst s) (snd s)) /\
  fst (run_ops writes this w) = this /\
  staged fname A (acc ++ concat chunks) t0 this (snd (run_ops writes this w)).
Proof.
  induction chunks as [|data chunks IH]; intros acc this w Hst; simpl.
  - split; [intros s Hin; by apply elem_of_nil in Hin|].
    split; [reflexivity | by rewrite app_nil_r].
  - change (bind (Append no_faults data this) (fun _ => ret this) w)
      with (apply_op (OpAppend no_faults data) this w).
    rewrite apply_append.
    assert (Hst' := Append_staged fname A acc t0 no_faults data this w
                      eq_refl Hst).
    destruct (IH _ _ _ Hst') as (Hall & Hthis & Hend).
    split; [|split; [exact Hthis | by rewrite app_assoc]].
    intros s Hin. apply elem_of_cons in Hin as [-> | Hin].
    + by eexists.
    + by apply Hall.
Qed.

(** After the writes: every state of any run of [Sync]s and [Close]s is
    [kept] or [swapped]. *)
Lemma tail_settled fname A B t0 tail :
  forall this w,
  fname_ this = fname ->
  is_manifest_ this = true ->
  kept fname A B t0 this w \/ swapped fname B t0 this w ->
  Forall (fun op => is_append op = false) tail ->
  forall s, s ∈ lifecycle tail this w ->
            kept fname A B t0 (fst s) (snd s) \/
            swapped fname B t0 (fst s) (snd s).
Proof.
  induction tail as [|op tail IH]; intros this w Hname Hman Hinv Htail s Hin;
    simpl in Hin; [by apply elem_of_nil in Hin|].
  apply Forall_cons in Htail as [Hop Htail].
  assert (Hstep : fname_ (fst (apply_op op this w)) = fname /\
                  is_manifest_ (fst (apply_op op this w)) = true /\
                  (kept fname A B t0 (fst (apply_op op this w))
                                     (snd (apply_op op this w)) \/
                   swapped fname B t0 (fst (apply_op op this w))
                                      (snd (apply_op op this w)))).
  { destruct op as [inj data | inj | inj]; [discriminate | |]; simpl;
      unfold bind, ret.
    - destruct (Sync_settled fname A B t0 inj this w Hname Hinv)
        as (H1 & H2 & H3).
      destruct (Sync inj this w) as [[st this'] w']. simpl in *.
      by rewrite H2 in *.
    - destruct (Close_settled fname A B t0 inj this w Hname Hman Hinv)
        as (H1 & H2 & H3).
      by destruct (Close inj this w) as [[st this'] w']. }
  destruct (apply_op op this w) as [this' w']. simpl in Hstep.
  destruct Hstep as (Hname' & Hman' & Hinv').
  apply elem_of_cons in Hin as [-> | Hin]; [exact Hinv'|].
  by apply (IH this' w').
Qed.

(** The writes are appends on the one handle of the writer. *)
Lemma writes_trace chunks :
  forall this w h,
  local_file_ this = Some h ->
  trace (snd (run_ops (map (OpAppend no_faults) chunks) this w))
  = trace w ++ map (EvAppend h) chunks.
Proof.
  induction chunks as [|data chunks IH]; intros this w h Hopen; simpl;
    [by rewrite app_nil_r|].
  change (bind (Append no_faults data this) (fun _ => ret this) w)
    with (apply_op (OpAppend no_faults data) this w).
  rewrite apply_append, (IH _ _ h Hopen), Append_effect by reflexivity.
  rewrite Hopen. simpl. by rewrite <- app_assoc.
Qed.

(** [staged] looks at the files and at the renames on record only. *)
Lemma staged_ext fname A acc t0 this w w' :
  fs w' = fs w ->
  renames (trace w') = renames (trace w) ->
  staged fname A acc t0 this w -> staged fname A acc t0 this w'.
Proof.
  intros Hfs Hren (iA & H). exists iA. by rewrite Hfs, Hren.
Qed.

(** A [Sync] whose flush fails stops there. *)
Lemma Sync_flush_fails inj this w h :
  local_file_ this = Some h ->
  ok (inj_sync inj) = false ->
  Sync inj this w
  = ((inj_sync inj, this), mkWorld (fs w) (trace w ++ [EvLocalSync h])).
Proof.
  intros Hopen Hfail. unfold Sync. rewrite Hopen. prims.
  rewrite Hfail. simpl. by rewrite Hfail, andb_false_r.
Qed.

(** Any number of them leave the writer, the files and the renames on
    record as they were. *)
Lemma failed_syncs pre :
  forall this w h,
  local_file_ this = Some h ->
  Forall (fun i => ok (inj_sync i) = false) pre ->
  let r := run_ops (map OpSync pre) this w in
  fst r = this /\ fs (snd r) = fs w /\
  renames (trace (snd r)) = renames (trace w).
Proof.
  induction pre as [|i pre IH]; intros this w h Hopen Hpre; simpl;
    [by repeat split|].
  apply Forall_cons in Hpre as [Hi Hpre].
  unfold bind, ret. rewrite (Sync_flush_fails i this w h Hopen Hi). simpl.
  destruct (IH this (mkWorld (fs w) (trace w ++ [EvLocalSync h])) h Hopen Hpre)
    as (H1 & H2 & H3).
  split; [exact H1|]. split; [exact H2|].
  rewrite H3. simpl. rewrite renames_app. simpl. by rewrite app_nil_r.
Qed.

(** The [Sync] whose flush and rename succeed puts the side file in the
    place of the live manifest, whatever becomes of the upload. *)
Lemma Sync_swaps fname A B t0 inj this w h :
  fname_ this = fname ->
  local_file_ this = Some h ->
  staged fname A B t0 this w ->
  inj_sync inj = OK ->
  inj_rename inj = OK ->
  let r := Sync inj this w in
  swapped fname B t0 (snd (fst r)) (snd r) /\
  read_file (fs (snd r)) (fname +:+ ".tmp") = None /\
  is_manifest_ (snd (fst r)) = is_manifest_ this.
Proof.
  intros Hname Hopen (iA & Hdir & HA & Hren & Hh) Hsync Hrename.
  rewrite Hopen in Hh. destruct Hh as (Hne & Htmp & Hside & Hacc).
  assert (Hse : string_empty (fname +:+ ".tmp") = false).
  { apply string_empty_false. destruct fname; discriminate. }
  assert (Hdiff := side_file_differs fname).
  intros r.
  assert (Hr : exists st evs,
             r = ((st, set_tmp_file "" this),
                  mkWorld (mkFS (<[fname := h]>
                                   (delete (fname +:+ ".tmp") (dir (fs w))))
                                (inodes (fs w)))
                          (trace w ++ evs)) /\
             renames evs = [EvRenameFile (fname +:+ ".tmp") fname]).
  { unfold r, Sync. rewrite Hopen. prims.
    rewrite Hsync, Htmp, Hse, Hname. simpl.
    rewrite Hrename. simpl. rewrite Hside. simpl.
    destruct (is_manifest_ this); simpl; [destruct (inj_copy inj); simpl|];
      eexists; eexists; (split; [rewrite <- ?app_assoc; reflexivity|]);
      reflexivity. }
  destruct Hr as (st & evs & -> & Hevs). simpl.
  unfold swapped, read_file. simpl.
  rewrite lookup_insert_eq, Hacc.
  rewrite lookup_insert_ne, lookup_delete_eq by congruence.
  split; [|split; [reflexivity | by destruct this]].
  split; [reflexivity|]. split; [reflexivity|].
  by rewrite renames_app, Hren, Hevs.
Qed.

(** Once the live manifest holds the new content, no [Sync] and no [Close]
    changes it or renames anything. *)
Lemma tail_swapped fname B t0 tail :
  forall this w,
  is_manifest_ this = true ->
  swapped fname B t0 this w ->
  Forall (fun op => is_append op = false) tail ->
  forall s, s ∈ lifecycle tail this w -> swapped fname B t0 (fst s) (snd s).
Proof.
  induction tail as [|op tail IH]; intros this w Hman Hsw Htail s Hin;
    simpl in Hin; [by apply elem_of_nil in Hin|].
  apply Forall_cons in Htail as [Hop Htail].
  assert (Hstep : is_manifest_ (fst (apply_op op this w)) = true /\
                  swapped fname B t0 (fst (apply_op op this w))
                                     (snd (apply_op op this w))).
  { destruct Hsw as (HB & Htmp & Hren).
    destruct op as [inj data | inj | inj]; [discriminate | |]; simpl;
      unfold bind, ret.
    - destruct (Sync_effect inj this w) as (evs & Htr & Heff).
      destruct (Sync inj this w) as [[st this'] w']. simpl in *.
      destruct Heff as [(-> & Hfs & Hevs) | (Hne & _)].
      + split; [exact Hman|]. split; [by rewrite Hfs|].
        split; [exact Htmp|].
        by rewrite Htr, renames_app, Hevs, app_nil_r.
      + rewrite Htmp in Hne. discriminate.
    - destruct (Close_manifest_effect inj this w Hman)
        as (evs & Htr & Hevs & Hfs & Hthis).
      destruct (Close inj this w) as [[st this'] w']. simpl in *.
      assert (Hren' : renames (trace w') = renames (trace w))
        by (by rewrite Htr, renames_app, Hevs, app_nil_r).
      destruct Hthis as [-> | ->]; simpl;
        (split; [exact Hman|]); (split; [by rewrite Hfs|]);
        (split; [exact Htmp | by rewrite Hren']). }
  destruct (apply_op op this w) as [this' w']. simpl in Hstep.
  destruct Hstep as [Hman' Hsw'].
  apply elem_of_cons in Hin as [-> | Hin]; [exact Hsw'|].
  by apply (IH this' w').
Qed.

(** C1. A writer is opened on a manifest that exists locally with content
    [A] (and whose side-file name, if a stale one is there, is not a second
    name of the manifest itself); [B] is written through it in any number of
    pieces; then come [Sync]s and [Close]s in any number and order, each
    local or remote call failing or not as the environment decides.

    Nothing else than [A] or [B] is ever there: in the state after the
    opening and after every operation, which are the states a crash at any
    point leaves behind, the live manifest holds exactly [A] or exactly [B],
    and it holds [B] only once the single rename of the side file over it is
    on record.  When the writes are done the live manifest still holds [A].

    The writes go to the side file: when the existence check and the opening
    do not fail, the one file the constructor opens is the side file, the
    writer holds its handle, every write is an append on that handle, and
    when the writes are done the side file holds [B].

    The first [Sync] whose flush succeeds replaces the manifest: through the
    [Sync]s whose flush fails the live manifest holds [A] and nothing is
    renamed; the next [Sync], when its flush and its rename succeed and
    whatever becomes of the upload, leaves [B] in the live manifest, the
    side file's name gone and that rename as the only one on record; and so
    it stays through all that follows. *)
Theorem manifest_atomic_swap
    (RemoveEpoch : string -> string) (IsManifestFile : string -> bool)
    (inj0 : Faults) (env : CloudEnv) (fname bucket cloud_fname : string)
    (w0 : World) (A : list byte) (chunks : list (list byte))
    (tail : list WriterOp)
    (Hmanifest : IsManifestFile (RemoveEpoch fname) = true)
    (Hlive : read_file (fs w0) fname = Some A)
    (Hside : dir (fs w0) !! (fname +:+ ".tmp") <> dir (fs w0) !! fname)
    (Hexists : IsNotFound (inj_exists inj0) = false)
    (Htail : Forall (fun op => is_append op = false) tail) :
  let B := concat chunks in
  let writes := map (OpAppend no_faults) chunks in
  let opened := new_CloudStorageWritableFile RemoveEpoch IsManifestFile inj0
                  env fname bucket cloud_fname w0 in
  let written := run_ops writes (fst opened) (snd opened) in
  let rename := EvRenameFile (fname +:+ ".tmp") fname in
  (forall s,
     s ∈ opened :: lifecycle (writes ++ tail) (fst opened) (snd opened) ->
     old_or_new fname A B (trace w0) (snd s)) /\
  read_file (fs (snd written)) fname = Some A /\
  (forall h, local_file_ (fst written) = Some h ->
             read_file (fs (snd written)) (fname +:+ ".tmp") = Some B) /\
  (inj_exists inj0 = OK -> inj_open inj0 = OK ->
   exists h,
     local_file_ (fst opened) = Some h /\
     status_ (fst opened) = OK /\
     tmp_file_ (fst opened) = fname +:+ ".tmp" /\
     trace (snd opened)
     = trace w0 ++ [EvLog DEBUG_LEVEL; EvFileExists fname;
                    EvNewWritableFile (fname +:+ ".tmp")] /\
     fst written = fst opened /\
     trace (snd written) = trace (snd opened) ++ map (EvAppend h) chunks /\
     dir (fs (snd written)) !! (fname +:+ ".tmp") = Some h /\
     read_file (fs (snd written)) (fname +:+ ".tmp") = Some B) /\
  (forall pre inj rest,
     tail = map OpSync pre ++ OpSync inj :: rest ->
     inj_exists inj0 = OK -> inj_open inj0 = OK ->
     Forall (fun i => ok (inj_sync i) = false) pre ->
     inj_sync inj = OK -> inj_rename inj = OK ->
     let before := run_ops (map OpSync pre) (fst written) (snd written) in
     let synced := apply_op (OpSync inj) (fst before) (snd before) in
     read_file (fs (snd before)) fname = Some A /\
     renames (trace (snd before)) = renames (trace w0) /\
     read_file (fs (snd synced)) fname = Some B /\
     read_file (fs (snd synced)) (fname +:+ ".tmp") = None /\
     renames (trace (snd synced)) = renames (trace w0) ++ [rename] /\
     forall s, s ∈ lifecycle rest (fst synced) (snd synced) ->
               read_file (fs (snd s)) fname = Some B /\
               renames (trace (snd s)) = renames (trace w0) ++ [rename]).
Proof.
  intros B writes opened written rename.
  destruct (open_existing_manifest RemoveEpoch IsManifestFile inj0 env fname
              bucket cloud_fname w0 A Hmanifest Hlive Hside Hexists)
    as (Hname & Hman & Hst). fold opened in Hname, Hman, Hst.
  destruct (writes_staged fname A (trace w0) chunks [] _ _ Hst)
    as (Hall & Hthis & Hend). fold writes in Hall, Hthis, Hend.
  fold written in Hthis, Hend. simpl in Hend. fold B in Hend.
  assert (Hopening : inj_exists inj0 = OK -> inj_open inj0 = OK ->
            exists h, local_file_ (fst opened) = Some h /\
                      status_ (fst opened) = OK /\
                      trace (snd opened)
                      = trace w0 ++ [EvLog DEBUG_LEVEL; EvFileExists fname;
                                     EvNewWritableFile (fname +:+ ".tmp")]).
  { intros Hex Hop.
    destruct (open_side_file RemoveEpoch IsManifestFile inj0 env fname bucket
                cloud_fname w0 A Hmanifest Hlive Hex Hop)
      as ([h Hh] & Hstatus & Htrace).
    exists h. by repeat split. }
  split; [|split; [|split; [|split]]].
  - intros s Hin. apply elem_of_cons in Hin as [-> | Hin].
    { by apply (staged_old_or_new fname A [] B _ (fst opened)). }
    rewrite lifecycle_app in Hin. apply elem_of_app in Hin as [Hin | Hin].
    + destruct (Hall s Hin) as [acc' Hs].
      by apply (staged_old_or_new fname A acc' B _ (fst s)).
    + fold written in Hin. rewrite Hthis in Hin.
      destruct (tail_settled fname A B (trace w0) tail (fst opened)
                  (snd written) Hname Hman
                  (or_introl (staged_kept _ _ _ _ _ _ Hend)) Htail s Hin)
        as [Hk | Hs].
      * by apply (kept_old_or_new fname A B _ (fst s)).
      * by apply (swapped_old_or_new fname A B _ (fst s)).
  - destruct Hend as (iA & Hdir & HA & _). unfold read_file. by rewrite Hdir.
  - intros h Hopen. rewrite Hthis in Hopen.
    destruct Hend as (iA & _ & _ & _ & Hh). rewrite Hopen in Hh.
    destruct Hh as (_ & _ & Hd & Hacc). unfold read_file. by rewrite Hd.
  - intros Hex Hop. destruct (Hopening Hex Hop) as (h & Hh & Hstatus & Htrace).
    exists h. split; [exact Hh|]. split; [exact Hstatus|].
    destruct Hst as (iA0 & _ & _ & _ & Hh0). rewrite Hh in Hh0.
    destruct Hh0 as (_ & Htmp & _ & _).
    split; [exact Htmp|]. split; [exact Htrace|]. split; [exact Hthis|].
    split; [by apply writes_trace|].
    destruct Hend as (iA & _ & _ & _ & Hh'). rewrite Hh in Hh'.
    destruct Hh' as (_ & _ & Hd & Hacc).
    split; [exact Hd|]. unfold read_file. by rewrite Hd.
  - intros pre inj rest Htl Hex Hop Hpre Hsync Hrename before synced.
    destruct (Hopening Hex Hop) as (h & Hh & _ & _).
    assert (Hrest : Forall (fun op => is_append op = false) rest).
    { rewrite Htl in Htail. apply Forall_app in Htail as [_ Htail].
      by apply Forall_cons in Htail as [_ Htail]. }
    assert (Hh' : local_file_ (fst written) = Some h) by (by rewrite Hthis).
    destruct (failed_syncs pre (fst written) (snd written) h Hh' Hpre)
      as (Hb1 & Hb2 & Hb3). fold before in Hb1, Hb2, Hb3.
    assert (Hbefore : staged fname A B (trace w0) (fst before) (snd before)).
    { rewrite Hb1, Hthis. by apply (staged_ext _ _ _ _ _ (snd written)). }
    assert (Hsw := Sync_swaps fname A B (trace w0) inj (fst before)
                     (snd before) h
                     ltac:(by rewrite Hb1, Hthis) ltac:(by rewrite Hb1)
                     Hbefore Hsync Hrename).
    assert (Hsynced : synced = (snd (fst (Sync inj (fst before) (snd before))),
                                snd (Sync inj (fst before) (snd before)))).
    { unfold synced. simpl. unfold bind, ret.
      by destruct (Sync inj (fst before) (snd before)) as [[st this'] w']. }
    rewrite Hsynced. simpl.
    destruct Hsw as (Hsw & Hgone & Hman').
    split.
    { destruct Hbefore as (iA & Hdir & HA & _). unfold read_file.
      by rewrite Hdir. }
    split.
    { destruct Hbefore as (iA & _ & _ & Hren & _). exact Hren. }
    split; [apply Hsw|]. split; [exact Hgone|]. split; [apply Hsw|].
    intros s Hin.
    assert (Hs := tail_swapped fname B (trace w0) rest _ _
                    ltac:(by rewrite Hman', Hb1, Hthis) Hsw Hrest s Hin).
    split; apply Hs.
Qed.

(** The manifest of the examples is rewritten in two pieces, synced, closed
    and synced again: the live manifest is old or new throughout; the writes
    went to the side file; and the first [Sync], whose upload fails, put the
    new content in the place of the old, where it stays. *)
Lemma manifest_atomic_swap_witness :
  let opened := example_writer in
  let written := run_ops (map (OpAppend no_faults) [[x42]; [x43]])
                         (fst opened) (snd opened) in
  let synced := apply_op (OpSync upload_fails) (fst written) (snd written) in
  Forall (fun s => old_or_new "MANIFEST-000001" [x41; x41] [x42; x43] []
                              (snd s))
         (opened ::
          lifecycle (map (OpAppend no_faults) [[x42]; [x43]]
                     ++ [OpSync upload_fails; OpClose no_faults;
                         OpSync no_faults])
                    (fst opened) (snd opened)) /\
  read_file (fs (snd written)) "MANIFEST-000001" = Some [x41; x41] /\
  read_file (fs (snd written)) "MANIFEST-000001.tmp" = Some [x42; x43] /\
  read_file (fs (snd synced)) "MANIFEST-000001" = Some [x42; x43] /\
  read_file (fs (snd synced)) "MANIFEST-000001.tmp" = None /\
  Forall (fun s => read_file (fs (snd s)) "MANIFEST-000001"
                   = Some [x42; x43])
         (lifecycle [OpClose no_faults; OpSync no_faults]
                    (fst synced) (snd synced)).
Proof.
  intros opened written synced.
  destruct (manifest_atomic_swap (fun s => s) (fun _ => true) no_faults
              (mkCloudEnv false) "MANIFEST-000001" "bucket"
              "db/MANIFEST-000001" example_world [x41; x41] [[x42]; [x43]]
              [OpSync upload_fails; OpClose no_faults; OpSync no_faults])
    as (Hsafe & Hold & _ & Hside & Hswap).
  - reflexivity.
  - reflexivity.
  - vm_compute. discriminate.
  - reflexivity.
  - repeat constructor.
  - destruct (Hside eq_refl eq_refl) as (h & _ & _ & _ & _ & _ & _ & _ & Hnew).
    destruct (Hswap [] upload_fails [OpClose no_faults; OpSync no_faults]
                eq_refl eq_refl eq_refl ltac:(constructor) eq_refl eq_refl)
      as (_ & _ & HB & Hgone & _ & Hstays).
    split; [|split; [|split; [|split; [|split]]]].
    + apply Forall_forall. intros s Hin. by apply Hsafe.
    + exact Hold.
    + exact Hnew.
    + exact HB.
    + exact Hgone.
    + apply Forall_forall. intros s Hin. by apply Hstays.
Defined.

(** In that run the swap does take place: after the first [Sync] the live
    manifest holds the new content and the side file is gone. *)
Example manifest_swap_takes_place :
  let opened := example_writer in
  let synced := run_ops (map (OpAppend no_faults) [[x42]; [x43]]
                         ++ [OpSync upload_fails])
                        (fst opened) (snd opened) in
  read_file (fs (snd opened)) "MANIFEST-000001" = Some [x41; x41] /\
  read_file (fs (snd synced)) "MANIFEST-000001" = Some [x42; x43] /\
  read_file (fs (snd synced)) "MANIFEST-000001.tmp" = None.
Proof. vm_compute. repeat split; reflexivity. Qed.

(** * More of the code *)

(** ** Reads, in general *)

(** What a read below the known size comes to: one GET for the trimmed
    length (one byte when that is 0), and the outcome mapped. *)
Lemma Read_below_size this offset n w :
  0 <= offset < file_size_ this ->
  0 <= n <= 2 ^ 63 - 1 ->
  file_size_ this <= 2 ^ 63 - 1 ->
  let n' := if file_size_ this <? offset + n
            then file_size_ this - offset else n in
  let request := mkGetReq (r_bucket_ this) (r_fname_ this)
                   (mkRange offset
                      (offset + (if negb (n' =? 0) then n' else 1) - 1)) in
  fst (Read this offset n w)
  = match s3_GetObject (s3client_ this) request with
    | GetSuccess body =>
        (OK, if negb (n' =? 0) then take (Z.to_nat n') body else [])
    | GetFailure error => (read_failure (r_fname_ this) error, [])
    end /\
  List.filter is_remote (trace (snd (Read this offset n w)))
  = List.filter is_remote (trace w) ++ [EvS3GetObject request].
Proof.
  intros Hoff Hn Hsize n' request. unfold Read.
  destruct (Z.leb_spec (file_size_ this) offset); [lia|].
  rewrite (wrap64_small (offset + n)) by lia. fold n'.
  assert (Hn' : 0 <= n' <= 2 ^ 63 - 1).
  { unfold n'. destruct (Z.ltb_spec (file_size_ this) (offset + n)); lia. }
  assert (Hw : (if file_size_ this <? offset + n
                then wrap64 (file_size_ this - offset) else n) = n').
  { unfold n'. destruct (file_size_ this <? offset + n); [|reflexivity].
    apply wrap64_small. lia. }
  rewrite Hw. unfold DoCloudRead. rewrite snprintf_nonneg.
  rewrite (streamsize_small n') by lia.
  assert (Hlast : wrap64 (offset + (if negb (n' =? 0) then n' else 1) - 1)
                  = offset + (if negb (n' =? 0) then n' else 1) - 1).
  { apply wrap64_small. destruct (n' =? 0) eqn:E; simpl; [lia|].
    apply Z.eqb_neq in E. lia. }
  rewrite Hlast. fold request. eff.
  destruct (file_size_ this <? offset + n); simpl;
    destruct (s3_GetObject (s3client_ this) request) as [body|error];
    unfold read_failure; simpl;
    try (destruct (S3IsNotFound (GetErrorType error)
                   || contains "Response code: 404" (GetMessage error));
         simpl);
    (split; [reflexivity|]);
    rewrite ?List.filter_app; simpl; by rewrite ?app_nil_r.
Qed.

(** A read against a store that serves the object the reader was opened
    on. *)
Lemma Read_object_slice
    (this : S3ReadableFile) (offset n : Z) (w : World) (data : list byte)
    (Hoffset : 0 <= offset < 2 ^ 64)
    (Hn : 0 <= n <= 2 ^ 63 - 1)
    (Hsize : file_size_ this <= 2 ^ 63 - 1)
    (Hdata : Z.of_nat (length data) = file_size_ this)
    (Hstore : forall request,
        s3_GetObject (s3client_ this) request
        = serve_range data (get_Range request)) :
  fst (Read this offset n w)
  = (OK, take (Z.to_nat n) (drop (Z.to_nat offset) data)).
Proof.
  destruct (Z.le_gt_cases (file_size_ this) offset) as [Heof | Hlt].
  - unfold Read. destruct (Z.leb_spec (file_size_ this) offset); [|lia].
    eff. f_equal. f_equal. rewrite drop_ge by lia. by rewrite take_nil.
  - destruct (Read_below_size this offset n w) as [HR _]; [lia..|].
    rewrite HR, Hstore. clear HR. simpl.
    set (n' := if file_size_ this <? offset + n
               then file_size_ this - offset else n).
    assert (Hn' : 0 <= n' /\ offset + n' <= file_size_ this /\
                  (n' = n \/ (n' = file_size_ this - offset /\ n' <= n))).
    { unfold n'. destruct (Z.ltb_spec (file_size_ this) (offset + n)); lia. }
    clearbody n'. unfold serve_range. simpl.
    destruct (Z.ltb_spec offset (Z.of_nat (length data))); [|lia].
    destruct (n' =? 0) eqn:E; simpl.
    + apply Z.eqb_eq in E.
      destruct (Z.leb_spec offset (offset + 1 - 1)); [|lia]. simpl.
      f_equal. destruct Hn' as (_ & _ & [Hn' | [Hn' _]]).
      * replace n with 0 by lia. reflexivity.
      * lia.
    + apply Z.eqb_neq in E.
      destruct (Z.leb_spec offset (offset + n' - 1)); [|lia]. simpl.
      f_equal. replace (offset + n' - 1 - offset + 1) with n' by lia.
      rewrite take_take, Nat.min_id.
      destruct Hn' as (_ & _ & [-> | [Hn' Hle]]); [reflexivity|].
      rewrite !take_ge; [reflexivity | |]; rewrite length_drop; lia.
Qed.

(** X1. Against a store that serves inclusive ranges of an object whose size
    is the size the reader knows, a read returns the bytes of the object from
    [offset], at most [n] of them: all of what was asked for inside the
    object, what remains across its end, nothing past it or for [n = 0]. *)
Theorem Read_returns_slice
    (this : S3ReadableFile) (offset n : Z) (w : World) (data : list byte)
    (Hoffset : 0 <= offset < 2 ^ 64)
    (Hn : 0 <= n <= 2 ^ 63 - 1)
    (Hsize : file_size_ this <= 2 ^ 63 - 1)
    (Hdata : Z.of_nat (length data) = file_size_ this)
    (Hstore : forall request,
        s3_GetObject (s3client_ this) request
        = serve_range data (get_Range request)) :
  fst (Read this offset n w)
  = (OK, take (Z.to_nat n) (drop (Z.to_nat offset) data)).
Proof. by apply Read_object_slice. Qed.

(** The five-byte object: two bytes from inside it, and a read across its
    end. *)
Lemma Read_returns_slice_witness :
  fst (Read example_reader 1 2 empty_world) = (OK, [x42; x43]) /\
  fst (Read example_reader 4 9 empty_world) = (OK, [x45]).
Proof.
  split.
  - apply (Read_returns_slice example_reader 1 2 empty_world
             [x41; x42; x43; x44; x45]);
      [lia | lia | simpl; lia | reflexivity | reflexivity].
  - apply (Read_returns_slice example_reader 4 9 empty_world
             [x41; x42; x43; x44; x45]);
      [lia | lia | simpl; lia | reflexivity | reflexivity].
Defined.

(** However the store answers, a read returns at most [n] bytes and none
    past the known size. *)
Lemma Read_length_bound this offset n w :
  0 <= offset < 2 ^ 64 ->
  0 <= n <= 2 ^ 63 - 1 ->
  file_size_ this <= 2 ^ 63 - 1 ->
  let result := snd (fst (Read this offset n w)) in
  Z.of_nat (length result) <= n /\
  (result = [] \/ offset + Z.of_nat (length result) <= file_size_ this).
Proof.
  intros Hoff Hn Hsize result. subst result.
  destruct (Z.le_gt_cases (file_size_ this) offset) as [Heof | Hlt].
  - unfold Read. destruct (Z.leb_spec (file_size_ this) offset); [|lia].
    eff. split; [lia | by left].
  - destruct (Read_below_size this offset n w) as [HR _]; [lia..|].
    rewrite HR. clear HR.
    destruct (s3_GetObject _ _) as [body|error]; simpl;
      [|split; [lia | by left]].
    destruct (Z.ltb_spec (file_size_ this) (offset + n)).
    + destruct (file_size_ this - offset =? 0); simpl;
        [split; [lia | by left]|].
      assert (H' := firstn_le_length (Z.to_nat (file_size_ this - offset)) body).
      split; [lia | right; lia].
    + destruct (n =? 0); simpl; [split; [lia | by left]|].
      assert (H' := firstn_le_length (Z.to_nat n) body).
      split; [lia | right; lia].
Qed.

(** X2. Whatever the store sends back, also more than was asked for, a read
    hands out at most [n] bytes and none that would lie past the size the
    reader knows. *)
Theorem Read_never_past_known_size
    (this : S3ReadableFile) (offset n : Z) (w : World)
    (Hoffset : 0 <= offset < 2 ^ 64)
    (Hn : 0 <= n <= 2 ^ 63 - 1)
    (Hsize : file_size_ this <= 2 ^ 63 - 1) :
  let result := snd (fst (Read this offset n w)) in
  Z.of_nat (length result) <= n /\
  (result = [] \/ offset + Z.of_nat (length result) <= file_size_ this).
Proof. by apply Read_length_bound. Qed.

(** X3. When the GET of a read below the known size fails, the read returns
    no bytes, and its status is not-found if the error is of a not-found kind
    or its message carries the text "Response code: 404", and an I/O error
    otherwise; both name the file and carry the store's message. *)
Theorem Read_failed_get_status
    (this : S3ReadableFile) (offset n : Z) (w : World) (error : AWSError)
    (Hoffset : 0 <= offset < file_size_ this)
    (Hn : 0 <= n <= 2 ^ 63 - 1)
    (Hsize : file_size_ this <= 2 ^ 63 - 1)
    (Hfail : forall request,
        s3_GetObject (s3client_ this) request = GetFailure error) :
  let not_found := S3IsNotFound (GetErrorType error)
                   || contains "Response code: 404" (GetMessage error) in
  fst (Read this offset n w)
  = (Err (if not_found then kNotFound else kIOError)
         (join_msg (r_fname_ this) (GetMessage error)), []).
Proof.
  intros not_found.
  destruct (Read_below_size this offset n w) as [HR _]; [lia..|].
  rewrite HR, Hfail. unfold read_failure. fold not_found.
  by destruct not_found.
Qed.

(** A store that sends eight bytes for every request, behind a reader that
    knows the object to have five: from offset 3 at most 2 come out. *)
Lemma Read_never_past_known_size_witness :
  let this := mkReadable "bucket" "db/000007.sst" 0 5 chatty_client in
  let result := snd (fst (Read this 3 10 empty_world)) in
  Z.of_nat (length result) <= 10 /\
  (result = [] \/ 3 + Z.of_nat (length result) <= 5).
Proof.
  intros this.
  apply (Read_never_past_known_size this 3 10 empty_world);
    [lia | lia | simpl; lia].
Defined.

(** The object is gone and the error says so only in its text. *)
Lemma Read_failed_get_status_witness :
  let this := mkReadable "bucket" "db/000007.sst" 0 5 gone_client in
  fst (Read this 3 10 empty_world)
  = (Err kNotFound
         "db/000007.sst: Unable to parse. Response code: 404", []).
Proof.
  intros this.
  apply (Read_failed_get_status this 3 10 empty_world
           (mkAWSError UNKNOWN "Unable to parse. Response code: 404"));
    [simpl; lia | lia | simpl; lia | reflexivity].
Defined.

(** ** The cursor of sequential reads *)

Lemma ReadSeq_unfold this n w :
  let r := Read this (offset_ this) n
                (mkWorld (fs w) (trace w ++ [EvLog DEBUG_LEVEL])) in
  fst (ReadSeq this n w)
  = (fst (fst r), snd (fst r),
     mkReadable (r_bucket_ this) (r_fname_ this)
       (if ok (fst (fst r))
        then wrap64 (offset_ this + Z.of_nat (length (snd (fst r))))
        else offset_ this)
       (file_size_ this) (s3client_ this)).
Proof.
  unfold ReadSeq. eff.
  by destruct (Read this (offset_ this) n _) as [[s result] w1].
Qed.

(** The bytes [DoCloudRead] leaves in [scratch]: none, or at most [n] for a
    count that [read] takes as it is. *)
Lemma DoCloudRead_length this offset n w :
  0 <= n < 2 ^ 64 ->
  let scratch := snd (fst (DoCloudRead this offset n w)) in
  scratch = [] \/
  (0 < n <= 2 ^ 63 - 1 /\ Z.of_nat (length scratch) <= n).
Proof.
  intros Hn. unfold DoCloudRead. rewrite snprintf_nonneg. eff.
  destruct (s3_GetObject _ _) as [body|error]; simpl.
  - destruct (n =? 0) eqn:E; simpl; [by left|]. apply Z.eqb_neq in E.
    destruct (Z.le_gt_cases n (2 ^ 63 - 1)) as [Hsmall | Hlarge].
    + right. rewrite streamsize_small by lia.
      assert (H' := firstn_le_length (Z.to_nat n) body). lia.
    + left. assert (H' := streamsize_large n). 
      replace (Z.to_nat (streamsize n)) with 0%nat by lia. reflexivity.
  - destruct (S3IsNotFound (GetErrorType error)
              || contains "Response code: 404" (GetMessage error)); by left.
Qed.

(** A read of any length, however the store answers, returns nothing or
    bytes that end inside the known size. *)
Lemma Read_in_file this offset n w :
  0 <= offset ->
  file_size_ this <= 2 ^ 63 - 1 ->
  0 <= n < 2 ^ 64 ->
  let result := snd (fst (Read this offset n w)) in
  result = [] \/ offset + Z.of_nat (length result) <= file_size_ this.
Proof.
  intros Hoff Hsize Hn. unfold Read.
  destruct (Z.leb_spec (file_size_ this) offset); [eff; by left|].
  set (trim := file_size_ this <? wrap64 (offset + n)).
  set (n' := if trim then wrap64 (file_size_ this - offset) else n).
  assert (Hrange : 0 <= n' < 2 ^ 64).
  { unfold n'. destruct trim; [|exact Hn]. rewrite wrap64_small; lia. }
  assert (Hn' : forall scratch : list byte,
             scratch = [] \/
             (0 < n' <= 2 ^ 63 - 1 /\ Z.of_nat (length scratch) <= n') ->
             scratch = [] \/
             offset + Z.of_nat (length scratch) <= file_size_ this).
  { intros scratch [-> | [H1 H2]]; [by left|]. right.
    unfold n', trim in H1, H2.
    destruct (Z.ltb_spec (file_size_ this) (wrap64 (offset + n))) as [Ht | Ht].
    - rewrite wrap64_small in H2 by lia. lia.
    - rewrite wrap64_small in Ht by lia. lia. }
  assert (HL := fun w' => DoCloudRead_length this offset n' w' Hrange).
  clearbody n'. eff.
  destruct trim; simpl;
    match goal with
    | |- context [DoCloudRead this offset n' ?w'] =>
        specialize (HL w');
        destruct (DoCloudRead this offset n' w') as [[st scratch] w1]
    end; simpl in *;
    (destruct (ok st); simpl; [by apply Hn' | by left]).
Qed.

Lemma apply_reader_op_cursor op this w :
  cursor_ok this ->
  in_range (file_size_ this) op ->
  let this' := fst (apply_reader_op op this w) in
  cursor_ok this' /\
  offset_ this <= offset_ this' /\
  file_size_ this' = file_size_ this /\
  r_bucket_ this' = r_bucket_ this /\
  r_fname_ this' = r_fname_ this /\
  s3client_ this' = s3client_ this.
Proof.
  intros [Hc Hs] Hn. destruct op as [n | n]; simpl in Hn; simpl.
  - assert (HU := ReadSeq_unfold this n w).
    unfold bind, ret. destruct (ReadSeq this n w) as [[[s result] this'] w'].
    simpl in HU. injection HU as Hs' Hres ->. simpl.
    assert (Hend := Read_in_file this (offset_ this) n
                      (mkWorld (fs w) (trace w ++ [EvLog DEBUG_LEVEL]))
                      ltac:(lia) Hs Hn).
    simpl in Hend. rewrite <- Hres in Hend. unfold cursor_ok. simpl.
    rewrite <- Hres, <- Hs'.
    destruct (ok s); [|repeat split; lia].
    rewrite wrap64_small.
    + destruct Hend as [-> | Hend]; simpl; repeat split; lia.
    + destruct Hend as [-> | Hend]; simpl; lia.
  - unfold Skip. eff. unfold cursor_ok. simpl.
    rewrite wrap64_small by lia.
    destruct (Z.ltb_spec (file_size_ this) (offset_ this + n));
      repeat split; lia.
Qed.

(** A skip whose length carries the cursor past 2^64 - 1 sets it back. *)
Lemma Skip_wraps this n w :
  cursor_ok this ->
  2 ^ 64 - offset_ this <= n < 2 ^ 64 ->
  offset_ (snd (fst (Skip this n w))) = offset_ this + n - 2 ^ 64.
Proof.
  intros [Hc Hsize] Hn. unfold Skip. eff.
  assert (Hw : wrap64 (offset_ this + n) = offset_ this + n - 2 ^ 64).
  { unfold wrap64. symmetry.
    apply (Z.mod_unique _ _ 1); lia. }
  rewrite Hw.
  destruct (Z.ltb_spec (file_size_ this) (offset_ this + n - 2 ^ 64));
    [lia | reflexivity].
Qed.

(** X4. Through any sequence of sequential reads, of any length, and of
    skips whose length does not carry the 64-bit cursor past 2^64 - 1,
    whatever the store answers, the cursor only moves forward and never
    leaves the file: it stays between where it was and the known size, and
    the reader keeps its bucket, its name, its size and its client.  The
    bound on the skips is needed: [Skip] adds its argument to the cursor
    with no check, so a skip from the cursor reached whose length does carry
    it past 2^64 - 1 wraps, and leaves the cursor before where it was. *)
Theorem reader_cursor_stays_in_file
    (ops : list ReaderOp) (this : S3ReadableFile) (w : World)
    (Hcursor : 0 <= offset_ this <= file_size_ this)
    (Hsize : file_size_ this <= 2 ^ 63 - 1)
    (Hops : Forall (in_range (file_size_ this)) ops) :
  let this' := fst (run_reader ops this w) in
  offset_ this <= offset_ this' <= file_size_ this /\
  file_size_ this' = file_size_ this /\
  r_bucket_ this' = r_bucket_ this /\
  r_fname_ this' = r_fname_ this /\
  s3client_ this' = s3client_ this /\
  (forall n w',
     2 ^ 64 - offset_ this' <= n < 2 ^ 64 ->
     let back := snd (fst (Skip this' n w')) in
     offset_ back = offset_ this' + n - 2 ^ 64 /\
     offset_ back < offset_ this').
Proof.
  assert (Hok : cursor_ok this) by (by split).
  clear Hcursor Hsize.
  assert (Hrun : let this' := fst (run_reader ops this w) in
                 offset_ this <= offset_ this' <= file_size_ this /\
                 file_size_ this' = file_size_ this /\
                 r_bucket_ this' = r_bucket_ this /\
                 r_fname_ this' = r_fname_ this /\
                 s3client_ this' = s3client_ this).
  { revert this w Hok Hops.
    induction ops as [|op ops IH]; intros this w Hok Hops; simpl.
    - destruct Hok as [Hc _]. repeat split; lia.
    - apply Forall_cons in Hops as [Hop Hops].
      destruct (apply_reader_op_cursor op this w Hok Hop)
        as (Hok' & Hmono & Hs & Hb & Hf & Hcl).
      destruct (apply_reader_op op this w) as [this1 w1]. simpl in *.
      rewrite <- Hs in Hops.
      destruct (IH this1 w1 Hok' Hops) as (Hc & Hs' & Hb' & Hf' & Hcl').
      repeat split; try congruence; lia. }
  intros this'. destruct Hrun as (Hc & Hs & Hb & Hf & Hcl). fold this' in Hc, Hs.
  split; [exact Hc|]. split; [exact Hs|]. split; [exact Hb|].
  split; [exact Hf|]. split; [exact Hcl|].
  intros n w' Hn back. subst back.
  destruct Hok as [Hc0 Hsize].
  rewrite Skip_wraps; [split; lia | | exact Hn].
  unfold cursor_ok. rewrite Hs. lia.
Qed.

(** A skip, a read across the end of the five-byte object and a skip far
    past it leave the cursor at the end, 5; a skip of 2^64 - 1 from there
    sets it back to 4. *)
Lemma reader_cursor_stays_in_file_witness :
  let this' := fst (run_reader [RdSkip 2; RdRead 10; RdSkip 1000]
                               example_reader empty_world) in
  0 <= offset_ this' <= 5 /\
  offset_ (snd (fst (Skip this' (2 ^ 64 - 1) empty_world))) = offset_ this' - 1.
Proof.
  intros this'.
  destruct (reader_cursor_stays_in_file [RdSkip 2; RdRead 10; RdSkip 1000]
              example_reader empty_world) as (H & _ & _ & _ & _ & Hback).
  - simpl. lia.
  - simpl. lia.
  - repeat constructor; simpl; lia.
  - fold this' in H, Hback. split; [exact H|].
    assert (Hv : offset_ this' = 5) by (vm_compute; reflexivity).
    destruct (Hback (2 ^ 64 - 1) empty_world) as [Heq _]; [lia|].
    rewrite Heq. lia.
Defined.

(** X5. Two sequential reads against a store that serves the object give,
    one after the other, the bytes a single read of both lengths gives, and
    leave the cursor behind the last byte returned. *)
Theorem sequential_reads_concatenate
    (this : S3ReadableFile) (n1 n2 : Z) (w : World) (data : list byte)
    (Hcursor : 0 <= offset_ this <= file_size_ this)
    (Hn1 : 0 <= n1 <= 2 ^ 63 - 1)
    (Hn2 : 0 <= n2 <= 2 ^ 63 - 1)
    (Hsize : file_size_ this <= 2 ^ 63 - 1)
    (Hdata : Z.of_nat (length data) = file_size_ this)
    (Hstore : forall request,
        s3_GetObject (s3client_ this) request
        = serve_range data (get_Range request)) :
  let first := ReadSeq this n1 w in
  let second := ReadSeq (snd (fst first)) n2 (snd first) in
  fst (fst (fst first)) = OK /\
  fst (fst (fst second)) = OK /\
  snd (fst (fst first)) ++ snd (fst (fst second))
  = take (Z.to_nat n1 + Z.to_nat n2) (drop (Z.to_nat (offset_ this)) data) /\
  offset_ (snd (fst second))
  = offset_ this
    + Z.of_nat (length (snd (fst (fst first)) ++ snd (fst (fst second)))).
Proof.
  intros first second.
  assert (H1 := ReadSeq_unfold this n1 w). fold first in H1. simpl in H1.
  rewrite (Read_object_slice this (offset_ this) n1 _ data) in H1
    by (assumption || lia).
  simpl in H1.
  set (r1 := take (Z.to_nat n1) (drop (Z.to_nat (offset_ this)) data)) in *.
  assert (Hlen1 : Z.of_nat (length r1) <= file_size_ this - offset_ this).
  { unfold r1. rewrite length_take, length_drop. lia. }
  rewrite wrap64_small in H1 by lia.
  set (this1 := mkReadable (r_bucket_ this) (r_fname_ this)
                  (offset_ this + Z.of_nat (length r1)) (file_size_ this)
                  (s3client_ this)) in *.
  assert (H2 := ReadSeq_unfold this1 n2 (snd first)). cbv zeta in H2.
  rewrite (Read_object_slice this1 (offset_ this1) n2 _ data) in H2
    by (simpl; assumption || lia).
  simpl in H2.
  set (r2 := take (Z.to_nat n2)
               (drop (Z.to_nat (offset_ this + Z.of_nat (length r1))) data))
    in *.
  assert (Hr2 : r2 = take (Z.to_nat n2)
                       (drop (Z.to_nat n1) (drop (Z.to_nat (offset_ this)) data))).
  { unfold r2. rewrite drop_drop.
    destruct (Z.le_gt_cases n1 (file_size_ this - offset_ this)) as [Hin | Hout].
    - f_equal. f_equal. unfold r1. rewrite length_take, length_drop. lia.
    - rewrite !drop_ge; [reflexivity | lia |].
      unfold r1. rewrite length_take, length_drop. lia. }
  assert (Hlen2 : Z.of_nat (length (r1 ++ r2))
                  <= file_size_ this - offset_ this).
  { rewrite Hr2. unfold r1. rewrite take_take_drop, length_take, length_drop.
    lia. }
  rewrite wrap64_small in H2 by (rewrite length_app in Hlen2; lia).
  assert (Hfirst : snd (fst first) = this1) by (by rewrite H1).
  unfold second. rewrite Hfirst, H2, H1. simpl.
  repeat split.
  - rewrite Hr2. unfold r1. apply take_take_drop.
  - rewrite length_app. lia.
Qed.

(** The five-byte object read in two steps of 2 and 9 bytes from offset 1. *)
Lemma sequential_reads_concatenate_witness :
  let this := mkReadable "bucket" "db/000007.sst" 1 5
                (object_client [x41; x42; x43; x44; x45]) in
  let first := ReadSeq this 2 empty_world in
  let second := ReadSeq (snd (fst first)) 9 (snd first) in
  snd (fst (fst first)) ++ snd (fst (fst second)) = [x42; x43; x44; x45] /\
  offset_ (snd (fst second)) = 5.
Proof.
  intros this first second.
  destruct (sequential_reads_concatenate this 2 9 empty_world
              [x41; x42; x43; x44; x45]) as (_ & _ & H3 & H4);
    [simpl; lia | lia | lia | simpl; lia | reflexivity | reflexivity |].
  fold first second in H3, H4. split.
  - exact H3.
  - rewrite H4, H3. reflexivity.
Defined.

(** ** More on the writer *)

Lemma Close_handle inj this w :
  snd (fst (Close inj this w)) = this \/
  local_file_ (snd (fst (Close inj this w))) = None.
Proof.
  unfold Close. destruct (local_file_ this) as [h|] eqn:Hopen; [|by left].
  prims. destruct (inj_close inj); simpl; [|by left]. right.
  destruct (is_manifest_ this); simpl; [reflexivity|].
  destruct (inj_copy inj); simpl; [|reflexivity].
  destruct (keep_local_sst_files (env_ this)); simpl; [reflexivity|].
  destruct (inj_delete inj); simpl; [|reflexivity].
  destruct (dir (fs w) !! fname_ this); reflexivity.
Qed.

Lemma apply_op_open_means_ok op this w :
  open_means_ok this -> open_means_ok (fst (apply_op op this w)).
Proof.
  intros Hok. destruct op as [inj data | inj | inj]; simpl; unfold bind, ret.
  - by destruct (Append inj data this w).
  - destruct (Sync_effect inj this w) as (_ & _ & [(H & _) | (_ & H & _)]);
      destruct (Sync inj this w) as [[st this'] w']; simpl in *; subst this';
      [assumption|]. intros h Hh. simpl in Hh. by apply (Hok h).
  - destruct (Close_handle inj this w) as [H | H];
      destruct (Close inj this w) as [[st this'] w']; simpl in *.
    + by subst this'.
    + intros h Hh. congruence.
Qed.

Lemma open_local_file_status
    (inj : Faults) (file_to_open : string) (this : CloudStorageWritableFile)
    (w : World) :
  status_ this = OK ->
  local_file_ this = None ->
  let r := open_local_file inj file_to_open this w in
  status_ (fst r) = OK <-> is_Some (local_file_ (fst r)).
Proof.
  intros Hst Hnone. unfold open_local_file. prims.
  destruct (inj_open inj); simpl.
  - destruct (dir (fs w) !! file_to_open); simpl; rewrite Hst;
      (split; [by eexists | done]).
  - rewrite Hnone. split; [discriminate | by intros [? ?]].
Qed.

(** X6. What the [assert(status_.ok())] of [Close] and [Sync] rely on holds:
    a writer comes out of its constructor with a handle exactly when its
    status is OK, and through any appends, syncs and closes, whatever fails, a
    writer that still has its handle has status OK. *)
Theorem writer_with_handle_has_no_failure
    (RemoveEpoch : string -> string) (IsManifestFile : string -> bool)
    (inj0 : Faults) (env : CloudEnv) (fname bucket cloud_fname : string)
    (ops : list WriterOp) (w0 : World) :
  let opened := new_CloudStorageWritableFile RemoveEpoch IsManifestFile inj0
                  env fname bucket cloud_fname w0 in
  (status_ (fst opened) = OK <-> is_Some (local_file_ (fst opened))) /\
  forall s, s ∈ opened :: lifecycle ops (fst opened) (snd opened) ->
            forall h, local_file_ (fst s) = Some h -> status_ (fst s) = OK.
Proof.
  intros opened.
  assert (Hctor : status_ (fst opened) = OK <->
                  is_Some (local_file_ (fst opened))).
  { unfold opened, new_CloudStorageWritableFile. unfold FileExists. eff.
    destruct (IsManifestFile (RemoveEpoch fname)); simpl;
      [|by apply open_local_file_status].
    destruct (inj_exists inj0) as [|c m]; simpl.
    - destruct (file_present (fs w0) fname); simpl;
        by apply open_local_file_status.
    - destruct c; simpl;
        try (split; [discriminate | by intros [? ?]]);
        by apply open_local_file_status. }
  split; [exact Hctor|].
  assert (Hinv : open_means_ok (fst opened)).
  { intros h Hh. apply Hctor. by eexists. }
  clearbody opened. clear Hctor.
  destruct opened as [this w]. simpl in *.
  intros s Hin. apply elem_of_cons in Hin as [-> | Hin]; [exact Hinv|].
  revert this w Hinv Hin.
  induction ops as [|op ops IH]; intros this w Hinv Hin; simpl in Hin;
    [by apply elem_of_nil in Hin|].
  assert (Hstep := apply_op_open_means_ok op this w Hinv).
  destruct (apply_op op this w) as [this' w']. simpl in Hstep.
  apply elem_of_cons in Hin as [-> | Hin]; [exact Hstep|].
  by apply (IH this' w').
Qed.

(** The manifest writer of the examples has its handle, so its status is
    OK. *)
Lemma writer_with_handle_has_no_failure_witness :
  status_ (fst example_writer) = OK.
Proof.
  destruct (writer_with_handle_has_no_failure (fun s => s) (fun _ => true)
              no_faults (mkCloudEnv false) "MANIFEST-000001" "bucket"
              "db/MANIFEST-000001" [] example_world) as [_ H].
  apply (H example_writer (list_elem_of_here _ _)
           (fresh_inode (fs example_world))).
  reflexivity.
Defined.

(** X7. Closing a table file whose local close succeeds: the file is pushed
    to the bucket once; the local copy is deleted only after a successful
    push and only when local copies are not kept; the handle is released in
    every case; and the status returned, which is the push's failure, else
    the delete's outcome, else OK, is also the status the writer stores. *)
Theorem Close_table_file_pushes_then_deletes
    (inj : Faults) (this : CloudStorageWritableFile) (w : World) (h : nat)
    (Htable : is_manifest_ this = false)
    (Hopen : local_file_ this = Some h)
    (Hclose : inj_close inj = OK)
    (Hfile : file_present (fs w) (fname_ this) = true) :
  let r := Close inj this w in
  let pushed := ok (inj_copy inj) in
  let keep := keep_local_sst_files (env_ this) in
  fst (fst r) = (if pushed then if keep then OK else inj_delete inj
                 else inj_copy inj) /\
  status_ (snd (fst r)) = fst (fst r) /\
  local_file_ (snd (fst r)) = None /\
  file_present (fs (snd r)) (fname_ this)
  = negb (pushed && negb keep && ok (inj_delete inj)) /\
  List.filter is_remote (trace (snd r))
  = List.filter is_remote (trace w)
    ++ [EvCopyLocalFileToDest (fname_ this) (cloud_fname_ this)].
Proof.
  unfold Close. rewrite Hopen. prims. rewrite Hclose, Htable. simpl.
  unfold file_present in Hfile.
  destruct (dir (fs w) !! fname_ this) as [i|] eqn:Hdir; [|discriminate].
  destruct (inj_copy inj); simpl.
  - destruct (keep_local_sst_files (env_ this)); simpl.
    + unfold file_present. rewrite Hdir.
      repeat split. rewrite !List.filter_app. simpl. by rewrite !app_nil_r.
    + destruct (inj_delete inj); simpl; rewrite ?Hdir; simpl;
        unfold file_present; simpl; rewrite ?lookup_delete_eq, ?Hdir;
        repeat split; rewrite !List.filter_app; simpl; by rewrite !app_nil_r.
  - unfold file_present. rewrite Hdir.
    repeat split. rewrite !List.filter_app. simpl. by rewrite !app_nil_r.
Qed.

(** The push of the three-byte table file fails: the file stays; it
    succeeds: the file is deleted, unless local copies are kept. *)
Lemma Close_table_file_pushes_then_deletes_witness :
  file_present
    (fs (snd (Close upload_fails (example_table_writer false)
                    example_table_world))) "000007.sst" = true /\
  file_present
    (fs (snd (Close no_faults (example_table_writer false)
                    example_table_world))) "000007.sst" = false /\
  file_present
    (fs (snd (Close no_faults (example_table_writer true)
                    example_table_world))) "000007.sst" = true.
Proof.
  split; [|split].
  - destruct (Close_table_file_pushes_then_deletes upload_fails
                (example_table_writer false) example_table_world 0%nat)
      as (_ & _ & _ & H & _); [reflexivity..|]. exact H.
  - destruct (Close_table_file_pushes_then_deletes no_faults
                (example_table_writer false) example_table_world 0%nat)
      as (_ & _ & _ & H & _); [reflexivity..|]. exact H.
  - destruct (Close_table_file_pushes_then_deletes no_faults
                (example_table_writer true) example_table_world 0%nat)
      as (_ & _ & _ & H & _); [reflexivity..|]. exact H.
Defined.

(** X8. Closing a manifest writer closes the local file and nothing more:
    no push to the bucket, no delete, no change to any local file; the
    status returned is that of the local close. *)
Theorem Close_manifest_is_local
    (inj : Faults) (this : CloudStorageWritableFile) (w : World) (h : nat)
    (Hmanifest : is_manifest_ this = true)
    (Hopen : local_file_ this = Some h) :
  let r := Close inj this w in
  fst (fst r) = inj_close inj /\
  fs (snd r) = fs w /\
  trace (snd r)
  = trace w ++ [EvLog DEBUG_LEVEL; EvLocalClose h]
            ++ (if ok (inj_close inj) then [] else [EvLog ERROR_LEVEL]).
Proof.
  unfold Close. rewrite Hopen. prims. rewrite Hmanifest.
  destruct (inj_close inj); simpl; repeat split;
    by rewrite <- ?app_assoc.
Qed.

(** The manifest of the examples is closed while the local close fails. *)
Lemma Close_manifest_is_local_witness :
  let (this, w) := example_writer in
  fst (fst (Close close_fails this w)) = IOError "close failed" /\
  fs (snd (Close close_fails this w)) = fs w.
Proof.
  destruct example_writer as [this w] eqn:E.
  assert (Hthis : this = fst example_writer) by (by rewrite E).
  assert (H := Close_manifest_is_local close_fails this w
                 (fresh_inode (fs example_world))).
  destruct H as (H1 & H2 & _).
  - by subst this.
  - by subst this.
  - by split.
Defined.

(** A failed local close leaves the writer open, so that [Close] can be
    called again; a later call that succeeds releases the handle. *)
Lemma Close_releases_handle_witness :
  local_file_ (snd (fst (Close close_fails (example_table_writer false)
                               example_table_world))) = Some 0%nat /\
  local_file_ (snd (fst (Close no_faults (example_table_writer false)
                               example_table_world))) = None.
Proof.
  split.
  - exact (Close_releases_handle close_fails (example_table_writer false)
             example_table_world 0%nat eq_refl).
  - exact (Close_releases_handle no_faults (example_table_writer false)
             example_table_world 0%nat eq_refl).
Defined.

Section MoreOpening.

Variable RemoveEpoch : string -> string.
Variable IsManifestFile : string -> bool.

(** A writer for a table file has no side file. *)
Lemma open_table_file inj env fname bucket cloud_fname w0 :
  IsManifestFile (RemoveEpoch fname) = false ->
  let this := fst (new_CloudStorageWritableFile RemoveEpoch IsManifestFile
                     inj env fname bucket cloud_fname w0) in
  is_manifest_ this = false /\ tmp_file_ this = "".
Proof.
  intros Htable. unfold new_CloudStorageWritableFile, open_local_file.
  prims. rewrite Htable. simpl.
  destruct (inj_open inj); simpl; [destruct (dir (fs w0) !! fname)|];
    split; reflexivity.
Qed.

(** Opening a writer on a manifest that is not there yet opens the manifest
    itself. *)
Lemma open_new_manifest inj env fname bucket cloud_fname w0 :
  IsManifestFile (RemoveEpoch fname) = true ->
  file_present (fs w0) fname = false ->
  inj_exists inj = OK ->
  inj_open inj = OK ->
  let opened := new_CloudStorageWritableFile RemoveEpoch IsManifestFile
                  inj env fname bucket cloud_fname w0 in
  direct fname [] (fst opened) (snd opened) /\
  renames (trace (snd opened)) = renames (trace w0).
Proof.
  intros Hman Habsent Hex Hop.
  unfold new_CloudStorageWritableFile, open_local_file.
  prims. rewrite Hman, Hex. simpl. rewrite Habsent. simpl. rewrite Hop.
  unfold file_present in Habsent.
  destruct (dir (fs w0) !! fname) eqn:Hdir; [discriminate|]. simpl.
  split.
  - repeat split. exists (fresh_inode (fs w0)). simpl.
    repeat split; by rewrite lookup_insert_eq.
  - unfold renames. rewrite !List.filter_app. simpl. by rewrite !app_nil_r.
Qed.

End MoreOpening.

(** X9. [Sync] on the writer of a table file is the local flush and nothing
    else: it returns the flush's status, renames nothing, pushes nothing to
    the bucket and leaves the writer and the local files as they are. *)
Theorem Sync_table_file_is_local
    (RemoveEpoch : string -> string) (IsManifestFile : string -> bool)
    (inj0 inj : Faults) (env : CloudEnv) (fname bucket cloud_fname : string)
    (w0 w : World)
    (Htable : IsManifestFile (RemoveEpoch fname) = false) :
  let this := fst (new_CloudStorageWritableFile RemoveEpoch IsManifestFile
                     inj0 env fname bucket cloud_fname w0) in
  let r := Sync inj this w in
  snd (fst r) = this /\
  fs (snd r) = fs w /\
  List.filter is_remote (trace (snd r)) = List.filter is_remote (trace w) /\
  renames (trace (snd r)) = renames (trace w) /\
  (forall h, local_file_ this = Some h -> fst (fst r) = inj_sync inj).
Proof.
  intros this r.
  destruct (open_table_file RemoveEpoch IsManifestFile inj0 env fname bucket
              cloud_fname w0 Htable) as [Hman Htmp].
  fold this in Hman, Htmp. unfold r. clear r. clearbody this. unfold Sync.
  destruct (local_file_ this) as [h|]; [|by repeat split].
  prims. rewrite Htmp. simpl. rewrite andb_false_r. simpl. rewrite Hman.
  simpl.
  unfold renames. rewrite !List.filter_app. simpl. rewrite !app_nil_r.
  repeat split.
Qed.

(** A table file is opened and synced while the flush fails. *)
Lemma Sync_table_file_is_local_witness :
  let this := fst (new_CloudStorageWritableFile (fun s => s) (fun _ => false)
                     no_faults (mkCloudEnv false) "000007.sst" "bucket"
                     "db/000007.sst" empty_world) in
  fst (fst (Sync (mkFaults OK OK OK (IOError "flush failed") OK OK OK OK OK)
                 this empty_world))
  = IOError "flush failed".
Proof.
  intros this.
  destruct (Sync_table_file_is_local (fun s => s) (fun _ => false) no_faults
              (mkFaults OK OK OK (IOError "flush failed") OK OK OK OK OK)
              (mkCloudEnv false) "000007.sst" "bucket" "db/000007.sst"
              empty_world empty_world eq_refl) as (_ & _ & _ & _ & H).
  exact (H (fresh_inode (fs empty_world)) eq_refl).
Defined.

Lemma Append_direct fname acc inj data this w :
  inj_append inj = OK ->
  direct fname acc this w ->
  direct fname (acc ++ data) this (snd (Append inj data this w)) /\
  renames (trace (snd (Append inj data this w))) = renames (trace w).
Proof.
  intros Hinj (Htmp & Hname & h & Hopen & Hdir & Hacc).
  rewrite Append_effect by assumption. rewrite Hopen. simpl. split.
  - repeat split; try assumption. exists h. simpl.
    repeat split; try assumption. by rewrite lookup_alter_eq, Hacc.
  - rewrite renames_app. simpl. by rewrite app_nil_r.
Qed.

Lemma writes_direct fname chunks :
  forall acc this w,
  direct fname acc this w ->
  let written := run_ops (map (OpAppend no_faults) chunks) this w in
  fst written = this /\
  direct fname (acc ++ concat chunks) this (snd written) /\
  renames (trace (snd written)) = renames (trace w).
Proof.
  induction chunks as [|data chunks IH]; intros acc this w Hd; simpl.
  - by rewrite app_nil_r.
  - change (bind (Append no_faults data this) (fun _ => ret this) w)
      with (apply_op (OpAppend no_faults data) this w).
    rewrite apply_append.
    destruct (Append_direct fname acc no_faults data this w eq_refl Hd)
      as [Hd' Hr'].
    destruct (IH _ _ _ Hd') as (Hthis & Hend & Hr).
    split; [exact Hthis|]. split; [by rewrite app_assoc | congruence].
Qed.

(** X10. A manifest that does not exist locally yet is written in place:
    the writer opens the manifest itself, so after each piece written the
    manifest holds all the pieces so far, and a [Sync] after them leaves it
    holding everything written and renames nothing. *)
Theorem new_manifest_is_written_in_place
    (RemoveEpoch : string -> string) (IsManifestFile : string -> bool)
    (inj0 : Faults) (env : CloudEnv) (fname bucket cloud_fname : string)
    (w0 : World) (chunks : list (list byte))
    (Hmanifest : IsManifestFile (RemoveEpoch fname) = true)
    (Habsent : file_present (fs w0) fname = false)
    (Hexists : inj_exists inj0 = OK)
    (Hopen : inj_open inj0 = OK) :
  let opened := new_CloudStorageWritableFile RemoveEpoch IsManifestFile inj0
                  env fname bucket cloud_fname w0 in
  tmp_file_ (fst opened) = "" /\
  (forall k,
     read_file
       (fs (snd (run_ops (map (OpAppend no_faults) (take k chunks))
                         (fst opened) (snd opened)))) fname
     = Some (concat (take k chunks))) /\
  (forall inj,
     let synced := run_ops (map (OpAppend no_faults) chunks ++ [OpSync inj])
                           (fst opened) (snd opened) in
     read_file (fs (snd synced)) fname = Some (concat chunks) /\
     renames (trace (snd synced)) = renames (trace w0)).
Proof.
  intros opened.
  destruct (open_new_manifest RemoveEpoch IsManifestFile inj0 env fname
              bucket cloud_fname w0 Hmanifest Habsent Hexists Hopen)
    as [Hd Hr]. fold opened in Hd, Hr.
  split; [by destruct Hd|]. split.
  - intros k.
    destruct (writes_direct fname (take k chunks) [] _ _ Hd)
      as (_ & (_ & _ & h & _ & Hdir & Hacc) & _).
    unfold read_file. by rewrite Hdir.
  - intros inj synced.
    destruct (writes_direct fname chunks [] _ _ Hd)
      as (Hthis & (Htmp & Hname & h & Hh & Hdir & Hacc) & Hr').
    assert (Hrun : forall ops1 ops2 this w,
              run_ops (ops1 ++ ops2) this w
              = run_ops ops2 (fst (run_ops ops1 this w))
                             (snd (run_ops ops1 this w))).
    { induction ops1 as [|op ops1 IH]; intros ops2 this w; simpl;
        [reflexivity|].
      destruct (apply_op op this w) as [this' w']. apply IH. }
    unfold synced. rewrite Hrun, Hthis. simpl. unfold bind, ret.
    destruct (Sync_effect inj (fst opened)
                (snd (run_ops (map (OpAppend no_faults) chunks)
                              (fst opened) (snd opened))))
      as (evs & Htr & Heff).
    destruct (Sync inj _ _) as [[st this'] w']. simpl in *.
    destruct Heff as [(_ & Hfs & Hevs) | (Hne & _)].
    + split.
      * rewrite Hfs. unfold read_file. by rewrite Hdir.
      * rewrite Htr, renames_app, Hevs, app_nil_r. congruence.
    + rewrite Htmp in Hne. discriminate.
Qed.

(** A first manifest is written in two pieces and synced. *)
Lemma new_manifest_is_written_in_place_witness :
  let opened := new_CloudStorageWritableFile (fun s => s) (fun _ => true)
                  no_faults (mkCloudEnv false) "MANIFEST-000001" "bucket"
                  "db/MANIFEST-000001" empty_world in
  read_file
    (fs (snd (run_ops (map (OpAppend no_faults) (take 1 [[x42]; [x43]]))
                      (fst opened) (snd opened)))) "MANIFEST-000001"
  = Some [x42] /\
  read_file
    (fs (snd (run_ops (map (OpAppend no_faults) [[x42]; [x43]]
                       ++ [OpSync upload_fails])
                      (fst opened) (snd opened)))) "MANIFEST-000001"
  = Some [x42; x43].
Proof.
  intros opened.
  destruct (new_manifest_is_written_in_place (fun s => s) (fun _ => true)
              no_faults (mkCloudEnv false) "MANIFEST-000001" "bucket"
              "db/MANIFEST-000001" empty_world [[x42]; [x43]]
              eq_refl eq_refl eq_refl eq_refl) as (_ & H1 & H2).
  split; [exact (H1 1%nat) | exact (proj1 (H2 upload_fails))].
Defined.

(** ** More on GetObject and PutObject *)

Lemma read_file_write_other fname other content lfs :
  fname <> other ->
  (forall i, dir lfs !! other = Some i -> dir lfs !! fname <> Some i) ->
  read_file (write_file fname content lfs) other = read_file lfs other.
Proof.
  intros Hne Hlink. unfold read_file, write_file.
  destruct (dir lfs !! fname) as [j|] eqn:Hj; simpl.
  - destruct (dir lfs !! other) as [i|] eqn:Hi; [|reflexivity].
    rewrite lookup_insert_ne; [reflexivity|]. intros ->. by apply (Hlink i).
  - rewrite lookup_insert_ne by assumption.
    destruct (dir lfs !! other) as [i|] eqn:Hi; [|reflexivity].
    rewrite lookup_insert_ne; [reflexivity|].
    intros Heq. unfold fresh_inode in Heq.
    assert (Hin : i ∈ (map_img (dir lfs) : gset nat) ∪ dom (inodes lfs)).
    { apply elem_of_union. left. by apply (elem_of_map_img_2 _ other). }
    rewrite <- Heq in Hin. by apply is_fresh in Hin.
Qed.

Lemma read_file_delete_other fname other d ino :
  fname <> other ->
  read_file (mkFS (delete fname d) ino) other = read_file (mkFS d ino) other.
Proof. intros Hne. unfold read_file. simpl. by rewrite lookup_delete_ne. Qed.

(** The local files once the transfer of a download is over. *)
Lemma GetObject_cases dl up inj bucket_name object_path local_destination w :
  let tmp := local_destination +:+ ".tmp" in
  let lfs1 := match dl_written dl with
              | Some content => write_file tmp content (fs w)
              | None => fs w
              end in
  let r := GetObject (H := S3StorageProvider dl up) inj bucket_name
                     object_path local_destination w in
  (ok (fst r) = false /\
   (fs (snd r) = lfs1 \/
    fs (snd r) = mkFS (delete tmp (dir lfs1)) (inodes lfs1))) \/
  (ok (fst r) = true /\
   dl_error dl = None /\
   exists i content,
     dir lfs1 !! tmp = Some i /\
     inodes lfs1 !! i = Some content /\
     Z.of_nat (length content) = dl_size dl /\
     fs (snd r) = mkFS (<[local_destination := i]> (delete tmp (dir lfs1)))
                       (inodes lfs1)).
Proof.
  intros tmp lfs1 r. subst lfs1 r.
  unfold GetObject. simpl. unfold S3DoGetObject. prims. fold tmp.
  destruct (dl_written dl) as [written|]; simpl;
    [set (lfs := write_file tmp written (fs w)) | set (lfs := fs w)];
    clearbody lfs;
    (destruct (dl_error dl) as [error|]; simpl;
     [ left; destruct (S3IsNotFound (GetErrorType error)); simpl;
       destruct (inj_delete inj); simpl;
       try destruct (dir lfs !! tmp); simpl; (split; [reflexivity | auto])
     | destruct (inj_size inj); simpl;
       [|left; split; [reflexivity | by left]];
       unfold read_file; simpl;
       destruct (dir lfs !! tmp) as [i|] eqn:Hi; simpl;
       [|left; split; [reflexivity | by left]];
       destruct (inodes lfs !! i) as [content|] eqn:Hc; simpl;
       [|left; split; [reflexivity | by left]];
       destruct (Z.eqb_spec (Z.of_nat (length content)) (dl_size dl)); simpl;
       [ destruct (inj_rename inj); simpl; rewrite ?Hi; simpl;
         [ right; split; [reflexivity|]; split; [reflexivity|];
           exists i, content; by repeat split
         | left; split; [reflexivity | by left] ]
       | left; destruct (inj_delete inj); simpl; rewrite ?Hi; simpl;
         (split; [reflexivity | auto]) ] ]).
Qed.

(** X11. When [GetObject] fails, on whatever path and whatever else fails
    with it, the file at the destination is what it was before the call: a
    failed download never leaves a part of the object there. *)
Theorem GetObject_failure_keeps_destination
    (dl : Download) (up : AwsS3Uploader) (inj : Faults)
    (bucket_name object_path local_destination : string) (w : World)
    (Hlink : forall i,
        dir (fs w) !! local_destination = Some i ->
        dir (fs w) !! (local_destination +:+ ".tmp") <> Some i) :
  let r := GetObject (H := S3StorageProvider dl up) inj bucket_name
                     object_path local_destination w in
  ok (fst r) = false ->
  read_file (fs (snd r)) local_destination
  = read_file (fs w) local_destination.
Proof.
  intros r Hfail.
  assert (Hne := side_file_differs local_destination).
  destruct (GetObject_cases dl up inj bucket_name object_path
              local_destination w) as [[_ Hfs] | [Hok _]];
    fold r in Hfs || fold r in Hok; [|congruence].
  assert (H1 : read_file
                 (match dl_written dl with
                  | Some content =>
                      write_file (local_destination +:+ ".tmp") content (fs w)
                  | None => fs w
                  end) local_destination
               = read_file (fs w) local_destination).
  { destruct (dl_written dl); [|reflexivity].
    by apply read_file_write_other. }
  destruct Hfs as [-> | ->]; [exact H1|].
  rewrite read_file_delete_other by assumption. rewrite <- H1.
  by destruct (match dl_written dl with Some _ => _ | None => _ end).
Qed.

(** X12. When [GetObject] succeeds after the transfer wrote the staging
    file, the transfer reported no error, the length of what it wrote is the
    size the store reported, the destination holds exactly those bytes, and
    the staging file is gone. *)
Theorem GetObject_success_is_complete
    (dl : Download) (up : AwsS3Uploader) (inj : Faults)
    (bucket_name object_path local_destination : string) (w : World)
    (content : list byte)
    (Hwritten : dl_written dl = Some content) :
  let r := GetObject (H := S3StorageProvider dl up) inj bucket_name
                     object_path local_destination w in
  ok (fst r) = true ->
  dl_error dl = None /\
  Z.of_nat (length content) = dl_size dl /\
  read_file (fs (snd r)) local_destination = Some content /\
  file_present (fs (snd r)) (local_destination +:+ ".tmp") = false.
Proof.
  intros r Hok.
  assert (Hne := side_file_differs local_destination).
  destruct (GetObject_cases dl up inj bucket_name object_path
              local_destination w)
    as [[Hfail _] | (_ & Herr & i & c & Hi & Hc & Hlen & Hfs)];
    fold r in Hfail || fold r in Hfs; [congruence|].
  rewrite Hwritten in Hi, Hc, Hfs.
  assert (Hr := read_file_write_file (local_destination +:+ ".tmp") content
                  (fs w)).
  unfold read_file in Hr. rewrite Hi, Hc in Hr. injection Hr as ->.
  repeat split; try assumption.
  - rewrite Hfs. unfold read_file. simpl. by rewrite lookup_insert_eq.
  - rewrite Hfs. unfold file_present. simpl.
    by rewrite lookup_insert_ne, lookup_delete_eq.
Qed.

(** A short download over an older copy: the call fails and the older copy
    is still there. *)
Lemma GetObject_failure_keeps_destination_witness :
  read_file
    (fs (snd (GetObject (H := S3StorageProvider short_download plain_uploader)
                no_faults "bucket" "db/000009.sst" "000009.sst"
                example_download_world))) "000009.sst"
  = Some [x4f; x4c; x44].
Proof.
  apply (GetObject_failure_keeps_destination short_download plain_uploader no_faults
           "bucket" "db/000009.sst" "000009.sst" example_download_world).
  - intros i _. vm_compute. discriminate.
  - reflexivity.
Defined.

(** A full download over the older copy replaces it. *)
Lemma GetObject_success_is_complete_witness :
  let r := GetObject (H := S3StorageProvider full_download plain_uploader)
             no_faults "bucket" "db/000009.sst" "000009.sst"
             example_download_world in
  read_file (fs (snd r)) "000009.sst" = Some [x41; x42; x43] /\
  file_present (fs (snd r)) "000009.sst.tmp" = false.
Proof.
  intros r.
  destruct (GetObject_success_is_complete full_download plain_uploader no_faults
              "bucket" "db/000009.sst" "000009.sst" example_download_world
              [x41; x42; x43] eq_refl eq_refl) as (_ & _ & H1 & H2).
  by split.
Defined.

(** A transfer of two bytes for an object of three. *)
Lemma GetObject_size_mismatch_deletes_witness :
  let r := GetObject (H := S3StorageProvider short_download plain_uploader)
             no_faults "bucket" "db/000009.sst" "000009.sst"
             example_download_world in
  fst r = IOError "Partial download of a file 000009.sst" /\
  file_present (fs (snd r)) "000009.sst.tmp" = false.
Proof.
  apply (GetObject_size_mismatch_deletes [x41; x42] 3 plain_uploader "bucket"
           "db/000009.sst" "000009.sst" example_download_world).
  simpl. lia.
Defined.

(** ** The rest of the S3 backend *)

Ltac act :=
  unfold act_bind, act_ret, call, lift in *; eff.

Lemma s3_calls_app j1 j2 : s3_calls (j1 ++ j2) = s3_calls j1 ++ s3_calls j2.
Proof. apply omap_app. Qed.

Ltac calls_eq :=
  rewrite ?s3_calls_app; simpl; rewrite ?app_nil_r, <- ?app_assoc;
  reflexivity.

Lemma DeleteObject_unfold service bucket_name object_path s :
  DeleteObject service bucket_name object_path s
  = (delete_status service bucket_name object_path,
     mkSite (site_fs s)
       (journal s ++ [inr (CallDeleteObject (mkDelReq bucket_name object_path));
                      inl (EvLog INFO_LEVEL)])).
Proof. unfold DeleteObject. act. by rewrite <- app_assoc. Qed.

Lemma delete_each_spec service bucket_name results :
  forall st s,
  let r := delete_each service bucket_name results st s in
  fst r = match last results with
          | Some path => delete_status service bucket_name path
          | None => st
          end /\
  site_fs (snd r) = site_fs s /\
  s3_calls (journal (snd r))
  = s3_calls (journal s)
    ++ map (fun path => CallDeleteObject (mkDelReq bucket_name path)) results.
Proof.
  induction results as [|path results IH]; intros st s.
  - simpl. by rewrite app_nil_r.
  - set (st1 := delete_status service bucket_name path).
    set (s1 := mkSite (site_fs s)
                 (journal s ++
                  [inr (CallDeleteObject (mkDelReq bucket_name path));
                   inl (EvLog INFO_LEVEL)])).
    assert (Hlog : exists s2,
              (if negb (ok st1) then lift (Log ERROR_LEVEL) else act_ret tt) s1
              = (tt, s2) /\
              site_fs s2 = site_fs s /\
              s3_calls (journal s2)
              = s3_calls (journal s)
                ++ [CallDeleteObject (mkDelReq bucket_name path)]).
    { destruct (ok st1); simpl; eexists; (split; [reflexivity|]); simpl;
        (split; [reflexivity|]); rewrite !s3_calls_app; simpl;
        rewrite ?app_nil_r; reflexivity. }
    destruct Hlog as (s2 & Hlog & Hfs & Hcalls).
    assert (Hstep : delete_each service bucket_name (path :: results) st s
                    = delete_each service bucket_name results st1 s2).
    { simpl. unfold act_bind. rewrite DeleteObject_unfold.
      fold st1 s1. by rewrite Hlog. }
    intros r. subst r. rewrite Hstep.
    destruct (IH st1 s2) as (Hst & Hfs' & Hcalls').
    split; [|split].
    + rewrite Hst. destruct results as [|p results']; [reflexivity|].
      rewrite (last_cons path).
      destruct (last (p :: results')) eqn:E; [reflexivity|].
      by apply last_None in E.
    + etransitivity; [exact Hfs' | exact Hfs].
    + rewrite Hcalls', Hcalls, <- app_assoc. reflexivity.
Qed.

(** X13. [EmptyBucket] lists first and deletes only after a listing that
    succeeded; it then asks for the delete of every name listed, in order,
    going on past deletes that fail, and what it returns is the status of
    the last delete alone (OK for an empty listing).  The keys it asks to
    delete are the names as listed, that is with the prefix stripped. *)
Theorem EmptyBucket_deletes_each_listed_name
    (ltrim_if : string -> ascii -> string)
    (ensure_ends_with_pathsep : string -> string)
    (fuel : nat) (s3client : AwsS3ClientWrapper) (service : AwsS3Service)
    (bucket_name object_path : string) (s : Site) :
  let listing := fst (ListObjects ltrim_if ensure_ends_with_pathsep fuel
                        s3client bucket_name object_path []
                        (mkWorld (site_fs s) [])) in
  let r := EmptyBucket ltrim_if ensure_ends_with_pathsep fuel s3client
                       service bucket_name object_path s in
  match listing with
  | Finished st results =>
      if ok st then
        fst r = Some match last results with
                     | Some path => delete_status service bucket_name path
                     | None => OK
                     end /\
        s3_calls (journal (snd r))
        = s3_calls (journal s)
          ++ map (fun path => CallDeleteObject (mkDelReq bucket_name path))
                 results
      else
        fst r = Some st /\ s3_calls (journal (snd r)) = s3_calls (journal s)
  | _ => fst r = None /\ s3_calls (journal (snd r)) = s3_calls (journal s)
  end.
Proof.
  intros listing r.
  destruct (ListObjects ltrim_if ensure_ends_with_pathsep fuel s3client
              bucket_name object_path [] (mkWorld (site_fs s) []))
    as [run w1] eqn:Hrun.
  assert (Hl : listing = run) by (unfold listing; by rewrite ?Hrun).
  set (s1 := mkSite (fs w1) (journal s ++ map inl (trace w1))).
  assert (HE : r = match run with
                   | Finished st results =>
                       if negb (ok st) then
                         (Some st,
                          mkSite (site_fs s1)
                                 (journal s1 ++ [inl (EvLog ERROR_LEVEL)]))
                       else
                         let d := delete_each service bucket_name results st
                                    (mkSite (site_fs s1)
                                       (journal s1 ++ [inl (EvLog DEBUG_LEVEL)]))
                         in (Some (fst d), snd d)
                   | _ => (None, s1)
                   end).
  { unfold r, EmptyBucket, act_bind. unfold lift at 1. rewrite Hrun.
    fold s1. destruct run as [st results | |]; [|reflexivity..].
    destruct (ok st); simpl; [|reflexivity].
    unfold lift. simpl.
    by destruct (delete_each service bucket_name results st _). }
  rewrite Hl, HE. clear HE.
  assert (Hinl : forall t : list Event,
            s3_calls (map inl t : list (Event + S3Call)) = []).
  { induction t as [|e t IH]; [reflexivity | exact IH]. }
  assert (Hs1 : s3_calls (journal s1) = s3_calls (journal s)).
  { unfold s1. simpl. by rewrite s3_calls_app, Hinl, app_nil_r. }
  clearbody s1.
  destruct run as [st results | |]; [|by split..].
  destruct st as [|c m]; cbn [ok negb fst snd].
  - destruct (delete_each_spec service bucket_name results OK
                (mkSite (site_fs s1)
                   (journal s1 ++ [inl (EvLog DEBUG_LEVEL)])))
      as (Hst & _ & Hcalls).
    split; [by rewrite Hst|].
    rewrite Hcalls. cbn [journal]. rewrite s3_calls_app. simpl.
    by rewrite app_nil_r, Hs1.
  - split; [reflexivity|]. cbn [journal]. rewrite s3_calls_app. simpl.
    by rewrite app_nil_r.
Qed.

(** The five names under [db/] are deleted one by one; the second delete is
    denied and the last succeeds, so the call returns OK. *)
Lemma EmptyBucket_deletes_each_listed_name_witness :
  let r := EmptyBucket spec_ltrim_if spec_ensure_ends_with_pathsep 6
             example_bucket one_delete_denied "bucket" "/db" empty_site in
  fst r = Some OK /\
  s3_calls (journal (snd r))
  = map (fun path => CallDeleteObject (mkDelReq "bucket" path))
        ["000001.sst"; "000002.sst"; "000003.sst"; "000004.sst";
         "MANIFEST-000001"].
Proof.
  intros r.
  assert (H := EmptyBucket_deletes_each_listed_name spec_ltrim_if
                 spec_ensure_ends_with_pathsep 6 example_bucket
                 one_delete_denied "bucket" "/db" empty_site).
  exact H.
Defined.

Lemma HeadObject_unfold service bucket_name object_path metadata size modtime s :
  snd (HeadObject service bucket_name object_path metadata size modtime s)
  = mkSite (site_fs s)
      (journal s ++ [inr (CallHeadObject (mkHeadReq bucket_name object_path))]).
Proof.
  unfold HeadObject. act.
  destruct (s3_HeadObject service _) as [res|error]; [reflexivity|].
  by destruct (S3IsNotFound (GetErrorType error)).
Qed.

(** The status [HeadObject] makes of the store's answer. *)
Lemma HeadObject_status service bucket_name object_path metadata size modtime s :
  fst (fst (fst (fst (HeadObject service bucket_name object_path
                                 metadata size modtime s))))
  = match s3_HeadObject service (mkHeadReq bucket_name object_path) with
    | HeadSuccess _ => OK
    | HeadFailure error =>
        if S3IsNotFound (GetErrorType error)
        then NotFound2 object_path (GetMessage error)
        else IOError2 object_path (GetMessage error)
    end.
Proof.
  unfold HeadObject. act.
  destruct (s3_HeadObject service _) as [res|error]; [reflexivity|].
  by destruct (S3IsNotFound (GetErrorType error)).
Qed.

(** X14. [ExistsObject], [GetObjectSize], [GetObjectModificationTime] and
    [GetObjectMetadata] are one HEAD round trip each and agree on the status
    for the same object.  When the HEAD fails, the size, the time and the
    metadata map of the caller are left as they were; when it succeeds they
    are the content length, the last-modified time, and the caller's map
    with the object's entries stored over it. *)
Theorem head_projections_agree
    (service : AwsS3Service) (bucket_name object_path : string)
    (filesize time : Z) (result : gmap string string) (s : Site) :
  let head := [inr (CallHeadObject (mkHeadReq bucket_name object_path))] in
  let exists_ := ExistsObject service bucket_name object_path s in
  let size := GetObjectSize service bucket_name object_path filesize s in
  let mtime := GetObjectModificationTime service bucket_name object_path
                 time s in
  let meta := GetObjectMetadata service bucket_name object_path result s in
  journal (snd exists_) = journal s ++ head /\
  journal (snd size) = journal s ++ head /\
  journal (snd mtime) = journal s ++ head /\
  journal (snd meta) = journal s ++ head /\
  fst (fst size) = fst exists_ /\
  fst (fst mtime) = fst exists_ /\
  fst (fst meta) = fst exists_ /\
  match s3_HeadObject service (mkHeadReq bucket_name object_path) with
  | HeadSuccess res =>
      fst exists_ = OK /\
      snd (fst size) = wrap64 (GetContentLength res) /\
      snd (fst mtime) = wrap64 (GetLastModifiedMillis res) /\
      snd (fst meta) = GetMetadata res ∪ result
  | HeadFailure error =>
      ok (fst exists_) = false /\
      snd (fst size) = filesize /\
      snd (fst mtime) = time /\
      snd (fst meta) = result
  end.
Proof.
  unfold ExistsObject, GetObjectSize, GetObjectModificationTime,
    GetObjectMetadata, HeadObject. act.
  destruct (s3_HeadObject service _) as [res|error]; simpl.
  - repeat split.
  - destruct (S3IsNotFound (GetErrorType error)); simpl; repeat split.
Qed.

(** X15. Opening a reader asks the store once for the object's size.  If
    that fails there is no reader and the failure is returned.  If the store
    holds the object, the reader starts at offset 0 knowing its size, and
    every read through it returns the object's bytes from the offset asked,
    at most as many as asked. *)
Theorem NewCloudReadableFile_then_Read
    (s3client : AwsS3ClientWrapper) (service : AwsS3Service)
    (bucket fname : string) (size0 : Z) (s : Site) :
  let r := NewCloudReadableFile s3client service bucket fname size0 s in
  s3_calls (journal (snd r))
  = s3_calls (journal s) ++ [CallHeadObject (mkHeadReq bucket fname)] /\
  (forall error,
     s3_HeadObject service (mkHeadReq bucket fname) = HeadFailure error ->
     ok (fst (fst r)) = false /\ snd (fst r) = None) /\
  (forall res (data : list byte),
     s3_HeadObject service (mkHeadReq bucket fname) = HeadSuccess res ->
     GetContentLength res = Z.of_nat (length data) ->
     Z.of_nat (length data) <= 2 ^ 63 - 1 ->
     (forall request,
        s3_GetObject s3client request = serve_range data (get_Range request)) ->
     exists reader,
       fst r = (OK, Some reader) /\
       offset_ reader = 0 /\
       file_size_ reader = Z.of_nat (length data) /\
       forall offset n w,
         0 <= offset < 2 ^ 64 ->
         0 <= n <= 2 ^ 63 - 1 ->
         fst (Read reader offset n w)
         = (OK, take (Z.to_nat n) (drop (Z.to_nat offset) data))).
Proof.
  intros r. subst r.
  unfold NewCloudReadableFile, DoNewCloudReadableFile, GetObjectSize,
    HeadObject. act.
  destruct (s3_HeadObject service (mkHeadReq bucket fname)) as [res|error];
    simpl.
  - split; [rewrite !s3_calls_app; simpl; by rewrite app_nil_r|].
    split; [intros error [=]|].
    intros res' data [= <-] Hlen Hsize Hstore.
    rewrite Hlen, wrap64_small by lia.
    eexists. split; [reflexivity|]. split; [reflexivity|].
    split; [reflexivity|].
    intros offset n w Hoff Hn.
    by apply Read_object_slice.
  - destruct (S3IsNotFound (GetErrorType error)); simpl;
      (split; [by rewrite s3_calls_app|]);
      (split; [intros e _; by split | intros res data [=]]).
Qed.

(** The five-byte object is opened and bytes 1 and 2 are read. *)
Lemma NewCloudReadableFile_then_Read_witness :
  let data := [x41; x42; x43; x44; x45] in
  exists reader,
    fst (NewCloudReadableFile (object_client data)
           (object_service "bucket" "db/000007.sst" data)
           "bucket" "db/000007.sst" 0 empty_site)
    = (OK, Some reader) /\
    fst (Read reader 1 2 empty_world) = (OK, [x42; x43]).
Proof.
  intros data.
  destruct (NewCloudReadableFile_then_Read (object_client data)
              (object_service "bucket" "db/000007.sst" data)
              "bucket" "db/000007.sst" 0 empty_site) as (_ & _ & H).
  destruct (H (mkHeadRes ∅ 5 0) data) as (reader & Hr & _ & _ & Hread);
    [reflexivity | reflexivity | simpl; lia | reflexivity |].
  exists reader. split; [exact Hr|].
  apply (Hread 1 2 empty_world); lia.
Defined.

(** X16. [SanitizeOptions] with a destination bucket configured probes the
    bucket once.  If it is there, nothing else is asked of the store.  If
    it is missing, a bucket is created only when
    [create_bucket_if_missing] is set, and the result is that of the
    creation; otherwise the result is not-found and no creation is tried.
    With a provider that has already failed, or without a destination
    bucket, the store is not contacted at all. *)
Theorem SanitizeOptions_creates_only_when_missing
    (service : AwsS3Service) (bucket_location_ : BucketLocationConstraint)
    (env : CloudEnvConfig) (status_ : Status) (s : Site) :
  let r := SanitizeOptions service bucket_location_ env status_ s in
  let dest := GetDestBucketName env in
  let probe := CallHeadBucket (mkHeadBucketReq dest) in
  let create := CallCreateBucket
                  (mkCreateReq dest
                     match bucket_location_ with
                     | NOT_SET => None
                     | _ => Some bucket_location_
                     end) in
  if negb (ok status_) || negb (HasDestBucket env) then
    r = (status_, s)
  else
    match s3_HeadBucket service (mkHeadBucketReq dest) with
    | S3Success =>
        fst r = OK /\ s3_calls (journal (snd r)) = s3_calls (journal s) ++ [probe]
    | S3Failure _ =>
        if create_bucket_if_missing env then
          s3_calls (journal (snd r)) = s3_calls (journal s) ++ [probe; create] /\
          forall s', fst r = fst (CreateBucket service bucket_location_ dest s')
        else
          s3_calls (journal (snd r)) = s3_calls (journal s) ++ [probe] /\
          fst r = NotFound
                    "Bucket not found and create_bucket_if_missing is false"
    end.
Proof.
  intros r dest probe create. subst r.
  unfold SanitizeOptions.
  destruct status_ as [|c m]; simpl; [|reflexivity].
  destruct (HasDestBucket env); simpl; [|reflexivity].
  unfold ExistsBucket, CreateBucket. act. fold dest.
  destruct (s3_HeadBucket service (mkHeadBucketReq dest)) as [|error]; simpl.
  - split; [reflexivity | calls_eq].
  - destruct (create_bucket_if_missing env); simpl.
    + destruct (s3_CreateBucket service _) as [|e]; simpl;
        [|destruct (GetErrorType e); simpl];
        (split; [calls_eq | reflexivity]).
    + split; [calls_eq | reflexivity].
Qed.

(** The caller owns no bucket yet and asks for the destination to be
    created when missing: one probe, one creation, success. *)
Lemma SanitizeOptions_creates_only_when_missing_witness :
  let r := SanitizeOptions (buckets_service ∅) (Location "us-west-2")
             create_if_missing_env OK empty_site in
  fst r = OK /\
  s3_calls (journal (snd r))
  = [CallHeadBucket (mkHeadBucketReq "dest");
     CallCreateBucket (mkCreateReq "dest" (Some (Location "us-west-2")))].
Proof.
  intros r.
  assert (H := SanitizeOptions_creates_only_when_missing (buckets_service ∅)
                 (Location "us-west-2") create_if_missing_env OK empty_site).
  simpl in H. destruct H as [H1 H2].
  split; [exact (H2 empty_site) | exact H1].
Defined.

(** X17. With a source and a destination bucket that differ and lie in
    different regions, the S3 provider's [SanitizeOptions] returns an
    invalid-argument status before it has a client: nothing is asked of the
    store, whatever the configuration and the credentials would have
    given. *)
Theorem S3SanitizeOptions_rejects_two_regions
    (service : AwsS3Service)
    (location_for : string -> BucketLocationConstraint)
    (config_status : Status) (config_region : string) (creds_status : Status)
    (env : CloudEnvConfig) (bucket_location_ : BucketLocationConstraint)
    (s : Site)
    (Hsrc : HasSrcBucket env = true)
    (Hdest : HasDestBucket env = true)
    (Hdiffer : SrcMatchesDest env = false)
    (Hregions : src_region env <> dest_region env) :
  let r := S3SanitizeOptions service location_for config_status config_region
             creds_status env bucket_location_ OK s in
  fst r = Err kInvalidArgument "Two different regions not supported" /\
  s3_calls (journal (snd r)) = s3_calls (journal s) /\
  site_fs (snd r) = site_fs s.
Proof.
  intros r. subst r. unfold S3SanitizeOptions. simpl.
  rewrite Hsrc, Hdest, Hdiffer. simpl.
  destruct (String.eqb_spec (src_region env) (dest_region env));
    [contradiction|]. act.
  repeat split. rewrite s3_calls_app. simpl. by rewrite app_nil_r.
Qed.

(** A source in us-west-2 and a destination in eu-west-1. *)
Lemma S3SanitizeOptions_rejects_two_regions_witness :
  fst (S3SanitizeOptions (buckets_service ∅) Location OK "us-west-2" OK
         cross_region_env NOT_SET OK empty_site)
  = Err kInvalidArgument "Two different regions not supported".
Proof.
  apply (S3SanitizeOptions_rejects_two_regions (buckets_service ∅) Location
           OK "us-west-2" OK cross_region_env NOT_SET empty_site);
    [reflexivity | reflexivity | reflexivity | discriminate].
Defined.

(** X18. Creating a bucket is idempotent against a store that keeps track
    of the buckets the caller owns: [CreateBucket] succeeds when the bucket
    is new, and succeeds again once the caller owns it, for the store's
    "already owned by you" is taken as success. *)
Theorem CreateBucket_twice_succeeds
    (owned : gset string) (bucket_location_ : BucketLocationConstraint)
    (bucket : string) (s s' : Site) :
  fst (CreateBucket (buckets_service owned) bucket_location_ bucket s) = OK /\
  fst (CreateBucket (buckets_service ({[bucket]} ∪ owned)) bucket_location_
                    bucket s') = OK.
Proof.
  unfold CreateBucket. act.
  split.
  - by destruct (decide (bucket ∈ owned)).
  - destruct (decide (bucket ∈ {[bucket]} ∪ owned)) as [|Hn]; [reflexivity|].
    exfalso. apply Hn. apply elem_of_union. left. by apply elem_of_singleton.
Qed.

(** ** More on ListObjects *)

Lemma push_keys_extends prefix objs result :
  exists more, snd (push_keys prefix objs result) = result ++ more.
Proof.
  destruct (push_keys_spec prefix objs result)
    as [[_ H] | (good & bad & rest & _ & _ & _ & H)]; rewrite H; by eexists.
Qed.

Lemma ListObjects_loop_frame s3client bucket_name object_path prefix fuel :
  forall marker result w,
  let r := ListObjects_loop fuel s3client bucket_name object_path prefix
                            marker result w in
  exists evs,
    snd r = mkWorld (fs w) (trace w ++ evs) /\
    Forall (listing_call bucket_name prefix) evs /\
    (length (List.filter is_remote evs) <= fuel)%nat /\
    (forall st result', fst r = Finished st result' ->
                        exists more, result' = result ++ more).
Proof.
  induction fuel as [|fuel IH]; intros marker result w.
  - exists []. simpl. rewrite app_nil_r.
    split; [by destruct w|]. split; [constructor|]. split; [lia|].
    intros st result' [=].
  - intros r. subst r. simpl. eff.
    set (request := mkListReq bucket_name 50 prefix marker).
    set (w1 := mkWorld (fs w) (trace w ++ [EvS3ListObjects request])).
    assert (Hreq : listing_call bucket_name prefix (EvS3ListObjects request))
      by (by repeat split).
    assert (Hrec : forall marker' result1,
      (exists more, result1 = result ++ more) ->
      let r := ListObjects_loop fuel s3client bucket_name object_path prefix
                                marker' result1 w1 in
      exists evs,
        snd r = mkWorld (fs w) (trace w ++ evs) /\
        Forall (listing_call bucket_name prefix) evs /\
        (length (List.filter is_remote evs) <= S fuel)%nat /\
        (forall st result', fst r = Finished st result' ->
                            exists more, result' = result ++ more)).
    { intros marker' result1 [more1 ->] r.
      destruct (IH marker' (result ++ more1) w1) as (evs & Hw & Hall & Hn & Hres).
      exists (EvS3ListObjects request :: evs). fold r in Hw, Hres.
      split; [rewrite Hw; unfold w1; simpl; by rewrite <- app_assoc|].
      split; [by constructor|]. split; [simpl; lia|].
      intros st result' Hfin. destruct (Hres st result' Hfin) as [more ->].
      exists (more1 ++ more). by rewrite app_assoc. }
    assert (Hstop : forall run (w' : World) evs,
      w' = mkWorld (fs w) (trace w ++ EvS3ListObjects request :: evs) ->
      Forall (listing_call bucket_name prefix) evs ->
      List.filter is_remote evs = [] ->
      (forall st result', run = Finished st result' ->
                          exists more, result' = result ++ more) ->
      exists evs0,
        w' = mkWorld (fs w) (trace w ++ evs0) /\
        Forall (listing_call bucket_name prefix) evs0 /\
        (length (List.filter is_remote evs0) <= S fuel)%nat /\
        (forall st result', run = Finished st result' ->
                            exists more, result' = result ++ more)).
    { intros run w' evs -> Hall Hrem Hres.
      exists (EvS3ListObjects request :: evs).
      split; [reflexivity|]. split; [by constructor|].
      split; [simpl; rewrite Hrem; simpl; lia | exact Hres]. }
    destruct (s3_ListObjects s3client request) as [res|error].
    + destruct (push_keys_extends prefix (GetContents res) result)
        as [more Hmore].
      destruct (push_keys prefix (GetContents res) result)
        as [[|c m] result1]; simpl in Hmore; subst result1.
      * destruct (GetIsTruncated res); simpl.
        -- destruct (string_empty (GetNextMarker res)).
           ++ destruct (last (GetContents res)) as [key|].
              ** apply Hrec. by exists more.
              ** apply (Hstop _ _ []); simpl;
                   [reflexivity | constructor | reflexivity | intros ? ? [=]].
           ++ apply Hrec. by exists more.
        -- apply (Hstop _ _ []); simpl;
             [reflexivity | constructor | reflexivity |].
           intros st result' [= <- <-]. by exists more.
      * apply (Hstop _ _ []); simpl;
          [reflexivity | constructor | reflexivity |].
        intros st result' [= <- <-]. by exists more.
    + destruct (S3IsNotFound (GetErrorType error)); simpl.
      * apply (Hstop _ _ [EvLog ERROR_LEVEL]); simpl;
          [by rewrite <- app_assoc | by repeat constructor | reflexivity |].
        intros st result' [= <- <-]. exists []. by rewrite app_nil_r.
      * apply (Hstop _ _ []); simpl;
          [reflexivity | constructor | reflexivity |].
        intros st result' [= <- <-]. exists []. by rewrite app_nil_r.
Qed.

(** X19. Whatever the store answers, [ListObjects] only appends to the
    result it was given, also when it fails part of the way; it touches no
    local file; and every query it sends asks the given bucket for at most
    50 keys under the normalized prefix, one query per iteration. *)
Theorem ListObjects_appends_and_queries_by_prefix
    (ltrim_if : string -> ascii -> string)
    (ensure_ends_with_pathsep : string -> string)
    (fuel : nat) (s3client : AwsS3ClientWrapper)
    (bucket_name object_path : string) (result : list string) (w : World) :
  let prefix := normalized_prefix ltrim_if ensure_ends_with_pathsep
                                  object_path in
  let r := ListObjects ltrim_if ensure_ends_with_pathsep fuel s3client
                       bucket_name object_path result w in
  exists evs,
    snd r = mkWorld (fs w) (trace w ++ evs) /\
    Forall (listing_call bucket_name prefix) evs /\
    (length (List.filter is_remote evs) <= fuel)%nat /\
    (forall st result', fst r = Finished st result' ->
                        exists more, result' = result ++ more).
Proof.
  intros prefix r. unfold r, ListObjects. fold prefix.
  apply ListObjects_loop_frame.
Qed.

(** The listing that fails on a stray key keeps the entry it was given and
    the one it had pushed. *)
Lemma ListObjects_appends_and_queries_by_prefix_witness :
  exists more,
    fst (ListObjects spec_ltrim_if spec_ensure_ends_with_pathsep 5
           stray_key_client "bucket" "/db" ["kept"] empty_world)
    = Finished (IOError "Unexpected result from AWS S3: other/000008.sst")
               (["kept"] ++ more).
Proof.
  destruct (ListObjects_appends_and_queries_by_prefix spec_ltrim_if
              spec_ensure_ends_with_pathsep 5 stray_key_client "bucket" "/db"
              ["kept"] empty_world) as (evs & _ & _ & _ & H).
  destruct (H (IOError "Unexpected result from AWS S3: other/000008.sst")
              ["kept"; "000007.sst"] eq_refl) as [more Hmore].
  exists more. rewrite <- Hmore. reflexivity.
Defined.

(** ** Which calls can report not-found *)

(** X20. The same not-found answer of the store comes back differently from
    different operations.  [DeleteObject] and the HEAD-based queries report
    it as not-found; [CopyObject] and [PutObjectMetadata] never return
    not-found, they turn every failure into an I/O error naming the
    destination; [CreateBucket] likewise returns OK or an I/O error; and
    [ExistsBucket] reports every failure whatever its kind as not-found. *)
Theorem which_calls_report_not_found
    (service : AwsS3Service) (options : EncryptionOptions)
    (bucket_location_ : BucketLocationConstraint)
    (bucket path bucket' path' : string) (metadata : gmap string string)
    (s : Site) :
  let copy := fst (CopyObject service bucket path bucket' path' s) in
  let put := fst (PutObjectMetadata service options bucket path metadata s) in
  let create := fst (CreateBucket service bucket_location_ bucket s) in
  let probe := fst (ExistsBucket service bucket s) in
  let delete := fst (DeleteObject service bucket path s) in
  let head := fst (ExistsObject service bucket path s) in
  (copy = OK \/ exists msg, copy = IOError2 path' msg) /\
  (put = OK \/ exists msg, put = IOError2 path msg) /\
  (create = OK \/ exists msg, create = IOError2 bucket msg) /\
  (probe = OK \/ probe = NotFound "") /\
  (forall error,
     s3_DeleteObject service (mkDelReq bucket path) = S3Failure error ->
     IsNotFound delete = S3IsNotFound (GetErrorType error)) /\
  (forall error,
     s3_HeadObject service (mkHeadReq bucket path) = HeadFailure error ->
     IsNotFound head = S3IsNotFound (GetErrorType error)).
Proof.
  unfold CopyObject, PutObjectMetadata, CreateBucket, ExistsBucket,
    ExistsObject, HeadObject. rewrite DeleteObject_unfold.
  unfold delete_status. act.
  split; [|split; [|split; [|split; [|split]]]].
  - destruct (s3_CopyObject service _) as [|e]; simpl; [by left|].
    right. by eexists.
  - destruct (s3_PutObject service _) as [|e]; simpl; [by left|].
    right. by eexists.
  - destruct (s3_CreateBucket service _) as [|e]; simpl; [by left|].
    destruct (GetErrorType e); simpl; (by left) || (right; by eexists).
  - destruct (s3_HeadBucket service _); simpl; auto.
  - intros error ->. by destruct (S3IsNotFound (GetErrorType error)).
  - intros error ->. by destruct (S3IsNotFound (GetErrorType error)).
Qed.

(** The object is not in the store: the delete and the query say not-found,
    the copy says I/O error. *)
Lemma which_calls_report_not_found_witness :
  IsNotFound (fst (DeleteObject missing_object_service "bucket"
                     "db/000007.sst" empty_site)) = true /\
  IsNotFound (fst (ExistsObject missing_object_service "bucket"
                     "db/000007.sst" empty_site)) = true /\
  IsNotFound (fst (CopyObject missing_object_service "bucket"
                     "/db/000007.sst" "bucket" "db/000008.sst" empty_site))
  = false.
Proof.
  destruct (which_calls_report_not_found missing_object_service
              (mkEncryption false "") NOT_SET "bucket" "db/000007.sst"
              "bucket" "db/000008.sst" ∅ empty_site)
    as (_ & _ & _ & _ & Hdel & Hhead).
  split; [|split].
  - exact (Hdel (mkAWSError NO_SUCH_KEY "Not Found") eq_refl).
  - exact (Hhead (mkAWSError NO_SUCH_KEY "Not Found") eq_refl).
  - destruct (which_calls_report_not_found missing_object_service
                (mkEncryption false "") NOT_SET "bucket" "/db/000007.sst"
                "bucket" "db/000008.sst" ∅ empty_site)
      as ([H | [msg H]] & _); rewrite H; reflexivity.
Defined.

(** ** PutObject through the S3 backend *)

(** X21. When the local file is there and its size is measured, [PutObject]
    through the S3 backend starts an upload only for a file that is not
    empty, starts one upload then, leaves the local files as they are, and
    succeeds exactly when the file is not empty and that upload went
    through.  Without a transfer manager the upload is a PUT to the bucket
    and key given, with the encryption the options ask for, whose body is
    the local file.  With the transfer manager [DoPutObject] passes the file
    name, the bucket and the key to a wrapper that declares the bucket, the
    key and the file name in this order, so the transfer manager is asked to
    upload the file named by the object path, to the bucket named by the
    local file, under the key named by the bucket. *)
Theorem PutObject_upload_request
    (dl : Download) (up : AwsS3Uploader) (inj : Faults)
    (local_file bucket_name object_path : string) (w : World)
    (content : list byte)
    (Hfile : read_file (fs w) local_file = Some content)
    (Hsize : inj_size inj = OK) :
  let r := PutObject (H := S3StorageProvider dl up) inj local_file
                     bucket_name object_path w in
  let enc := SetEncryptionParameters (GetCloudEnvOptions up) in
  let request := mkPutReq bucket_name object_path ∅ (fst enc) (snd enc) in
  let sent :=
    if HasTransferManager up
    then EvUploadFile object_path local_file bucket_name
    else EvS3PutObject request local_file in
  let outcome :=
    if HasTransferManager up
    then transfer_manager_UploadFile up object_path local_file bucket_name
    else client_PutObject up request local_file in
  (ok (fst r) = true <-> content <> [] /\ outcome = None) /\
  (forall error, content <> [] -> outcome = Some error ->
                 fst r = IOError2 local_file (GetMessage error)) /\
  List.filter is_remote (trace (snd r))
  = List.filter is_remote (trace w)
    ++ match content with [] => [] | _ => [sent] end /\
  fs (snd r) = fs w.
Proof.
  intros r enc request sent outcome. subst r sent outcome.
  unfold PutObject. simpl. unfold S3DoPutObject, UploadFile, ClientPutObject.
  fold enc. fold request. prims.
  rewrite Hsize, Hfile. simpl.
  destruct content as [|b content]; simpl.
  - rewrite !List.filter_app. simpl. rewrite !app_nil_r.
    split; [|split; [|split; reflexivity]].
    + split; [discriminate | by intros [? _]].
    + by intros error ?.
  - destruct (HasTransferManager up); simpl;
      match goal with
      | |- context [match ?o with Some _ => _ | None => _ end] =>
          destruct o as [error|] eqn:Ho
      end; simpl; rewrite !List.filter_app; simpl; rewrite ?app_nil_r;
      (split; [|split; [|split; reflexivity]]);
      try (split; [discriminate | by intros [_ ?]]);
      try (split; [by split | reflexivity]);
      try (by intros error' _ [= <-]);
      try (by intros error' _ [=]).
Qed.

(** The three-byte table file is put into the bucket when the wrapper has
    no transfer manager.  With a transfer manager in front of a store that
    has the bucket "bucket" only, the same call fails, for the bucket the
    transfer manager is given is the name of the local file. *)
Lemma PutObject_upload_request_witness :
  let put up := PutObject (H := S3StorageProvider full_download up) no_faults
                  "000007.sst" "bucket" "db/000007.sst" example_table_world in
  read_file (fs example_table_world) "000007.sst" = Some [x41; x42; x43] /\
  ok (fst (put plain_uploader)) = true /\
  List.filter is_remote (trace (snd (put plain_uploader)))
  = [EvS3PutObject (mkPutReq "bucket" "db/000007.sst" ∅ None None)
                   "000007.sst"] /\
  fst (put transfer_uploader)
  = IOError2 "000007.sst" "The specified bucket does not exist" /\
  List.filter is_remote (trace (snd (put transfer_uploader)))
  = [EvUploadFile "db/000007.sst" "000007.sst" "bucket"].
Proof.
  intros put.
  assert (Hfile : read_file (fs example_table_world) "000007.sst"
                  = Some [x41; x42; x43]) by (vm_compute; reflexivity).
  split; [exact Hfile|].
  destruct (PutObject_upload_request full_download plain_uploader no_faults
              "000007.sst" "bucket" "db/000007.sst" example_table_world
              [x41; x42; x43] Hfile eq_refl) as (Hok & _ & Hsent & _).
  destruct (PutObject_upload_request full_download transfer_uploader
              no_faults "000007.sst" "bucket" "db/000007.sst"
              example_table_world [x41; x42; x43] Hfile eq_refl)
    as (_ & Hfail & Hsent' & _).
  split; [|split; [|split]].
  - apply Hok. split; [discriminate | reflexivity].
  - exact Hsent.
  - apply (Hfail (mkAWSError NO_SUCH_BUCKET
                    "The specified bucket does not exist"));
      [discriminate | reflexivity].
  - exact Hsent'.
Defined.
